(** * Quark: scanner and lazy evaluation core

    A shallow embedding of [quark/core/ast.py] and [quark/core/scanner.py].
    Python [str] is [string]; a [set] of names is a [gset string]; the
    environment (the "closure" [dict]) is a [gmap string Expression],
    threaded through [execute] together with the pending-argument list,
    since both objects are mutated in place.  Recursion that Python leaves
    unbounded runs on a budget here. *)

From Stdlib Require Import ZArith Ascii String List.
From stdpp Require Import base gmap strings list fin_maps.

Open Scope string_scope.
Open Scope list_scope.
Open Scope nat_scope.
Set Warnings "-register-all,-clear-no-such-hyp".

(** ** Token model *)

(** Modelled from the spec: the [TokenTypes] enumeration lives in
    [quark.core.token_], which is not part of the sources.  The members
    listed by name are exactly those the two source files mention; every
    other member of the enumeration (keywords, remaining punctuation) is
    [OTHER] with its name. *)
Inductive TokenTypes :=
| INTEGER | REAL | COMPLEX | STRING | BOOLEAN | ID
| SKIP | PERIOD
| PLUS | MINUS | STAR | SLASH | DOUBLE_SLASH | DOUBLE_STAR | PERCENT
| SLASH_PERCENT
| GREATER | LESS | GREATER_EQUAL | LESS_EQUAL | DOUBLE_EQUAL
| EXCLAMATION_EQUAL
| AND | OR | XOR | NOT
| HEAD | TAIL | NIL
| OTHER (name : string).

#[global] Instance TokenTypes_eq_dec : EqDecision TokenTypes.
Proof. solve_decision. Defined.

(** [Token(type, raw, pos)]; [pos] is the pair (column, line). *)
Record Token := mkToken {
  type : TokenTypes;
  raw : string;
  pos : nat * nat
}.

#[global] Instance Token_eq_dec : EqDecision Token.
Proof. solve_decision. Defined.

(** ** AST nodes *)

(** The subclasses of [Expression].  [IdList] and [ExpressionList] are
    Python lists; [_InternalName] carries the text of the counter value
    it drew when it was built. *)
Inductive Expression :=
| LetExpression (binding_identifiers : list string)
                (initialiser_expressions : list Expression)
                (body_expression : Expression)
| LambdaExpression (binding_identifier : string) (body_expression : Expression)
| ConditionalExpression (condition consequent : Expression)
                        (alternative : option Expression)
| ApplicationExpression (function argument : Expression)
| BinaryExpression (lhs_expr : Expression) (operand : Token) (rhs_expr : Expression)
| UnaryExpression (operand : Token) (expr : Expression)
| ListExpression (items : list Expression)
| _InternalName (id : string)
| AtomExpression (raw : string) (type_ : TokenTypes)
| ExpressionList (exprs : list Expression).

(** Statements; every expression is a statement too. *)
Inductive Statement :=
| ImportStatement (package_names : list string) (alias_names : option (list string))
| ExportStatement (package_names : list string) (alias_names : option (list string))
| AssignmentStatement (identifiers : list string) (expr_values : list Expression)
| ExpressionStatement (e : Expression).

(** ** Scope queries *)

(** [set(s)] for a Python [str] [s]: the set of its characters, each a
    one-character string.  One character of the model stands for one
    character of the Python text; a text with a character outside the
    256 of [ascii] has no counterpart in the model. *)
Fixpoint set_of_str (s : string) : gset string :=
  match s with
  | EmptyString => ∅
  | String c s' => {[ String c EmptyString ]} ∪ set_of_str s'
  end.

(** [set(l)] for a list of names. *)
Definition set_of_list (l : list string) : gset string := list_to_set l.

(** The loop [ret = set(); for item in items: ret |= f(item)]. *)
Definition union_over {A} (f : A → gset string) (items : list A) : gset string :=
  foldl (λ ret item, ret ∪ f item) ∅ items.

Fixpoint variables (e : Expression) : gset string :=
  match e with
  | LetExpression _ inits body => union_over variables inits ∪ variables body
  | LambdaExpression _ body => variables body
  | ConditionalExpression c t (Some a) => variables c ∪ variables t ∪ variables a
  | ConditionalExpression c t None => variables c ∪ variables t
  | ApplicationExpression f a => variables f ∪ variables a
  | BinaryExpression l _ r => variables l ∪ variables r
  | UnaryExpression _ x => variables x
  | ListExpression items => union_over variables items
  | _InternalName id => {[ id ]}
  | AtomExpression raw ID => {[ raw ]}
  | AtomExpression _ _ => ∅
  | ExpressionList exprs => union_over variables exprs
  end.

Fixpoint free_variables (e : Expression) : gset string :=
  match e with
  | LetExpression ids inits body =>
      (free_variables body ∖ set_of_list ids) ∪ union_over free_variables inits
  | LambdaExpression id body => free_variables body ∖ set_of_str id
  | ConditionalExpression c t (Some a) =>
      free_variables c ∪ free_variables t ∪ free_variables a
  | ConditionalExpression c t None => free_variables c ∪ free_variables t
  | ApplicationExpression f a => free_variables f ∪ free_variables a
  | BinaryExpression l _ r => free_variables l ∪ free_variables r
  | UnaryExpression _ x => free_variables x
  | ListExpression items => union_over free_variables items
  | _InternalName id => {[ id ]}
  | AtomExpression raw ID => {[ raw ]}
  | AtomExpression _ _ => ∅
  | ExpressionList exprs => union_over free_variables exprs
  end.

Fixpoint bound_variables (e : Expression) : gset string :=
  match e with
  | LetExpression ids inits body =>
      (variables body ∩ set_of_list ids) ∪ union_over bound_variables inits
  | LambdaExpression id body => set_of_str id ∩ bound_variables body
  | ConditionalExpression c t (Some a) =>
      bound_variables c ∪ bound_variables t ∪ bound_variables a
  | ConditionalExpression c t None => bound_variables c ∪ bound_variables t
  | ApplicationExpression f a => bound_variables f ∪ bound_variables a
  | BinaryExpression l _ r => bound_variables l ∪ bound_variables r
  | UnaryExpression _ x => bound_variables x
  | ListExpression items => union_over bound_variables items
  | _InternalName _ => ∅
  | AtomExpression _ _ => ∅
  | ExpressionList exprs => union_over bound_variables exprs
  end.

(** ** Evaluation results *)

(** The first component of an [ExecutionResult]: one of the two marker
    objects [LiteralType] and [NoneType], or a class object.  The classes
    that ever appear are the seven members of [expression_types] and the
    abstract base class [Expression]. *)
Inductive ResultType :=
| LiteralType
| NoneType
| cls_LetExpression
| cls_LambdaExpression
| cls_ConditionalExpression
| cls_ApplicationExpression
| cls_BinaryExpression
| cls_UnaryExpression
| cls_AtomExpression
| cls_Expression.

#[global] Instance ResultType_eq_dec : EqDecision ResultType.
Proof. solve_decision. Defined.

(** [expression_types] and [is_expression_type]. *)
Definition is_expression_type (t : ResultType) : bool :=
  match t with
  | cls_LetExpression | cls_LambdaExpression | cls_ConditionalExpression
  | cls_ApplicationExpression | cls_BinaryExpression | cls_UnaryExpression
  | cls_AtomExpression => true
  | _ => false
  end.

(** Modelled from the spec: the runtime value classes of
    [quark.core.runtime] are not part of the sources.  A value is built
    from the raw text of its literal; an integer holds the number its
    decimal text denotes, the other literal kinds keep their text.  The
    second component of an [ExecutionResult] is such a value, Python's
    [None], a Python [bool], or an AST node. *)
Inductive PyObject :=
| PyNone
| PyBool (b : bool)
| IntegerValue (z : Z)
| RealValue (raw : string)
| ComplexValue (raw : string)
| StringValue (raw : string)
| BooleanValue (b : bool)
| PyNode (e : Expression).

(** [ExecutionResult = namedtuple('ExecutionResult', ('type', 'val'))]. *)
Record ExecutionResult := mkResult {
  res_type : ResultType;
  val : PyObject
}.

(** The two messages of a [QuarkScannerError]; the second one formats
    [repr(self._current_char)], which is [None] at the end of the source. *)
Inductive ScannerMessage :=
| leading_zeros_not_permitted
| invalid_character (current_char : option ascii).

(** The exceptions that evaluation and scanning can raise. *)
Inductive exn :=
| NotImplementedError
| TypeError
| AttributeError
| KeyError
| ValueError
| QuarkScannerError (message : ScannerMessage).

(** What a call does: it returns, raises, or is still running when the
    recursion budget of the model is used up. *)
Inductive Outcome (A : Type) :=
| Return (a : A)
| Raise (e : exn)
| OutOfFuel.
Arguments Return {A} a.
Arguments Raise {A} e.
Arguments OutOfFuel {A}.

(** Modelled from the spec: decimal text to integer, as the constructor
    of the runtime integer does with the raw text of an INTEGER literal. *)
Definition digit_value (c : ascii) : option Z :=
  let n := Z.of_nat (nat_of_ascii c) in
  if bool_decide (48 ≤ n ≤ 57)%Z then Some (n - 48)%Z else None.

Fixpoint decimal_value (acc : Z) (s : string) : option Z :=
  match s with
  | EmptyString => Some acc
  | String c s' =>
      match digit_value c with
      | Some d => decimal_value (10 * acc + d)%Z s'
      | None => None
      end
  end.

(** Modelled from the spec: the constructors of the runtime values, each
    taking the raw text of the literal ([BooleanObject] takes 0 or 1).
    Text that is no decimal numeral makes [IntegerObject] raise. *)
Definition IntegerObject (raw : string) : Outcome PyObject :=
  match raw with
  | EmptyString => Raise ValueError
  | _ => match decimal_value 0 raw with
         | Some z => Return (IntegerValue z)
         | None => Raise ValueError
         end
  end.

Definition RealObject (raw : string) : PyObject := RealValue raw.
Definition ComplexObject (raw : string) : PyObject := ComplexValue raw.
Definition StringObject (raw : string) : PyObject := StringValue raw.
Definition BooleanObject (n : Z) : PyObject := BooleanValue (negb (n =? 0)%Z).

(** The operators of the runtime values that the sources call but do not
    define: the binary operators [x + y], [x < y], ... (on anything but
    two integers under [+], [-] and [*]), and the comparison [==] that
    [ConditionalExpression.execute] makes with [BooleanObject(True)]. *)
Class RuntimeOps := {
  runtime_binary : TokenTypes → PyObject → PyObject → Outcome PyObject;
  runtime_eq : PyObject → PyObject → bool
}.

(** ** Operator tables *)

Definition map_outcome {A B} (f : A → B) (o : Outcome A) : Outcome B :=
  match o with
  | Return a => Return (f a)
  | Raise x => Raise x
  | OutOfFuel => OutOfFuel
  end.

(** [_token_unary_operation_mapping].  [UnaryExpression.execute] calls
    the selected function on [result], the [ExecutionResult] tuple of the
    operand (not on [result.val]), so the functions are given at that
    argument type: a tuple has no unary minus and no attribute [head],
    [tail] or [is_nil], and a two-element tuple is truthy. *)
Definition _token_unary_operation_mapping (t : TokenTypes)
  : option (ExecutionResult → Outcome PyObject) :=
  match t with
  | MINUS => Some (λ x, Raise TypeError)
  | HEAD => Some (λ x, Raise AttributeError)
  | TAIL => Some (λ x, Raise AttributeError)
  | NIL => Some (λ x, Raise AttributeError)
  | NOT => Some (λ x, Return (PyBool false))
  | _ => None
  end.

(** ** The evaluator *)

(** The state a call leaves behind: the [dict] and the [list] it was
    handed are mutated in place, so the caller sees them as they are when
    the call ends, whether it returned or raised. *)
Record Exec (A : Type) := mkExec {
  outcome : Outcome A;
  closure_after : gmap string Expression;
  callstack_after : option (list Expression)
}.
Arguments mkExec {A} _ _ _.
Arguments outcome {A} _.
Arguments closure_after {A} _.
Arguments callstack_after {A} _.

Section Evaluator.
Context `{RuntimeOps}.

(** Modelled from the spec: [+], [-] and [*] of two runtime integers are
    the integer operations; every other operator application is the
    runtime's own. *)
Definition integer_arith (t : TokenTypes) (op : Z → Z → Z) (x y : PyObject)
  : Outcome PyObject :=
  match x, y with
  | IntegerValue a, IntegerValue b => Return (IntegerValue (op a b))
  | _, _ => runtime_binary t x y
  end.

(** [_token_binary_operation_mapping]. *)
Definition _token_binary_operation_mapping (t : TokenTypes)
  : option (PyObject → PyObject → Outcome PyObject) :=
  match t with
  | PLUS => Some (integer_arith PLUS Z.add)
  | MINUS => Some (integer_arith MINUS Z.sub)
  | STAR => Some (integer_arith STAR Z.mul)
  | SLASH_PERCENT => Some (λ x y, Return PyNone)
  | SLASH | DOUBLE_SLASH | DOUBLE_STAR | PERCENT
  | GREATER | LESS | GREATER_EQUAL | LESS_EQUAL
  | DOUBLE_EQUAL | EXCLAMATION_EQUAL
  | AND | OR | XOR => Some (runtime_binary t)
  | _ => None
  end.

(** The binding rule, written out three times in the source
    ([AssignmentStatement], [LetExpression] and [LambdaExpression]):
    [if name in closure.keys() and name in expr.free_variables:
       closure[name] = ApplicationExpression(LambdaExpression(name, expr), closure[name])
     else: closure[name] = expr]. *)
Definition bind_name (closure : gmap string Expression) (name : string)
    (expr : Expression) : gmap string Expression :=
  match closure !! name with
  | Some previous =>
      if bool_decide (name ∈ free_variables expr)
      then <[name := ApplicationExpression (LambdaExpression name expr) previous]> closure
      else <[name := expr]> closure
  | None => <[name := expr]> closure
  end.

(** [for name, expr in zip(names, exprs): ...] with the binding rule. *)
Definition bind_all (closure : gmap string Expression) (names : list string)
    (exprs : list Expression) : gmap string Expression :=
  foldl (λ c '(name, expr), bind_name c name expr) closure (zip names exprs).

(** [if callstack:] holds for a list with at least one element; [None]
    and the empty list are both falsy. *)
Definition truthy (callstack : option (list Expression)) : bool :=
  match callstack with
  | Some (_ :: _) => true
  | _ => false
  end.

(** [execute] of every [Expression] subclass.  [closure.copy()] is the
    same map as a new object: a callee's writes to it are not seen
    through [closure].  A call without a [callstack] argument receives
    the default [None]. *)
Fixpoint execute (fuel : nat) (e : Expression) (closure : gmap string Expression)
    (callstack : option (list Expression)) : Exec ExecutionResult :=
  match fuel with
  | O => mkExec OutOfFuel closure callstack
  | S n =>
    match e with
    | LetExpression ids inits body =>
        let closure_copy := closure in
        let closure := bind_all closure ids inits in
        let r := execute n body closure_copy callstack in
        mkExec
          (map_outcome
             (λ result, if decide (res_type result = LiteralType) then result
                        else mkResult cls_LetExpression (PyNode e))
             (outcome r))
          closure (callstack_after r)
    | LambdaExpression name body =>
        match callstack with
        | Some (a :: stack) =>
            let expr := List.last (a :: stack) a in
            execute n body (bind_name closure name expr)
                    (Some (List.removelast (a :: stack)))
        | _ => execute n body closure callstack
        end
    | ConditionalExpression c t a =>
        let rc := execute n c closure None in
        match outcome rc with
        | Return condition_result =>
            if decide (res_type condition_result = LiteralType) then
              if runtime_eq (val condition_result) (BooleanObject 1) then
                let r := execute n t (closure_after rc) None in
                mkExec (outcome r) (closure_after r) callstack
              else
                match a with
                | Some alt =>
                    let r := execute n alt (closure_after rc) None in
                    mkExec (outcome r) (closure_after r) callstack
                | None => mkExec (Raise AttributeError) (closure_after rc) callstack
                end
            else
              mkExec (Return (mkResult cls_ConditionalExpression (PyNode e)))
                     (closure_after rc) callstack
        | Raise x => mkExec (Raise x) (closure_after rc) callstack
        | OutOfFuel => mkExec OutOfFuel (closure_after rc) callstack
        end
    | ApplicationExpression f arg =>
        let closure_copy := closure in
        let '(o, callstack) :=
          match callstack with
          | Some (a :: stack) =>
              let r := execute n f closure_copy (Some ((a :: stack) ++ [arg])%list) in
              (outcome r, callstack_after r)
          | _ =>
              let r := execute n f closure_copy (Some [arg]) in
              (outcome r, callstack)
          end in
        mkExec
          (map_outcome
             (λ result, if is_expression_type (res_type result)
                        then mkResult cls_ApplicationExpression (PyNode e)
                        else result)
             o)
          closure callstack
    | BinaryExpression l op r =>
        if bool_decide (free_variables e ⊆ dom closure) then
          let rl := execute n l closure None in
          match outcome rl with
          | Return left_result =>
              let rr := execute n r (closure_after rl) None in
              match outcome rr with
              | Return right_result =>
                  mkExec
                    (match _token_binary_operation_mapping (type op) with
                     | Some f => map_outcome (mkResult LiteralType)
                                   (f (val left_result) (val right_result))
                     | None => Raise KeyError
                     end)
                    (closure_after rr) callstack
              | Raise x => mkExec (Raise x) (closure_after rr) callstack
              | OutOfFuel => mkExec OutOfFuel (closure_after rr) callstack
              end
          | Raise x => mkExec (Raise x) (closure_after rl) callstack
          | OutOfFuel => mkExec OutOfFuel (closure_after rl) callstack
          end
        else mkExec (Return (mkResult cls_BinaryExpression (PyNode e))) closure callstack
    | UnaryExpression op x =>
        if bool_decide (free_variables e ⊆ dom closure) then
          let r := execute n x closure None in
          match outcome r with
          | Return result =>
              mkExec
                (match _token_unary_operation_mapping (type op) with
                 | Some f => map_outcome (mkResult LiteralType) (f result)
                 | None => Raise KeyError
                 end)
                (closure_after r) callstack
          | Raise x => mkExec (Raise x) (closure_after r) callstack
          | OutOfFuel => mkExec OutOfFuel (closure_after r) callstack
          end
        else mkExec (Return (mkResult cls_Expression (PyNode e))) closure callstack
    | ListExpression _ => mkExec (Raise NotImplementedError) closure callstack
    | _InternalName _ => mkExec (Raise NotImplementedError) closure callstack
    | AtomExpression raw INTEGER =>
        mkExec (map_outcome (mkResult LiteralType) (IntegerObject raw)) closure callstack
    | AtomExpression raw REAL =>
        mkExec (Return (mkResult LiteralType (RealObject raw))) closure callstack
    | AtomExpression raw COMPLEX =>
        mkExec (Return (mkResult LiteralType (ComplexObject raw))) closure callstack
    | AtomExpression raw STRING =>
        mkExec (Return (mkResult LiteralType (StringObject raw))) closure callstack
    | AtomExpression raw BOOLEAN =>
        mkExec (Return (mkResult LiteralType
                  (BooleanObject (if decide (raw = "true") then 1 else 0))))
               closure callstack
    | AtomExpression raw _ =>
        match closure !! raw with
        | Some expr => execute n expr closure callstack
        | None => mkExec (Return (mkResult cls_AtomExpression (PyNode e))) closure callstack
        end
    | ExpressionList _ => mkExec (Raise NotImplementedError) closure callstack
    end
  end.

(** [execute] of the statements that are not expressions, and dispatch
    to [execute] for those that are. *)
Definition Statement_execute (fuel : nat) (s : Statement)
    (closure : gmap string Expression) (callstack : option (list Expression))
  : Exec ExecutionResult :=
  match s with
  | ImportStatement _ _ => mkExec (Raise NotImplementedError) closure callstack
  | ExportStatement _ _ => mkExec (Raise NotImplementedError) closure callstack
  | AssignmentStatement identifiers expr_values =>
      mkExec (Return (mkResult NoneType PyNone))
             (bind_all closure identifiers expr_values) callstack
  | ExpressionStatement e => execute fuel e closure callstack
  end.


End Evaluator.

(** ** The scanner *)

(** The attributes of a [QuarkScanner] object.  The source text is held
    as the sequence of its characters, which is how the scanner indexes
    and slices it: one character of the model for one character of the
    Python text, so that positions and columns count the same things on
    every text that the 256 characters of [ascii] can spell. *)
Record QuarkScanner := mkScanner {
  _source : list ascii;
  _ignore_skippables : bool;
  _source_len : nat;
  _source_start : nat;
  _source_pos : nat;
  _column_pos : nat;
  _line_pos : nat
}.

(** [QuarkScanner.__init__]. *)
Definition QuarkScanner_new (source : string) (ignore_skippables : bool) : QuarkScanner :=
  {| _source := list_ascii_of_string source;
     _ignore_skippables := ignore_skippables;
     _source_len := String.length source;
     _source_start := 0; _source_pos := 0;
     _column_pos := 0; _line_pos := 0 |}.

Definition _current_pos (s : QuarkScanner) : nat * nat := (_column_pos s, _line_pos s).

(** [self._source_pos == self._source_len - off], over Python's
    integers: the difference may be negative. *)
Definition _reached_end_of_source (s : QuarkScanner) (off : nat) : bool :=
  (Z.of_nat (_source_pos s) =? Z.of_nat (_source_len s) - Z.of_nat off)%Z.

(** [self._source[a:b]]. *)
Definition slice (source : list ascii) (a b : nat) : string :=
  string_of_list_ascii (take (b - a) (drop a source)).

Definition _current_char (s : QuarkScanner) : option ascii :=
  if _reached_end_of_source s 0 then None else _source s !! _source_pos s.

Definition _current_nchars (s : QuarkScanner) (n : nat) : option string :=
  if _reached_end_of_source s (n - 1) then None
  else Some (slice (_source s) (_source_pos s) (_source_pos s + n)).

Definition _consumed_chars (s : QuarkScanner) : string :=
  slice (_source s) (_source_start s) (_source_pos s).

Definition _match (s : QuarkScanner) (str : string) : bool :=
  if _reached_end_of_source s (String.length str - 1) then false
  else bool_decide
         (slice (_source s) (_source_pos s) (_source_pos s + String.length str) = str).

Definition newline : ascii := "010"%char.

Definition _consume_char (s : QuarkScanner) : QuarkScanner :=
  if _reached_end_of_source s 0 then s
  else
    let '(column, line) :=
      if bool_decide (_current_char s = Some newline)
      then (0, _line_pos s + 1) else (_column_pos s, _line_pos s) in
    {| _source := _source s; _ignore_skippables := _ignore_skippables s;
       _source_len := _source_len s; _source_start := _source_start s;
       _source_pos := _source_pos s + 1;
       _column_pos := column + 1; _line_pos := line |}.

Fixpoint _consume_nchars (s : QuarkScanner) (n : nat) : QuarkScanner :=
  match n with
  | O => s
  | S n' => _consume_nchars (_consume_char s) n'
  end.

Definition _discard_consumed_chars (s : QuarkScanner) : QuarkScanner :=
  {| _source := _source s; _ignore_skippables := _ignore_skippables s;
     _source_len := _source_len s; _source_start := _source_pos s;
     _source_pos := _source_pos s;
     _column_pos := _column_pos s; _line_pos := _line_pos s |}.

(** Character classes.  [lo <= c <= hi] on one-character strings compares
    code points. *)
Definition char_between (lo hi c : ascii) : bool :=
  (nat_of_ascii lo <=? nat_of_ascii c)%nat && (nat_of_ascii c <=? nat_of_ascii hi)%nat.

Definition id_start_char (c : ascii) : bool :=
  char_between "A" "Z" c || char_between "a" "z" c
  || bool_decide (c = "_"%char) || (128 <=? nat_of_ascii c)%nat.

Definition id_char (c : ascii) : bool :=
  char_between "A" "Z" c || char_between "a" "z" c || char_between "0" "9" c
  || bool_decide (c = "_"%char) || (128 <=? nat_of_ascii c)%nat.

Definition num_char (c : ascii) : bool := char_between "0" "9" c.

Definition double_quote : ascii := "034"%char.

Definition str_char (c : ascii) : bool :=
  negb (bool_decide (c = double_quote)) && (nat_of_ascii c <? 128)%nat.

Definition skippable_char (c : ascii) : bool :=
  bool_decide (c = " "%char) || bool_decide (c = "009"%char).

(** The shape shared by the [_is_...] methods:
    [if self._reached_end_of_source(): return False
     else: return <test of self._current_char>]. *)
Definition test_current_char (test : ascii → bool) (s : QuarkScanner) : bool :=
  if _reached_end_of_source s 0 then false
  else match _current_char s with
       | Some c => test c
       | None => false
       end.

Definition _is_id_start : QuarkScanner → bool := test_current_char id_start_char.
Definition _is_id_char : QuarkScanner → bool := test_current_char id_char.
Definition _is_num_char : QuarkScanner → bool := test_current_char num_char.
Definition _is_str_start : QuarkScanner → bool :=
  test_current_char (λ c, bool_decide (c = double_quote)).
Definition _is_str_char : QuarkScanner → bool := test_current_char str_char.
Definition _is_skippable : QuarkScanner → bool := test_current_char skippable_char.

(** [while test(): self._consume_char()].  Every round moves the
    position one step towards the end of the source, so [budget] rounds
    are all the loop can make when [budget] is the number of characters
    left (lemma [consume_while_exit]). *)
Fixpoint consume_while (test : QuarkScanner → bool) (budget : nat) (s : QuarkScanner)
  : QuarkScanner :=
  match budget with
  | O => s
  | S n => if test s then consume_while test n (_consume_char s) else s
  end.

Definition chars_left (s : QuarkScanner) : nat := _source_len s - _source_pos s.

(** The digit loop of an integer part, which raises on a digit other
    than [0] after a leading [0]. *)
Fixpoint consume_integer_part (must_be_real_or_zero : bool) (budget : nat)
    (s : QuarkScanner) : Outcome unit * QuarkScanner :=
  match budget with
  | O => (Return tt, s)
  | S n =>
      if _is_num_char s then
        if must_be_real_or_zero && negb (_match s "0") then
          (Raise (QuarkScannerError leading_zeros_not_permitted), s)
        else consume_integer_part must_be_real_or_zero n (_consume_char s)
      else (Return tt, s)
  end.

(** Modelled from the spec: the punctuation and keyword tables of
    [quark.core.token_] are not part of the sources; they are fixed
    mappings from lexeme to token kind, taken here as given. *)
Class TokenTables := {
  single_char_tokens : gmap string TokenTypes;
  double_char_tokens : gmap string TokenTypes;
  triple_char_tokens : gmap string TokenTypes;
  keyword_tokens : gmap string TokenTypes
}.

Section Tables.
Context `{TokenTables}.

(** [x in table.keys()] where [x] may be [None]. *)
Definition in_keys (x : option string) (table : gmap string TokenTypes) : bool :=
  match x with
  | Some k => bool_decide (is_Some (table !! k))
  | None => false
  end.

(** [type_ = table[self._consumed_chars]]. *)
Definition table_lookup (table : gmap string TokenTypes) (s : QuarkScanner)
  : Outcome TokenTypes * QuarkScanner :=
  match table !! _consumed_chars s with
  | Some t => (Return t, s)
  | None => (Raise KeyError, s)
  end.

(** The [if ... elif ... else] chain of [next_token] that recognises one
    token and sets [type_]. *)
Definition scan_type (s : QuarkScanner) : Outcome TokenTypes * QuarkScanner :=
  if _is_num_char s then
    let must_be_real_or_zero := _match s "0" in
    let s := _consume_char s in
    match consume_integer_part must_be_real_or_zero (chars_left s) s with
    | (Return _, s) =>
        let '(type_, s) :=
          if _match s "." then
            let s := _consume_char s in
            (REAL, consume_while _is_num_char (chars_left s) s)
          else (INTEGER, s) in
        if _match s "im" then (Return COMPLEX, _consume_nchars s 2)
        else (Return type_, s)
    | (Raise x, s) => (Raise x, s)
    | (OutOfFuel, s) => (OutOfFuel, s)
    end
  else if _match s "." then
    let s := _consume_char s in
    if _is_num_char s then
      let s := _consume_char s in
      let s := consume_while _is_num_char (chars_left s) s in
      if _match s "im" then (Return COMPLEX, _consume_nchars s 2)
      else (Return REAL, s)
    else (Return PERIOD, s)
  else if in_keys (_current_nchars s 3) triple_char_tokens then
    table_lookup triple_char_tokens (_consume_nchars s 3)
  else if in_keys (_current_nchars s 2) double_char_tokens then
    table_lookup double_char_tokens (_consume_nchars s 2)
  else if in_keys ((λ c, String c EmptyString) <$> _current_char s) single_char_tokens then
    table_lookup single_char_tokens (_consume_char s)
  else if _is_id_start s then
    let s := _consume_char s in
    let s := consume_while _is_id_char (chars_left s) s in
    match keyword_tokens !! _consumed_chars s with
    | Some t => (Return t, s)
    | None => (Return ID, s)
    end
  else (Raise (QuarkScannerError (invalid_character (_current_char s))), s).

(** [next_token]: [None] is the end-of-input marker. *)
Definition next_token (s : QuarkScanner) : Outcome (option Token) * QuarkScanner :=
  let pos := _current_pos s in
  let finish (s : QuarkScanner) :=
    match scan_type s with
    | (Return type_, s) =>
        let ret := mkToken type_ (_consumed_chars s) pos in
        (Return (Some ret), _discard_consumed_chars s)
    | (Raise x, s) => (Raise x, s)
    | (OutOfFuel, s) => (OutOfFuel, s)
    end in
  if _is_skippable s then
    let s := _consume_char s in
    let s := consume_while _is_skippable (chars_left s) s in
    if _ignore_skippables s then
      let s := _discard_consumed_chars s in
      if _reached_end_of_source s 0 then (Return None, s)
      else finish s
    else
      let ret := _consumed_chars s in
      let s := _discard_consumed_chars s in
      (Return (Some (mkToken SKIP ret pos)), s)
  else finish s.

(** [tokens]: [while not self._reached_end_of_source():
    toks.append(self.next_token())]. *)
Fixpoint tokens_loop (budget : nat) (s : QuarkScanner) (toks : list (option Token))
  : Outcome (list (option Token)) * QuarkScanner :=
  if _reached_end_of_source s 0 then (Return toks, s)
  else
    match budget with
    | O => (OutOfFuel, s)
    | S n =>
        match next_token s with
        | (Return t, s) => tokens_loop n s (toks ++ [t])%list
        | (Raise x, s) => (Raise x, s)
        | (OutOfFuel, s) => (OutOfFuel, s)
        end
    end.

Definition tokens (s : QuarkScanner) : Outcome (list (option Token)) * QuarkScanner :=
  tokens_loop (chars_left s) s [].

End Tables.

(** * Definitions used in the statements *)

(** A runtime to run examples with: every operator application outside
    the modelled integer arithmetic raises [TypeError], and [==] holds
    between equal booleans only. *)
Definition strict_runtime : RuntimeOps :=
  {| runtime_binary := λ _ _ _, Raise TypeError;
     runtime_eq := λ x y,
       match x, y with
       | BooleanValue a, BooleanValue b => bool_decide (a = b)
       | _, _ => false
       end |}.

(** Nodes built without [LetExpression] and [LambdaExpression]. *)
Fixpoint binder_free (e : Expression) : bool :=
  match e with
  | LetExpression _ _ _ | LambdaExpression _ _ => false
  | ConditionalExpression c t a =>
      binder_free c && binder_free t
      && match a with Some alt => binder_free alt | None => true end
  | ApplicationExpression f a => binder_free f && binder_free a
  | BinaryExpression l _ r => binder_free l && binder_free r
  | UnaryExpression _ x => binder_free x
  | ListExpression items => forallb binder_free items
  | _InternalName _ | AtomExpression _ _ => true
  | ExpressionList exprs => forallb binder_free exprs
  end.

(** The positions of a node that [execute] runs in the very environment
    it was handed: a [LetExpression] writes its bindings there, so a node
    qualifies when none of these positions holds one.  An application
    runs its function in a copy and the list nodes raise before running
    anything, so what is below them does not count. *)
Fixpoint no_let_in_place (e : Expression) : bool :=
  match e with
  | LetExpression _ _ _ => false
  | LambdaExpression _ body => no_let_in_place body
  | ConditionalExpression c t a =>
      no_let_in_place c && no_let_in_place t
      && match a with Some alt => no_let_in_place alt | None => true end
  | ApplicationExpression _ _ => true
  | BinaryExpression l _ r => no_let_in_place l && no_let_in_place r
  | UnaryExpression _ x => no_let_in_place x
  | ListExpression _ | _InternalName _ | AtomExpression _ _ | ExpressionList _ => true
  end.

(** No entry of the environment has a [LetExpression] that would run in
    place. *)
Definition closure_no_let_in_place (closure : gmap string Expression) : Prop :=
  map_Forall (λ _ expr, no_let_in_place expr = true) closure.

(** [k] digits [0]. *)
Definition zeros (k : nat) : string := string_of_list_ascii (replicate k "0"%char).

(** The length attribute is the length of the text and the position is
    inside it; true of a new scanner and kept by every method. *)
Definition wf (s : QuarkScanner) : Prop :=
  _source_len s = length (_source s) ∧ _source_pos s ≤ _source_len s.

(** The text ["abcd"] with its two quotes. *)
Definition quoted_abcd : string :=
  String double_quote ("abcd" ++ String double_quote EmptyString)%string.

(** A scanner with no punctuation and no keywords, to run examples with. *)
Definition no_tables : TokenTables :=
  {| single_char_tokens := ∅; double_char_tokens := ∅;
     triple_char_tokens := ∅; keyword_tokens := ∅ |}.

(** A small set of tables to run examples with. *)
Definition sample_tables : TokenTables :=
  {| single_char_tokens := {[ "<" := LESS; ">" := GREATER; "+" := PLUS ]};
     double_char_tokens := {[ "<=" := LESS_EQUAL ]};
     triple_char_tokens := ∅;
     keyword_tokens := {[ "not" := NOT ]} |}.

(** The character just before the position is not a blank. *)
Definition solid (s : QuarkScanner) : Prop :=
  ∃ c, 1 ≤ _source_pos s
       ∧ _source s !! (_source_pos s - 1) = Some c
       ∧ skippable_char c = false.

(** [s'] is [s] further along the same text. *)
Definition extends (s s' : QuarkScanner) : Prop :=
  _source s' = _source s
  ∧ _source_len s' = _source_len s
  ∧ _ignore_skippables s' = _ignore_skippables s
  ∧ _source_pos s ≤ _source_pos s'.

Definition keeps (s s' : QuarkScanner) : Prop := wf s' ∧ extends s s' ∧ solid s'.

(** No lexeme of the two- and three-character punctuation tables holds a
    space or a tab. *)
Definition blank_free_punctuation `{TokenTables} : Prop :=
  ∀ k, is_Some (double_char_tokens !! k) ∨ is_Some (triple_char_tokens !! k) →
       ∀ c, c ∈ list_ascii_of_string k → skippable_char c = false.

(** The keys of [_token_binary_operation_mapping]. *)
Definition binary_operator_kinds : list TokenTypes :=
  [PLUS; MINUS; STAR; SLASH; DOUBLE_SLASH; DOUBLE_STAR; PERCENT; SLASH_PERCENT;
   GREATER; LESS; GREATER_EQUAL; LESS_EQUAL; DOUBLE_EQUAL; EXCLAMATION_EQUAL;
   AND; OR; XOR].

(** What [ApplicationExpression.execute] makes of the result of its
    function: a result tagged with one of [expression_types] is replaced
    by the application itself, any other is handed on. *)
Definition application_result (node : Expression) (result : ExecutionResult)
  : ExecutionResult :=
  if is_expression_type (res_type result)
  then mkResult cls_ApplicationExpression (PyNode node)
  else result.

(** The lexemes of a list of tokens, joined in order. *)
Definition lexemes (toks : list Token) : string :=
  foldr (λ tok rest, (raw tok ++ rest)%string) EmptyString toks.

(** Nothing is consumed that is not yet discarded: the state between two
    calls of [next_token]. *)
Definition fresh (s : QuarkScanner) : Prop := _source_start s = _source_pos s.

(** [s'] is [s] further along the same text, with the same start of the
    consumed characters. *)
Definition steady (s s' : QuarkScanner) : Prop :=
  wf s' ∧ extends s s' ∧ _source_start s' = _source_start s.

(** The scanner [k] characters further on one line. *)
Definition advance_by (s : QuarkScanner) (k : nat) : QuarkScanner :=
  {| _source := _source s; _ignore_skippables := _ignore_skippables s;
     _source_len := _source_len s; _source_start := _source_start s;
     _source_pos := _source_pos s + k;
     _column_pos := _column_pos s + k; _line_pos := _line_pos s |}.

(** The last lines of [next_token], from the [if ... elif] chain to the
    [return]: one token is recognised and built with the position [pos]
    that was taken when the call began. *)
Definition emit `{TokenTables} (pos : nat * nat) (s : QuarkScanner)
  : Outcome (option Token) * QuarkScanner :=
  match scan_type s with
  | (Return type_, s) =>
      (Return (Some (mkToken type_ (_consumed_chars s) pos)), _discard_consumed_chars s)
  | (Raise x, s) => (Raise x, s)
  | (OutOfFuel, s) => (OutOfFuel, s)
  end.

(** The text of a numeric literal: an integer part, an optional period
    with further digits, an optional [im]; and the kind the scanner gives
    it. *)
Definition numeric_text (int_part : list ascii) (frac : option (list ascii))
    (im : bool) : list ascii :=
  int_part
  ++ match frac with Some digits => "."%char :: digits | None => [] end
  ++ (if im then ["i"%char; "m"%char] else []).

Definition numeric_type (frac : option (list ascii)) (im : bool) : TokenTypes :=
  if im then COMPLEX
  else match frac with Some _ => REAL | None => INTEGER end.

(** No punctuation lexeme begins with a character that can begin an
    identifier. *)
Definition punctuation_not_identifier `{TokenTables} : Prop :=
  ∀ k, is_Some (single_char_tokens !! k) ∨ is_Some (double_char_tokens !! k)
       ∨ is_Some (triple_char_tokens !! k) →
       ∀ c, head (list_ascii_of_string k) = Some c → id_start_char c = false.

(** The kind of an identifier-shaped lexeme: its entry in the keyword
    table, else ID. *)
Definition word_type `{TokenTables} (word : string) : TokenTypes :=
  match keyword_tokens !! word with
  | Some t => t
  | None => ID
  end.

(** Whether a text goes on with [im]. *)
Definition starts_with_im (text : list ascii) : bool :=
  match text with
  | c1 :: c2 :: _ => bool_decide (c1 = "i"%char) && bool_decide (c2 = "m"%char)
  | _ => false
  end.

(** The token that begins with a period, by the digits after the period
    and what follows them: the period alone where no digit follows, else
    a fraction, complex where [im] follows the digits. *)
Definition period_suffix (digits rest : list ascii) : list ascii :=
  match digits with
  | [] => []
  | _ :: _ => if starts_with_im rest then ["i"%char; "m"%char] else []
  end.

Definition period_type (digits rest : list ascii) : TokenTypes :=
  match digits with
  | [] => PERIOD
  | _ :: _ => if starts_with_im rest then COMPLEX else REAL
  end.

(** No lexeme of the punctuation tables begins with the character [c]. *)
Definition begins_no_punctuation `{TokenTables} (c : ascii) : Prop :=
  ∀ k, is_Some (single_char_tokens !! k) ∨ is_Some (double_char_tokens !! k)
       ∨ is_Some (triple_char_tokens !! k) →
       ∀ a, head (list_ascii_of_string k) = Some a → a = c → False.

(** Line and column of the place just after a text, counted from the
    text alone: the line is the number of line breaks; the column is the
    number of characters on the first line, and one more than the number
    of characters after the last line break on every later line. *)
Definition line_of (text : list ascii) : nat := count_occ Ascii.ascii_dec text newline.

Fixpoint since_newline (reversed : list ascii) : nat :=
  match reversed with
  | [] => 0
  | c :: reversed' => if bool_decide (c = newline) then 0 else S (since_newline reversed')
  end.

Definition column_of (text : list ascii) : nat :=
  if bool_decide (line_of text = 0) then length text
  else S (since_newline (reverse text)).

Definition position_of (text : list ascii) : nat * nat := (column_of text, line_of text).

(** The column and line attributes are those of the text before the
    position. *)
Definition located (s : QuarkScanner) : Prop :=
  (_column_pos s, _line_pos s) = position_of (take (_source_pos s) (_source s)).

(** [s'] is [s] after some calls of [_consume_char]. *)
Definition reaches (s s' : QuarkScanner) : Prop :=
  ∃ k, s' = Nat.iter k _consume_char s.

(** A text without its blanks. *)
Definition solid_char (c : ascii) : bool := negb (skippable_char c).

Definition without_blanks (text : list ascii) : list ascii := List.filter solid_char text.

(** [s'] is [s] further along the same text, all the characters between
    the two positions passing the test [q]. *)
Definition consumes (q : ascii → bool) (s s' : QuarkScanner) : Prop :=
  steady s s'
  ∧ Forall (λ c, q c = true)
      (take (_source_pos s' - _source_pos s) (drop (_source_pos s) (_source s))).

(** The lexeme of what [next_token] returns; the end-of-input marker has
    none. *)
Definition lexeme_of (t : option Token) : string :=
  match t with
  | Some tok => raw tok
  | None => EmptyString
  end.

(** The tag under which [execute] hands back a node it did not evaluate:
    the class of the node, except that a [UnaryExpression] is tagged
    with the base class [Expression].  A [LambdaExpression], a
    [ListExpression], an [_InternalName] and an [ExpressionList] are
    never handed back. *)
Definition stuck_tag (node : Expression) : option ResultType :=
  match node with
  | LetExpression _ _ _ => Some cls_LetExpression
  | ConditionalExpression _ _ _ => Some cls_ConditionalExpression
  | ApplicationExpression _ _ => Some cls_ApplicationExpression
  | BinaryExpression _ _ _ => Some cls_BinaryExpression
  | UnaryExpression _ _ => Some cls_Expression
  | AtomExpression _ _ => Some cls_AtomExpression
  | _ => None
  end.

(** What [execute] of an expression hands back when it returns: a result
    tagged [LiteralType], or an AST node under the tag [stuck_tag] gives
    it. *)
Definition literal_or_node (result : ExecutionResult) : Prop :=
  res_type result = LiteralType
  ∨ ∃ node, val result = PyNode node ∧ stuck_tag node = Some (res_type result).

(** A text of ASCII characters only. *)
Definition ascii_text (text : string) : Prop :=
  Forall (λ c, nat_of_ascii c < 128) (list_ascii_of_string text).

(** * Properties of the scope queries *)

(** C2, at the failing input [LambdaExpression("x", AtomExpression("x", ID))]:
    [variables] is [{x}], but [free_variables] removes [x] and
    [bound_variables] intersects with the body's bound variables, which
    are empty, so the union of the two is empty and differs from
    [variables]. *)
Theorem lambda_variables_not_free_union_bound :
  let node := LambdaExpression "x" (AtomExpression "x" ID) in
  variables node = {[ "x" ]} ∧
  free_variables node = ∅ ∧
  bound_variables node = ∅ ∧
  variables node ≠ free_variables node ∪ bound_variables node.
Proof.
  cbn zeta. assert (Hfree : free_variables (LambdaExpression "x" (AtomExpression "x" ID)) = ∅).
  { simpl. set_solver. }
  assert (Hbound : bound_variables (LambdaExpression "x" (AtomExpression "x" ID)) = ∅).
  { simpl. set_solver. }
  rewrite Hfree, Hbound. repeat split; try reflexivity.
  simpl. intros Heq. assert (Hin : "x" ∈ ({[ "x" ]} : gset string)) by set_solver.
  rewrite Heq in Hin. set_solver.
Qed.

(** Induction over nodes that also reaches the nodes held in lists. *)
Section ExpressionInduction.
Variable P : Expression → Prop.
Hypothesis HLet : ∀ ids inits body,
  Forall P inits → P body → P (LetExpression ids inits body).
Hypothesis HLambda : ∀ id body, P body → P (LambdaExpression id body).
Hypothesis HConditional : ∀ c t a,
  P c → P t → (∀ alt, a = Some alt → P alt) → P (ConditionalExpression c t a).
Hypothesis HApplication : ∀ f a, P f → P a → P (ApplicationExpression f a).
Hypothesis HBinary : ∀ l op r, P l → P r → P (BinaryExpression l op r).
Hypothesis HUnary : ∀ op x, P x → P (UnaryExpression op x).
Hypothesis HList : ∀ items, Forall P items → P (ListExpression items).
Hypothesis HName : ∀ id, P (_InternalName id).
Hypothesis HAtom : ∀ raw type_, P (AtomExpression raw type_).
Hypothesis HExpressionList : ∀ exprs, Forall P exprs → P (ExpressionList exprs).

Lemma Expression_nested_ind : ∀ e, P e.
Proof.
  fix IH 1. intros e.
  destruct e as [ids inits body | id body | c t a | f a | l op r | op x
                | items | id | raw ty | exprs].
  - apply HLet; [| apply IH].
    induction inits as [| i inits IHinits]; constructor; [apply IH | exact IHinits].
  - apply HLambda, IH.
  - destruct a as [alt |]; apply HConditional; try apply IH.
    + intros alt' [= <-]. apply IH.
    + intros alt' [=].
  - apply HApplication; apply IH.
  - apply HBinary; apply IH.
  - apply HUnary, IH.
  - apply HList.
    induction items as [| i items IHitems]; constructor; [apply IH | exact IHitems].
  - apply HName.
  - apply HAtom.
  - apply HExpressionList.
    induction exprs as [| i exprs IHexprs]; constructor; [apply IH | exact IHexprs].
Qed.

End ExpressionInduction.

Lemma elem_of_union_over {A} (f : A → gset string) (items : list A) (x : string) :
  x ∈ union_over f items ↔ ∃ item, item ∈ items ∧ x ∈ f item.
Proof.
  unfold union_over.
  assert (Hgen : ∀ acc, x ∈ foldl (λ ret item, ret ∪ f item) acc items
                        ↔ x ∈ acc ∨ ∃ item, item ∈ items ∧ x ∈ f item).
  { induction items as [| a items IH]; intros acc; cbn [foldl].
    - split; [auto |]. intros [Hx | (item & Hin & _)]; [exact Hx |].
      by apply not_elem_of_nil in Hin.
    - rewrite IH, elem_of_union. split.
      + intros [[Hx | Hx] | (item & Hin & Hx)]; [auto | |].
        * right. exists a. split; [apply list_elem_of_here | exact Hx].
        * right. exists item. split; [apply list_elem_of_further, Hin | exact Hx].
      + intros [Hx | (item & Hin & Hx)]; [auto |].
        apply elem_of_cons in Hin as [-> | Hin]; [auto |].
        right. exists item. auto. }
  rewrite Hgen. split; [| auto]. intros [Hx | Hx]; [| exact Hx].
  by apply not_elem_of_empty in Hx.
Qed.

(** What does hold for every node: a free or bound variable is a
    variable. *)
Lemma free_bound_subseteq_variables (e : Expression) :
  free_variables e ∪ bound_variables e ⊆ variables e.
Proof.
  induction e as [ids inits body IHinits IHbody | id body IHbody
                 | c t a IHc IHt IHa | f a IHf IHa | l op r IHl IHr | op x IHx
                 | items IHitems | id | raw ty | exprs IHexprs]
    using Expression_nested_ind; cbn [free_variables bound_variables variables].
  - rewrite Forall_forall in IHinits. intros x.
    rewrite !elem_of_union, elem_of_difference, elem_of_intersection,
      !elem_of_union_over.
    intros [[[Hx _] | (i & Hi & Hx)] | [[Hx _] | (i & Hi & Hx)]].
    + right. apply IHbody. set_solver.
    + left. exists i. split; [exact Hi |]. apply (IHinits i Hi). set_solver.
    + right. exact Hx.
    + left. exists i. split; [exact Hi |]. apply (IHinits i Hi). set_solver.
  - set_solver.
  - destruct a as [alt |]; [pose proof (IHa alt eq_refl) |]; set_solver.
  - set_solver.
  - set_solver.
  - set_solver.
  - rewrite Forall_forall in IHitems. intros x.
    rewrite elem_of_union, !elem_of_union_over.
    intros [(i & Hi & Hx) | (i & Hi & Hx)]; exists i; (split; [exact Hi |]);
      apply (IHitems i Hi); set_solver.
  - set_solver.
  - destruct ty; set_solver.
  - rewrite Forall_forall in IHexprs. intros x.
    rewrite elem_of_union, !elem_of_union_over.
    intros [(i & Hi & Hx) | (i & Hi & Hx)]; exists i; (split; [exact Hi |]);
      apply (IHexprs i Hi); set_solver.
Qed.

(** Where no binder occurs the three queries do agree. *)
Lemma binder_free_variables_union (e : Expression) :
  binder_free e = true →
  variables e = free_variables e ∪ bound_variables e.
Proof.
  intros Hfree. apply set_eq. intros x. split;
    [| apply free_bound_subseteq_variables].
  revert Hfree x.
  induction e as [ids inits body IHinits IHbody | id body IHbody
                 | c t a IHc IHt IHa | f a IHf IHa | l op r IHl IHr | op x' IHx
                 | items IHitems | id | raw ty | exprs IHexprs]
    using Expression_nested_ind;
    cbn [binder_free free_variables bound_variables variables]; intros Hfree x.
  - discriminate.
  - discriminate.
  - apply andb_prop in Hfree as [Hfree Ha]. apply andb_prop in Hfree as [Hc Ht].
    specialize (IHc Hc). specialize (IHt Ht).
    destruct a as [alt |]; [pose proof (IHa alt eq_refl Ha) |]; set_solver.
  - apply andb_prop in Hfree as [Hf Ha]. specialize (IHf Hf). specialize (IHa Ha).
    set_solver.
  - apply andb_prop in Hfree as [Hl Hr]. specialize (IHl Hl). specialize (IHr Hr).
    set_solver.
  - specialize (IHx Hfree). set_solver.
  - rewrite Forall_forall in IHitems. rewrite forallb_forall in Hfree.
    rewrite elem_of_union, !elem_of_union_over. intros (i & Hi & Hx).
    assert (Hb : binder_free i = true) by (apply Hfree, list_elem_of_In, Hi).
    pose proof (IHitems i Hi Hb x Hx) as Hu. apply elem_of_union in Hu as [Hu | Hu];
      [left | right]; exists i; auto.
  - set_solver.
  - destruct ty; set_solver.
  - rewrite Forall_forall in IHexprs. rewrite forallb_forall in Hfree.
    rewrite elem_of_union, !elem_of_union_over. intros (i & Hi & Hx).
    assert (Hb : binder_free i = true) by (apply Hfree, list_elem_of_In, Hi).
    pose proof (IHexprs i Hi Hb x Hx) as Hu. apply elem_of_union in Hu as [Hu | Hu];
      [left | right]; exists i; auto.
Qed.

(** The same failure for a [LetExpression] whose body binds a name the
    outer [let] does not: [let x = 2 in (let y = 1 in y)]. *)
Lemma let_variables_not_free_union_bound :
  let inner := LetExpression ["y"] [AtomExpression "1" INTEGER] (AtomExpression "y" ID) in
  let node := LetExpression ["x"] [AtomExpression "2" INTEGER] inner in
  "y" ∈ variables node ∧ "y" ∉ free_variables node ∪ bound_variables node.
Proof.
  cbn zeta. split; apply (bool_decide_unpack _); vm_compute; reflexivity.
Qed.

(** C3, at the failing input [LambdaExpression("foo", AtomExpression("foo", ID))]:
    [set(self.binding_identifier)] is the set of the characters of the
    identifier, [{f, o}], so the identifier [foo] itself is not removed
    and is a free variable of the lambda. *)
Theorem lambda_free_variables_keep_long_identifier :
  set_of_str "foo" = {[ "f"; "o" ]} ∧
  "foo" ∈ free_variables (LambdaExpression "foo" (AtomExpression "foo" ID)).
Proof.
  split.
  - simpl. set_solver.
  - simpl. set_solver.
Qed.

(** For an identifier of one character the binder is removed. *)
Lemma lambda_free_variables_one_char (c : ascii) (body : Expression) :
  String c EmptyString ∉ free_variables (LambdaExpression (String c EmptyString) body).
Proof.
  simpl. rewrite elem_of_difference. intros [_ Hout]. apply Hout.
  apply elem_of_union_l, elem_of_singleton. reflexivity.
Qed.

(** * Properties of evaluation *)

Section EvaluatorProperties.
Context `{RuntimeOps}.

Lemma execute_atom_integer fuel raw closure callstack :
  execute (S fuel) (AtomExpression raw INTEGER) closure callstack
  = mkExec (map_outcome (mkResult LiteralType) (IntegerObject raw)) closure callstack.
Proof. reflexivity. Qed.

Lemma execute_atom_id_bound fuel raw expr closure callstack :
  closure !! raw = Some expr →
  execute (S fuel) (AtomExpression raw ID) closure callstack
  = execute fuel expr closure callstack.
Proof. intros Hb. simpl. rewrite Hb. reflexivity. Qed.

Lemma execute_atom_id_unbound fuel raw closure callstack :
  closure !! raw = None →
  execute (S fuel) (AtomExpression raw ID) closure callstack
  = mkExec (Return (mkResult cls_AtomExpression (PyNode (AtomExpression raw ID))))
           closure callstack.
Proof. intros Hb. simpl. rewrite Hb. reflexivity. Qed.

Lemma execute_binary_stuck fuel l op r closure callstack :
  ¬ free_variables (BinaryExpression l op r) ⊆ dom closure →
  execute (S fuel) (BinaryExpression l op r) closure callstack
  = mkExec (Return (mkResult cls_BinaryExpression (PyNode (BinaryExpression l op r))))
           closure callstack.
Proof.
  intros Hopen. cbn [execute]. rewrite bool_decide_eq_false_2 by exact Hopen. reflexivity.
Qed.

Lemma execute_binary_closed fuel l op r closure callstack :
  free_variables (BinaryExpression l op r) ⊆ dom closure →
  execute (S fuel) (BinaryExpression l op r) closure callstack
  = let rl := execute fuel l closure None in
    match outcome rl with
    | Return left_result =>
        let rr := execute fuel r (closure_after rl) None in
        match outcome rr with
        | Return right_result =>
            mkExec
              (match _token_binary_operation_mapping (type op) with
               | Some f => map_outcome (mkResult LiteralType)
                             (f (val left_result) (val right_result))
               | None => Raise KeyError
               end)
              (closure_after rr) callstack
        | Raise x => mkExec (Raise x) (closure_after rr) callstack
        | OutOfFuel => mkExec OutOfFuel (closure_after rr) callstack
        end
    | Raise x => mkExec (Raise x) (closure_after rl) callstack
    | OutOfFuel => mkExec OutOfFuel (closure_after rl) callstack
    end.
Proof.
  intros Hclosed. cbn [execute]. rewrite bool_decide_eq_true_2 by exact Hclosed. reflexivity.
Qed.

(** C8: [x + 1] is stuck, tagged [BinaryExpression] and carrying the node
    itself, where [x] is unbound; where [x] is bound to the literal
    expression [1] it evaluates to the literal integer 2.  Neither run
    changes the environment. *)
Theorem execute_x_plus_1 (op : Token) (closure : gmap string Expression)
    (callstack : option (list Expression)) (fuel : nat) :
  type op = PLUS →
  let node := BinaryExpression (AtomExpression "x" ID) op (AtomExpression "1" INTEGER) in
  (closure !! "x" = None →
   execute (S fuel) node closure callstack
   = mkExec (Return (mkResult cls_BinaryExpression (PyNode node))) closure callstack)
  ∧
  (closure !! "x" = Some (AtomExpression "1" INTEGER) →
   execute (3 + fuel) node closure callstack
   = mkExec (Return (mkResult LiteralType (IntegerValue 2))) closure callstack).
Proof.
  intros Hop node. split; intros Hx.
  - apply execute_binary_stuck. simpl. intros Hsub.
    assert (Hin : "x" ∈ dom closure) by (apply Hsub; set_solver).
    apply elem_of_dom in Hin. rewrite Hx in Hin. destruct Hin as [? ?]. discriminate.
  - unfold node. change (3 + fuel) with (S (S (S fuel))).
    rewrite execute_binary_closed.
    + rewrite (execute_atom_id_bound _ _ _ _ _ Hx).
      rewrite !execute_atom_integer. cbn. rewrite Hop. reflexivity.
    + simpl. intros y Hy. apply elem_of_dom.
      apply elem_of_union in Hy as [Hy | Hy]; [| by apply not_elem_of_empty in Hy].
      apply elem_of_singleton in Hy as ->. rewrite Hx. eauto.
Qed.




(** C7: with [x] bound to the literal expression [1], executing
    [x = x + 1] returns the no-value result for any recursion budget and
    leaves [x] bound to the application of [\ x. x + 1] to the previous
    entry. *)
Theorem assignment_self_reference (op : Token) (closure : gmap string Expression)
    (callstack : option (list Expression)) (fuel : nat) :
  closure !! "x" = Some (AtomExpression "1" INTEGER) →
  let x_plus_1 := BinaryExpression (AtomExpression "x" ID) op (AtomExpression "1" INTEGER) in
  Statement_execute fuel (AssignmentStatement ["x"] [x_plus_1]) closure callstack
  = mkExec (Return (mkResult NoneType PyNone))
           (<["x" := ApplicationExpression (LambdaExpression "x" x_plus_1)
                       (AtomExpression "1" INTEGER)]> closure)
           callstack.
Proof.
  intros Hx x_plus_1. unfold Statement_execute, bind_all. cbn [zip zip_with foldl].
  unfold bind_name. rewrite Hx.
  rewrite bool_decide_eq_true_2; [reflexivity |].
  unfold x_plus_1. cbn [free_variables]. set_solver.
Qed.

(** The nodes whose evaluation is not defined raise [NotImplementedError]. *)
Lemma execute_unsupported_expressions fuel closure callstack :
  (∀ items, execute (S fuel) (ListExpression items) closure callstack
            = mkExec (Raise NotImplementedError) closure callstack)
  ∧ (∀ exprs, execute (S fuel) (ExpressionList exprs) closure callstack
              = mkExec (Raise NotImplementedError) closure callstack)
  ∧ (∀ id, execute (S fuel) (_InternalName id) closure callstack
           = mkExec (Raise NotImplementedError) closure callstack).
Proof. repeat split. Qed.

(** C9, as the code has it: the five node kinds without an evaluation
    raise [NotImplementedError] in every environment and with every
    stack; the operator [SLASH_PERCENT] is mapped to a function that
    returns [None], so a closed binary expression with that operator
    whose two operands return yields the literal-tagged result [None]. *)
Theorem unsupported_nodes_raise_and_slash_percent_is_none
    (fuel : nat) (closure : gmap string Expression)
    (callstack : option (list Expression)) :
  (∀ packages aliases,
     outcome (Statement_execute fuel (ImportStatement packages aliases) closure callstack)
     = Raise NotImplementedError)
  ∧ (∀ packages aliases,
       outcome (Statement_execute fuel (ExportStatement packages aliases) closure callstack)
       = Raise NotImplementedError)
  ∧ (∀ items, outcome (execute (S fuel) (ListExpression items) closure callstack)
              = Raise NotImplementedError)
  ∧ (∀ exprs, outcome (execute (S fuel) (ExpressionList exprs) closure callstack)
              = Raise NotImplementedError)
  ∧ (∀ id, outcome (execute (S fuel) (_InternalName id) closure callstack)
           = Raise NotImplementedError)
  ∧ (∀ l op r left_result right_result,
       type op = SLASH_PERCENT →
       free_variables (BinaryExpression l op r) ⊆ dom closure →
       outcome (execute fuel l closure None) = Return left_result →
       outcome (execute fuel r (closure_after (execute fuel l closure None)) None)
       = Return right_result →
       outcome (execute (S fuel) (BinaryExpression l op r) closure callstack)
       = Return (mkResult LiteralType PyNone)).
Proof.
  repeat split.
  intros l op r left_result right_result Hop Hclosed Hl Hr.
  rewrite execute_binary_closed by exact Hclosed.
  cbn zeta. rewrite Hl, Hr, Hop. reflexivity.
Qed.

(** C4, at the failing inputs.  A closed [- 1] raises [TypeError]: the
    operator function is applied to the operand's [ExecutionResult]
    tuple, not to its value.  An open [- x] is stuck with the tag
    [Expression], the abstract base class, not [UnaryExpression]. *)
Theorem unary_minus_raises_and_stuck_tag_is_base_class (op : Token)
    (callstack : option (list Expression)) (fuel : nat) :
  type op = MINUS →
  execute (2 + fuel) (UnaryExpression op (AtomExpression "1" INTEGER)) ∅ callstack
  = mkExec (Raise TypeError) ∅ callstack
  ∧
  execute (1 + fuel) (UnaryExpression op (AtomExpression "x" ID)) ∅ callstack
  = mkExec (Return (mkResult cls_Expression
                      (PyNode (UnaryExpression op (AtomExpression "x" ID)))))
           ∅ callstack.
Proof.
  intros Hop. split.
  - cbn [execute Nat.add free_variables]. rewrite bool_decide_eq_true_2 by set_solver.
    cbn. rewrite Hop. reflexivity.
  - cbn [execute Nat.add free_variables]. rewrite bool_decide_eq_false_2; [reflexivity |].
    rewrite dom_empty_L. set_solver.
Qed.

(** X4: no operator of the unary table yields a value when the operand is
    closed: whatever the operand returns, the result is an exception for
    [MINUS], [HEAD], [TAIL] and [NIL], a missing-key error outside the
    table, and the Python [False] for [NOT]. *)
Lemma execute_unary_closed op x closure callstack fuel result :
  free_variables (UnaryExpression op x) ⊆ dom closure →
  outcome (execute fuel x closure None) = Return result →
  outcome (execute (S fuel) (UnaryExpression op x) closure callstack)
  = match type op with
    | MINUS => Raise TypeError
    | HEAD | TAIL | NIL => Raise AttributeError
    | NOT => Return (mkResult LiteralType (PyBool false))
    | _ => Raise KeyError
    end.
Proof.
  intros Hclosed Hx. cbn [execute]. rewrite bool_decide_eq_true_2 by exact Hclosed.
  rewrite Hx. cbn [outcome]. destruct (type op); reflexivity.
Qed.


Lemma execute_frame fuel :
  ∀ e closure callstack,
    truthy callstack = false →
    no_let_in_place e = true →
    closure_no_let_in_place closure →
    closure_after (execute fuel e closure callstack) = closure.
Proof.
  induction fuel as [| n IH]; intros e closure callstack Hstack He Hclosure;
    [reflexivity |].
  destruct e as [ids inits body | name body | c t a | f arg | l op r | op x
                | items | id | raw ty | exprs]; cbn [no_let_in_place] in He.
  - discriminate.
  - cbn [execute]. destruct callstack as [[| a stack] |]; try discriminate;
      apply IH; auto.
  - apply andb_prop in He as [He Ha]. apply andb_prop in He as [Hc Ht].
    cbn [execute].
    pose proof (IH c closure None eq_refl Hc Hclosure) as Hrc.
    destruct (outcome (execute n c closure None)) as [cr | x |];
      cbn [closure_after]; try exact Hrc.
    destruct (decide (res_type cr = LiteralType)); cbn [closure_after]; try exact Hrc.
    destruct (runtime_eq (val cr) (BooleanObject 1)).
    + cbn [closure_after]. rewrite Hrc. apply IH; auto.
    + destruct a as [alt |]; cbn [closure_after]; try exact Hrc.
      rewrite Hrc. apply IH; auto.
  - cbn [execute]. destruct callstack as [[| a stack] |]; reflexivity.
  - apply andb_prop in He as [Hl Hr]. cbn [execute].
    destruct (bool_decide _); [| reflexivity].
    pose proof (IH l closure None eq_refl Hl Hclosure) as Hrl.
    destruct (outcome (execute n l closure None)) as [lr | x |];
      cbn [closure_after]; try exact Hrl.
    rewrite Hrl.
    pose proof (IH r closure None eq_refl Hr Hclosure) as Hrr.
    destruct (outcome (execute n r closure None)) as [rr | x |];
      cbn [closure_after]; exact Hrr.
  - cbn [execute]. destruct (bool_decide _); [| reflexivity].
    pose proof (IH x closure None eq_refl He Hclosure) as Hr.
    destruct (outcome (execute n x closure None)) as [r | y |];
      cbn [closure_after]; exact Hr.
  - reflexivity.
  - reflexivity.
  - destruct ty; try reflexivity; cbn [execute];
      destruct (closure !! raw) as [expr |] eqn:Hb; try reflexivity;
      apply IH; eauto.
  - reflexivity.
Qed.

Lemma execute_application_frame fuel f arg closure callstack :
  closure_after (execute fuel (ApplicationExpression f arg) closure callstack) = closure.
Proof.
  destruct fuel as [| n]; [reflexivity |].
  cbn [execute]. destruct callstack as [[| a stack] |]; reflexivity.
Qed.

(** C1, as the code has it.  An application runs its function in a copy,
    so it never changes the environment it was handed, whatever the
    pending-argument stack.  With an empty or absent stack no lambda
    binds, and then no expression changes the environment, provided no
    [LetExpression] is run in place, neither in the node nor in an entry
    of the environment; this holds whether the call returns, raises or
    is cut off.  A lambda that finds a pending argument binds it in the
    environment it was handed and runs its body there, and an assignment
    leaves its bindings in the caller's environment. *)
Theorem execute_leaves_closure_unchanged (fuel : nat)
    (closure : gmap string Expression) (callstack : option (list Expression)) :
  (∀ f arg,
     closure_after (execute fuel (ApplicationExpression f arg) closure callstack)
     = closure)
  ∧
  (∀ e,
     truthy callstack = false →
     no_let_in_place e = true →
     map_Forall (λ _ expr, no_let_in_place expr = true) closure →
     closure_after (execute fuel e closure callstack) = closure)
  ∧
  (∀ name body stack arg,
     execute (S fuel) (LambdaExpression name body) closure (Some (stack ++ [arg]))
     = execute fuel body (bind_name closure name arg) (Some stack))
  ∧
  (∀ identifiers expr_values,
     closure_after
       (Statement_execute fuel (AssignmentStatement identifiers expr_values)
          closure callstack)
     = bind_all closure identifiers expr_values).
Proof.
  split; [| split; [| split]].
  - intros f arg. apply execute_application_frame.
  - intros e Hstack He Hclosure. apply execute_frame; assumption.
  - intros name body stack arg. cbn [execute].
    destruct (stack ++ [arg]) as [| a rest] eqn:Hs.
    { by apply app_eq_nil in Hs as [_ ?]. }
    rewrite <- Hs, last_last, removelast_last. reflexivity.
  - reflexivity.
Qed.

End EvaluatorProperties.

(** ** Runs on concrete inputs *)

Lemma execute_x_plus_1_witness :
  let op := mkToken PLUS "+" (0, 0) in
  let node := BinaryExpression (AtomExpression "x" ID) op (AtomExpression "1" INTEGER) in
  @execute strict_runtime 1 node ∅ None
  = mkExec (Return (mkResult cls_BinaryExpression (PyNode node))) ∅ None
  ∧
  @execute strict_runtime 3 node {[ "x" := AtomExpression "1" INTEGER ]} None
  = mkExec (Return (mkResult LiteralType (IntegerValue 2)))
           {[ "x" := AtomExpression "1" INTEGER ]} None.
Proof.
  cbn zeta. split.
  - apply (@execute_x_plus_1 strict_runtime (mkToken PLUS "+" (0, 0)) ∅ None 0
             eq_refl).
    reflexivity.
  - apply (@execute_x_plus_1 strict_runtime (mkToken PLUS "+" (0, 0))
             {[ "x" := AtomExpression "1" INTEGER ]} None 0 eq_refl).
    reflexivity.
Defined.

(** C1 fails for a lambda that finds a pending argument: it binds the
    argument in the environment it was handed, so executed directly it
    changes its caller's environment. *)
Lemma lambda_binds_in_received_closure :
  let identity := LambdaExpression "x" (AtomExpression "x" ID) in
  let one := AtomExpression "1" INTEGER in
  closure_after (@execute strict_runtime 3 identity ∅ (Some [one])) = {[ "x" := one ]}
  ∧ closure_after (@execute strict_runtime 3 identity ∅ (Some [one])) ≠ ∅.
Proof.
  cbn zeta.
  assert (Heq : closure_after (@execute strict_runtime 3
                  (LambdaExpression "x" (AtomExpression "x" ID)) ∅
                  (Some [AtomExpression "1" INTEGER]))
                = {[ "x" := AtomExpression "1" INTEGER ]}).
  { cbn [execute List.last List.removelast]. unfold bind_name.
    rewrite lookup_empty. rewrite lookup_insert_eq. cbn. reflexivity. }
  split; [exact Heq |]. rewrite Heq. intros Hempty.
  apply (f_equal (λ m : gmap string Expression, m !! "x")) in Hempty.
  rewrite lookup_singleton_eq, lookup_empty in Hempty. discriminate.
Qed.

(** [LetExpression.execute] makes the copy, then binds in the environment
    it was handed and runs the body in the copy, which holds none of the
    new bindings. *)
Lemma let_binds_in_received_closure :
  let one := AtomExpression "1" INTEGER in
  let node := LetExpression ["x"] [one] (AtomExpression "x" ID) in
  @execute strict_runtime 2 node ∅ None
  = mkExec (Return (mkResult cls_LetExpression (PyNode node))) {[ "x" := one ]} None.
Proof.
  cbn zeta. cbn [execute]. unfold bind_all. cbn [zip zip_with foldl]. unfold bind_name.
  rewrite !lookup_empty. cbn. reflexivity.
Qed.

Lemma execute_leaves_closure_unchanged_witness :
  let one := AtomExpression "1" INTEGER in
  let node := BinaryExpression (AtomExpression "x" ID) (mkToken PLUS "+" (0, 0)) one in
  truthy None = false
  ∧ no_let_in_place node = true
  ∧ closure_after (@execute strict_runtime 3 node {[ "x" := one ]} None)
    = {[ "x" := one ]}.
Proof.
  cbn zeta. split; [reflexivity |]. split; [reflexivity |].
  apply (proj1 (proj2 (@execute_leaves_closure_unchanged strict_runtime 3
                         {[ "x" := AtomExpression "1" INTEGER ]} None))).
  - reflexivity.
  - reflexivity.
  - apply map_Forall_singleton. reflexivity.
Defined.

Lemma unary_minus_raises_and_stuck_tag_is_base_class_witness :
  let op := mkToken MINUS "-" (0, 0) in
  @execute strict_runtime 2 (UnaryExpression op (AtomExpression "1" INTEGER)) ∅ None
  = mkExec (Raise TypeError) ∅ None
  ∧
  @execute strict_runtime 1 (UnaryExpression op (AtomExpression "x" ID)) ∅ None
  = mkExec (Return (mkResult cls_Expression
                      (PyNode (UnaryExpression op (AtomExpression "x" ID)))))
           ∅ None.
Proof.
  exact (@unary_minus_raises_and_stuck_tag_is_base_class strict_runtime
           (mkToken MINUS "-" (0, 0)) None 0 eq_refl).
Defined.

Lemma assignment_self_reference_witness :
  let one := AtomExpression "1" INTEGER in
  let x_plus_1 := BinaryExpression (AtomExpression "x" ID) (mkToken PLUS "+" (0, 0)) one in
  ({[ "x" := one ]} : gmap string Expression) !! "x" = Some one
  ∧ @Statement_execute strict_runtime 0 (AssignmentStatement ["x"] [x_plus_1])
      {[ "x" := one ]} None
    = mkExec (Return (mkResult NoneType PyNone))
        (<["x" := ApplicationExpression (LambdaExpression "x" x_plus_1) one]>
           {[ "x" := one ]})
        None.
Proof.
  cbn zeta. split; [reflexivity |].
  apply (@assignment_self_reference strict_runtime (mkToken PLUS "+" (0, 0))
           {[ "x" := AtomExpression "1" INTEGER ]} None 0).
  reflexivity.
Defined.

(** C9 fails for the operator [SLASH_PERCENT]: the closed expression
    [7 /% 2] returns a literal-tagged [None]; nothing is raised. *)
Lemma slash_percent_returns_none :
  let node := BinaryExpression (AtomExpression "7" INTEGER)
                (mkToken SLASH_PERCENT "/%" (0, 0)) (AtomExpression "2" INTEGER) in
  free_variables node ⊆ dom (∅ : gmap string Expression)
  ∧ outcome (@execute strict_runtime 2 node ∅ None) = Return (mkResult LiteralType PyNone)
  ∧ outcome (@execute strict_runtime 2 node ∅ None) ≠ Raise NotImplementedError.
Proof.
  cbn zeta.
  assert (Hclosed : free_variables (BinaryExpression (AtomExpression "7" INTEGER)
                      (mkToken SLASH_PERCENT "/%" (0, 0)) (AtomExpression "2" INTEGER))
                    ⊆ dom (∅ : gmap string Expression)).
  { cbn [free_variables]. set_solver. }
  split; [exact Hclosed |].
  rewrite (@execute_binary_closed strict_runtime) by exact Hclosed.
  split; [reflexivity | discriminate].
Qed.

Lemma unsupported_nodes_raise_and_slash_percent_is_none_witness :
  let node := BinaryExpression (AtomExpression "7" INTEGER)
                (mkToken SLASH_PERCENT "/%" (0, 0)) (AtomExpression "2" INTEGER) in
  outcome (@execute strict_runtime 2 node ∅ None) = Return (mkResult LiteralType PyNone).
Proof.
  cbn zeta.
  apply (proj2 (proj2 (proj2 (proj2 (proj2
           (@unsupported_nodes_raise_and_slash_percent_is_none strict_runtime 1 ∅ None))))))
    with (left_result := mkResult LiteralType (IntegerValue 7))
         (right_result := mkResult LiteralType (IntegerValue 2)).
  - reflexivity.
  - cbn [free_variables]. apply (bool_decide_unpack _). vm_compute. reflexivity.
  - reflexivity.
  - reflexivity.
Defined.

(** * Properties of the scanner *)

Lemma length_list_ascii_of_string (str : string) :
  length (list_ascii_of_string str) = String.length str.
Proof. induction str as [| c str IH]; simpl; congruence. Qed.

Lemma wf_new source ignore : wf (QuarkScanner_new source ignore).
Proof.
  unfold wf, QuarkScanner_new; simpl. rewrite length_list_ascii_of_string. lia.
Qed.

Lemma reached_end_iff s : _reached_end_of_source s 0 = true ↔ _source_pos s = _source_len s.
Proof. unfold _reached_end_of_source. rewrite Z.eqb_eq. lia. Qed.

Lemma not_reached_end s : _source_pos s < _source_len s → _reached_end_of_source s 0 = false.
Proof.
  intros Hlt. destruct (_reached_end_of_source s 0) eqn:E; [| reflexivity].
  apply reached_end_iff in E. lia.
Qed.

Lemma current_char_lookup s c :
  wf s → _source s !! _source_pos s = Some c → _current_char s = Some c.
Proof.
  intros [Hlen _] Hc. unfold _current_char.
  rewrite not_reached_end; [exact Hc |].
  apply lookup_lt_Some in Hc. lia.
Qed.

Lemma test_current_char_lookup test s c :
  wf s → _source s !! _source_pos s = Some c → test_current_char test s = test c.
Proof.
  intros Hwf Hc. unfold test_current_char.
  rewrite (current_char_lookup s c Hwf Hc).
  destruct Hwf as [Hlen _]. rewrite not_reached_end; [reflexivity |].
  apply lookup_lt_Some in Hc. lia.
Qed.

Lemma test_current_char_true test s :
  wf s → test_current_char test s = true →
  ∃ c, _source s !! _source_pos s = Some c ∧ test c = true.
Proof.
  intros _ Ht. unfold test_current_char, _current_char in Ht.
  destruct (_reached_end_of_source s 0); [discriminate |].
  destruct (_source s !! _source_pos s) as [c |]; [eauto | discriminate].
Qed.

Lemma slice_one source p c :
  source !! p = Some c → slice source p (p + 1) = String c EmptyString.
Proof.
  intros Hc. unfold slice. replace (p + 1 - p) with 1 by lia.
  rewrite (drop_S _ _ _ Hc). reflexivity.
Qed.

Lemma match_one_char s c d :
  wf s → _source s !! _source_pos s = Some c →
  _match s (String d EmptyString) = bool_decide (c = d).
Proof.
  intros [Hlen _] Hc. unfold _match. cbn [String.length Nat.sub].
  rewrite not_reached_end by (apply lookup_lt_Some in Hc; lia).
  rewrite (slice_one _ _ _ Hc).
  apply bool_decide_ext. split; [intros [= ->]; reflexivity | intros ->; reflexivity].
Qed.

Lemma consume_char_advances s c :
  wf s → _source s !! _source_pos s = Some c →
  _source (_consume_char s) = _source s
  ∧ _source_len (_consume_char s) = _source_len s
  ∧ _ignore_skippables (_consume_char s) = _ignore_skippables s
  ∧ _source_pos (_consume_char s) = _source_pos s + 1.
Proof.
  intros [Hlen _] Hc. unfold _consume_char.
  rewrite not_reached_end by (apply lookup_lt_Some in Hc; lia).
  destruct (bool_decide _); simpl; auto.
Qed.

Section ScannerProperties.
Context `{TokenTables}.

(** C5, at the failing input ["abcd"] (six characters, quotes included):
    [next_token] has no branch for string literals ([_is_str_start] and
    [_is_str_char] are never called), so whatever the punctuation tables
    hold it either raises or returns a token of at most three characters
    taken from a table; no token spans the literal. *)
Theorem string_literal_not_scanned (ignore : bool) :
  (∀ tok s', next_token (QuarkScanner_new quoted_abcd ignore) ≠ (Return (Some tok), s')
             ∨ String.length (raw tok) ≤ 3)
  ∧ (∀ type_ pos,
       fst (next_token (QuarkScanner_new quoted_abcd ignore))
       ≠ Return (Some (mkToken type_ quoted_abcd pos))).
Proof.
  set (s := QuarkScanner_new quoted_abcd ignore).
  assert (Hshape :
    (∃ x s', next_token s = (Raise x, s'))
    ∨ (∃ tok s', next_token s = (Return (Some tok), s') ∧ String.length (raw tok) ≤ 3)).
  { unfold next_token.
    change (_is_skippable s) with false. cbv iota.
    unfold scan_type.
    change (_is_num_char s) with false. change (_match s ".") with false. cbv iota.
    unfold in_keys, table_lookup.
    change (_current_nchars s 3) with (Some (String double_quote "ab")).
    change (_current_nchars s 2) with (Some (String double_quote "a")).
    change (_current_char s) with (Some double_quote).
    change (_consumed_chars (_consume_nchars s 3)) with (String double_quote "ab").
    change (_consumed_chars (_consume_nchars s 2)) with (String double_quote "a").
    change (_consumed_chars (_consume_char s)) with (String double_quote EmptyString).
    change (_is_id_start s) with false.
    cbn [fmap option_fmap option_map].
    destruct (triple_char_tokens !! String double_quote "ab") as [t3 |] eqn:E3.
    { rewrite bool_decide_eq_true_2 by eauto. right. eexists _, _. split; [reflexivity |].
      simpl. lia. }
    rewrite bool_decide_eq_false_2 by (intros [? ?]; discriminate).
    destruct (double_char_tokens !! String double_quote "a") as [t2 |] eqn:E2.
    { rewrite bool_decide_eq_true_2 by eauto. right. eexists _, _. split; [reflexivity |].
      simpl. lia. }
    rewrite bool_decide_eq_false_2 by (intros [? ?]; discriminate).
    destruct (single_char_tokens !! String double_quote EmptyString) as [t1 |] eqn:E1.
    { rewrite bool_decide_eq_true_2 by eauto. right. eexists _, _. split; [reflexivity |].
      simpl. lia. }
    rewrite bool_decide_eq_false_2 by (intros [? ?]; discriminate).
    left. eexists _, _. reflexivity. }
  split.
  - intros tok s'. destruct Hshape as [(x & s1 & Hx) | (tok1 & s1 & Htok & Hlen)].
    + left. rewrite Hx. discriminate.
    + destruct (decide (tok = tok1)) as [-> | Hne]; [right; exact Hlen |].
      left. rewrite Htok. congruence.
  - intros type_ pos. destruct Hshape as [(x & s1 & Hx) | (tok1 & s1 & Htok & Hlen)].
    + rewrite Hx. discriminate.
    + rewrite Htok. cbn [fst]. intros [= ->]. simpl in Hlen. lia.
Qed.

End ScannerProperties.

(** With tables that hold no lexeme starting with the quote, the quote is
    reported as an invalid character. *)
Lemma string_literal_is_invalid_character :
  fst (@next_token no_tables (QuarkScanner_new quoted_abcd true))
  = Raise (QuarkScannerError (invalid_character (Some double_quote))).
Proof. vm_compute. reflexivity. Qed.

Lemma wf_consume_char s : wf s → wf (_consume_char s).
Proof.
  intros [Hlen Hpos]. unfold wf, _consume_char.
  destruct (_reached_end_of_source s 0) eqn:E; [split; assumption |].
  assert (_source_pos s ≠ _source_len s) by (rewrite <- reached_end_iff; congruence).
  destruct (bool_decide _); simpl; split; auto; lia.
Qed.

Lemma list_ascii_of_string_app (a b : string) :
  list_ascii_of_string (a ++ b)%string = list_ascii_of_string a ++ list_ascii_of_string b.
Proof.
  induction a as [| c a IH]; [reflexivity |].
  simpl. rewrite IH. reflexivity.
Qed.

Lemma integer_part_leading_zero k :
  ∀ budget s d,
    wf s →
    (∀ i, i < k → _source s !! (_source_pos s + i) = Some "0"%char) →
    _source s !! (_source_pos s + k) = Some d →
    num_char d = true → d ≠ "0"%char →
    k < budget →
    fst (consume_integer_part true budget s)
    = Raise (QuarkScannerError leading_zeros_not_permitted).
Proof.
  induction k as [| k IH]; intros budget s d Hwf Hzeros Hd Hnum Hnz Hbudget;
    destruct budget as [| n]; try lia; cbn [consume_integer_part].
  - rewrite Nat.add_0_r in Hd.
    unfold _is_num_char. rewrite (test_current_char_lookup _ _ _ Hwf Hd), Hnum.
    rewrite (match_one_char _ _ "0"%char Hwf Hd).
    rewrite bool_decide_eq_false_2 by exact Hnz. reflexivity.
  - assert (H0 : _source s !! _source_pos s = Some "0"%char).
    { rewrite <- (Nat.add_0_r (_source_pos s)). apply Hzeros. lia. }
    unfold _is_num_char. rewrite (test_current_char_lookup _ _ _ Hwf H0).
    rewrite (match_one_char _ _ "0"%char Hwf H0).
    change (num_char "0") with true. rewrite bool_decide_eq_true_2 by reflexivity.
    cbn [andb negb].
    destruct (consume_char_advances s _ Hwf H0) as (Hsrc & Hlen & _ & Hpos).
    apply (IH n (_consume_char s) d).
    + apply wf_consume_char, Hwf.
    + intros i Hi. rewrite Hsrc, Hpos.
      replace (_source_pos s + 1 + i) with (_source_pos s + S i) by lia.
      apply Hzeros. lia.
    + rewrite Hsrc, Hpos.
      replace (_source_pos s + 1 + k) with (_source_pos s + S k) by lia. exact Hd.
    + exact Hnum.
    + exact Hnz.
    + lia.
Qed.

(** C6 fails for a literal of zeros only: [00] starts with [0] followed
    by another digit and is scanned as one INTEGER token. *)
Lemma double_zero_is_accepted :
  fst (@next_token no_tables (QuarkScanner_new "00" true))
  = Return (Some (mkToken INTEGER "00" (0, 0)))
  ∧ fst (@next_token no_tables (QuarkScanner_new "00" true))
    ≠ Raise (QuarkScannerError leading_zeros_not_permitted).
Proof. split; [vm_compute; reflexivity | vm_compute; discriminate]. Qed.

(** ** What a scan leaves behind *)

Lemma extends_refl s : extends s s.
Proof. unfold extends; auto. Qed.

Lemma extends_trans s1 s2 s3 : extends s1 s2 → extends s2 s3 → extends s1 s3.
Proof.
  unfold extends. intros (? & ? & ? & ?) (? & ? & ? & ?).
  repeat split; try congruence; lia.
Qed.

Lemma keeps_refl s : wf s → solid s → keeps s s.
Proof.
  intros Hwf Hsolid. split; [exact Hwf | split; [apply extends_refl | exact Hsolid]].
Qed.

Lemma keeps_trans s1 s2 s3 : keeps s1 s2 → keeps s2 s3 → keeps s1 s3.
Proof.
  intros (_ & He12 & _) (Hwf3 & He23 & Hsolid3).
  split; [exact Hwf3 | split; [exact (extends_trans _ _ _ He12 He23) | exact Hsolid3]].
Qed.

Lemma consume_char_at_end s : _source_pos s = _source_len s → _consume_char s = s.
Proof.
  intros Hend. unfold _consume_char.
  rewrite (proj2 (reached_end_iff s) Hend). reflexivity.
Qed.

Lemma lookup_current s : wf s → _source_pos s < _source_len s →
  ∃ c, _source s !! _source_pos s = Some c.
Proof.
  intros [Hlen _] Hlt. apply lookup_lt_is_Some_2. lia.
Qed.

Lemma consume_char_extends s : wf s → extends s (_consume_char s).
Proof.
  intros Hwf. destruct (decide (_source_pos s = _source_len s)) as [Hend | Hne].
  - rewrite consume_char_at_end by exact Hend. apply extends_refl.
  - destruct Hwf as [Hlen Hpos].
    destruct (lookup_current s (conj Hlen Hpos)) as [c Hc]; [lia |].
    destruct (consume_char_advances s c (conj Hlen Hpos) Hc) as (? & ? & ? & ?).
    repeat split; auto; lia.
Qed.

Lemma consume_char_solid s c :
  wf s → _source s !! _source_pos s = Some c → skippable_char c = false →
  keeps s (_consume_char s) ∧ _source_pos (_consume_char s) = _source_pos s + 1.
Proof.
  intros Hwf Hc Hsolid.
  destruct (consume_char_advances s c Hwf Hc) as (Hsrc & Hlen & Hign & Hpos).
  split; [| exact Hpos]. split; [| split].
  - apply wf_consume_char, Hwf.
  - unfold extends. rewrite Hsrc, Hlen, Hign, Hpos. repeat split; lia.
  - exists c. rewrite Hsrc, Hpos. replace (_source_pos s + 1 - 1) with (_source_pos s) by lia.
    split; [lia | split; assumption].
Qed.

Lemma consume_nchars_keeps n :
  ∀ s, wf s → solid s →
       (∀ i c, i < n → _source s !! (_source_pos s + i) = Some c →
               skippable_char c = false) →
       keeps s (_consume_nchars s n).
Proof.
  induction n as [| n IH]; intros s Hwf Hsolid Hchars; cbn [_consume_nchars].
  - apply keeps_refl; assumption.
  - destruct (_source s !! _source_pos s) as [c |] eqn:Hc.
    + assert (Hc' : skippable_char c = false).
      { apply (Hchars 0 c); [lia |]. rewrite Nat.add_0_r. exact Hc. }
      destruct (consume_char_solid s c Hwf Hc Hc') as [Hkeep Hpos].
      apply (keeps_trans _ _ _ Hkeep).
      destruct Hkeep as (Hwf1 & (Hsrc & _) & Hsolid1).
      apply IH; auto. intros i d Hi Hd. rewrite Hsrc, Hpos in Hd.
      apply (Hchars (S i) d); [lia |].
      replace (_source_pos s + S i) with (_source_pos s + 1 + i) by lia. exact Hd.
    + assert (Hend : _source_pos s = _source_len s).
      { destruct Hwf as [Hlen Hpos]. apply lookup_ge_None in Hc. lia. }
      rewrite consume_char_at_end by exact Hend.
      apply IH; auto. intros i d Hi Hd. apply (Hchars i d); [lia | exact Hd].
Qed.

Lemma consume_while_keeps (q : ascii → bool) :
  (∀ c, q c = true → skippable_char c = false) →
  ∀ budget s, wf s → solid s →
              keeps s (consume_while (test_current_char q) budget s).
Proof.
  intros Hq. induction budget as [| n IH]; intros s Hwf Hsolid; cbn [consume_while].
  - apply keeps_refl; assumption.
  - destruct (test_current_char q s) eqn:Ht; [| apply keeps_refl; assumption].
    destruct (test_current_char_true _ _ Hwf Ht) as (c & Hc & Hqc).
    destruct (consume_char_solid s c Hwf Hc (Hq c Hqc)) as [Hkeep _].
    apply (keeps_trans _ _ _ Hkeep).
    destruct Hkeep as (Hwf1 & _ & Hsolid1). apply IH; assumption.
Qed.

Lemma consume_while_extends test budget :
  ∀ s, wf s →
       wf (consume_while test budget s) ∧ extends s (consume_while test budget s).
Proof.
  induction budget as [| n IH]; intros s Hwf; cbn [consume_while].
  - split; [exact Hwf | apply extends_refl].
  - destruct (test s); [| split; [exact Hwf | apply extends_refl]].
    destruct (IH (_consume_char s) (wf_consume_char s Hwf)) as [Hwf' Hext].
    split; [exact Hwf' |].
    eapply extends_trans; [apply consume_char_extends, Hwf | exact Hext].
Qed.

Lemma consume_while_exit (q : ascii → bool) budget :
  ∀ s, wf s → chars_left s ≤ budget →
       test_current_char q (consume_while (test_current_char q) budget s) = false.
Proof.
  induction budget as [| n IH]; intros s Hwf Hbudget; cbn [consume_while].
  - unfold test_current_char. destruct Hwf as [_ Hpos]. unfold chars_left in Hbudget.
    rewrite (proj2 (reached_end_iff s)) by lia. reflexivity.
  - destruct (test_current_char q s) eqn:Ht; [| exact Ht].
    destruct (test_current_char_true _ _ Hwf Ht) as (c & Hc & _).
    destruct (consume_char_advances s c Hwf Hc) as (_ & Hlen & _ & Hpos).
    apply IH; [apply wf_consume_char, Hwf |].
    unfold chars_left in *. rewrite Hlen, Hpos. lia.
Qed.

(** With the characters left as budget, the digit loop too ends for the
    reason the source loop ends: the current character is no digit. *)
Lemma consume_integer_part_exit must budget :
  ∀ s, wf s → chars_left s ≤ budget →
       fst (consume_integer_part must budget s) = Return tt →
       _is_num_char (snd (consume_integer_part must budget s)) = false.
Proof.
  induction budget as [| n IH]; intros s Hwf Hbudget; cbn [consume_integer_part].
  - intros _. cbn [snd]. unfold _is_num_char, test_current_char.
    destruct Hwf as [_ Hpos]. unfold chars_left in Hbudget.
    rewrite (proj2 (reached_end_iff s)) by lia. reflexivity.
  - destruct (_is_num_char s) eqn:Ht; [| intros _; exact Ht].
    destruct (must && negb (_match s "0")); [discriminate |].
    destruct (test_current_char_true _ _ Hwf Ht) as (c & Hc & _).
    destruct (consume_char_advances s c Hwf Hc) as (_ & Hlen & _ & Hpos).
    apply IH; [apply wf_consume_char, Hwf |].
    unfold chars_left in *. rewrite Hlen, Hpos. lia.
Qed.

Lemma consume_integer_part_keeps must budget :
  ∀ s, wf s → solid s →
       keeps s (snd (consume_integer_part must budget s))
       ∧ fst (consume_integer_part must budget s) ≠ OutOfFuel.
Proof.
  induction budget as [| n IH]; intros s Hwf Hsolid; cbn [consume_integer_part].
  - split; [apply keeps_refl; assumption | discriminate].
  - destruct (_is_num_char s) eqn:Ht;
      [| split; [apply keeps_refl; assumption | discriminate]].
    destruct (must && negb (_match s "0"));
      [split; [apply keeps_refl; assumption | discriminate] |].
    destruct (test_current_char_true _ _ Hwf Ht) as (c & Hc & Hqc).
    assert (Hc' : skippable_char c = false).
    { destruct (skippable_char c) eqn:E; [| reflexivity].
      unfold skippable_char in E. apply orb_prop in E as [E | E];
        apply bool_decide_eq_true in E; subst c; discriminate. }
    destruct (consume_char_solid s c Hwf Hc Hc') as [Hkeep _].
    destruct Hkeep as (Hwf1 & Hext1 & Hsolid1).
    destruct (IH (_consume_char s) Hwf1 Hsolid1) as [Hk Hne].
    split; [| exact Hne]. eapply keeps_trans; [| exact Hk].
    split; [exact Hwf1 | split; assumption].
Qed.

Lemma skippable_char_cases c :
  skippable_char c = true → c = " "%char ∨ c = "009"%char.
Proof.
  unfold skippable_char. intros E. apply orb_prop in E as [E | E];
    apply bool_decide_eq_true in E; auto.
Qed.

Lemma not_skippable (q : ascii → bool) c :
  q " "%char = false → q "009"%char = false → q c = true → skippable_char c = false.
Proof.
  intros Hspace Htab Hq. destruct (skippable_char c) eqn:E; [| reflexivity].
  destruct (skippable_char_cases c E); subst c; congruence.
Qed.

Lemma num_char_solid c : num_char c = true → skippable_char c = false.
Proof. apply not_skippable; reflexivity. Qed.

Lemma id_char_solid c : id_char c = true → skippable_char c = false.
Proof. apply not_skippable; reflexivity. Qed.

Lemma match_chars s str :
  _match s str = true →
  ∀ i c, list_ascii_of_string str !! i = Some c →
         _source s !! (_source_pos s + i) = Some c.
Proof.
  unfold _match. destruct (_reached_end_of_source s _); [discriminate |].
  intros Heq i c Hi. apply bool_decide_eq_true in Heq. unfold slice in Heq.
  rewrite <- Heq, list_ascii_of_string_of_list_ascii in Hi.
  apply lookup_take_Some in Hi as [Hi _]. rewrite lookup_drop in Hi. exact Hi.
Qed.

Lemma keeps_matched s str n :
  wf s → solid s → _match s str = true →
  n = String.length str →
  (∀ c, c ∈ list_ascii_of_string str → skippable_char c = false) →
  keeps s (_consume_nchars s n).
Proof.
  intros Hwf Hsolid Hm -> Hstr. apply consume_nchars_keeps; auto.
  intros i c Hi Hc.
  assert (Hlt : i < length (list_ascii_of_string str))
    by (rewrite length_list_ascii_of_string; exact Hi).
  destruct (lookup_lt_is_Some_2 _ _ Hlt) as [d Hd].
  pose proof (match_chars s str Hm i d Hd) as Hd'.
  assert (c = d) as -> by congruence.
  apply Hstr. eapply list_elem_of_lookup_2, Hd.
Qed.

Lemma keeps_period s : wf s → solid s → _match s "." = true → keeps s (_consume_char s).
Proof.
  intros Hwf Hsolid Hm. apply (keeps_matched s "." 1 Hwf Hsolid Hm eq_refl).
  intros c Hc. apply list_elem_of_In in Hc. simpl in Hc.
  destruct Hc as [<- | []]. reflexivity.
Qed.

Lemma keeps_im s : wf s → solid s → _match s "im" = true → keeps s (_consume_nchars s 2).
Proof.
  intros Hwf Hsolid Hm. apply (keeps_matched s "im" 2 Hwf Hsolid Hm eq_refl).
  intros c Hc. apply list_elem_of_In in Hc. simpl in Hc.
  destruct Hc as [<- | [<- | []]]; reflexivity.
Qed.

Lemma keeps_digits s budget :
  wf s → solid s → keeps s (consume_while _is_num_char budget s).
Proof. apply (consume_while_keeps num_char num_char_solid). Qed.

Lemma complex_suffix_keeps s (type_ : TokenTypes) :
  wf s → solid s →
  let r := if _match s "im" then (Return COMPLEX, _consume_nchars s 2)
           else (Return type_, s) in
  keeps s (snd r) ∧ ∃ t, fst r = Return t.
Proof.
  intros Hwf Hsolid. destruct (_match s "im") eqn:Hm; cbn [fst snd].
  - split; [apply keeps_im; assumption | eauto].
  - split; [apply keeps_refl; assumption | eauto].
Qed.

Lemma table_lookup_state table s :
  snd (table_lookup table s) = s ∧ fst (table_lookup table s) ≠ OutOfFuel.
Proof. unfold table_lookup. destruct (table !! _); split; auto; discriminate. Qed.

Lemma table_branch_keeps n (table : gmap string TokenTypes) s c0 :
  wf s → _source s !! _source_pos s = Some c0 → skippable_char c0 = false →
  in_keys (_current_nchars s (S n)) table = true →
  (∀ k, is_Some (table !! k) →
        ∀ c, c ∈ list_ascii_of_string k → skippable_char c = false) →
  keeps (_consume_char s) (_consume_nchars s (S n)).
Proof.
  intros Hwf Hc0 Hc0s Hin Hkeys. cbn [_consume_nchars].
  destruct (consume_char_solid s c0 Hwf Hc0 Hc0s) as [(Hwf1 & Hext1 & Hsolid1) Hpos1].
  apply consume_nchars_keeps; auto.
  intros i c Hi Hc. destruct Hext1 as (Hsrc1 & _). rewrite Hsrc1, Hpos1 in Hc.
  unfold in_keys, _current_nchars in Hin.
  destruct (_reached_end_of_source s (S n - 1)); [discriminate |].
  apply bool_decide_eq_true in Hin.
  apply (Hkeys _ Hin). unfold slice.
  rewrite list_ascii_of_string_of_list_ascii.
  apply (list_elem_of_lookup_2 _ (1 + i)).
  rewrite lookup_take_lt by lia. rewrite lookup_drop.
  replace (_source_pos s + (1 + i)) with (_source_pos s + 1 + i) by lia. exact Hc.
Qed.

Section TrailingBlanks.
Context `{TokenTables}.
Hypothesis punctuation : blank_free_punctuation.

Lemma scan_type_keeps s :
  wf s → _source_pos s < _source_len s → _is_skippable s = false →
  fst (scan_type s) ≠ OutOfFuel
  ∧ (∀ type_, fst (scan_type s) = Return type_ →
              keeps (_consume_char s) (snd (scan_type s))).
Proof.
  intros Hwf Hlt Hskip.
  destruct (lookup_current s Hwf Hlt) as [c0 Hc0].
  assert (Hc0s : skippable_char c0 = false).
  { unfold _is_skippable in Hskip.
    rewrite (test_current_char_lookup _ _ _ Hwf Hc0) in Hskip. exact Hskip. }
  destruct (consume_char_solid s c0 Hwf Hc0 Hc0s) as [(Hwf1 & Hext1 & Hsolid1) Hpos1].
  unfold scan_type.
  destruct (_is_num_char s) eqn:Hnum.
  { destruct (consume_integer_part_keeps (_match s "0") (chars_left (_consume_char s))
                (_consume_char s) Hwf1 Hsolid1) as [Hk2 Hne2].
    destruct (consume_integer_part _ _ (_consume_char s)) as [o s2].
    cbn [fst snd] in Hk2, Hne2.
    destruct o as [[] | x |]; [| split; [discriminate | intros; discriminate] | congruence].
    destruct Hk2 as (Hwf2 & Hext2 & Hsolid2).
    destruct (_match s2 ".") eqn:Hdot.
    - pose proof (keeps_period s2 Hwf2 Hsolid2 Hdot) as Hk3.
      destruct Hk3 as (Hwf3 & Hext3 & Hsolid3).
      pose proof (keeps_digits (_consume_char s2) (chars_left (_consume_char s2))
                    Hwf3 Hsolid3) as (Hwf4 & Hext4 & Hsolid4).
      destruct (complex_suffix_keeps _ REAL Hwf4 Hsolid4) as [Hk5 [t Ht]].
      cbn zeta in Hk5, Ht. cbn beta iota zeta.
      split; [rewrite Ht; discriminate |]. intros ? _.
      eapply keeps_trans; [| exact Hk5].
      split; [exact Hwf4 | split; [| exact Hsolid4]].
      eauto using extends_trans.
    - destruct (complex_suffix_keeps _ INTEGER Hwf2 Hsolid2) as [Hk5 [t Ht]].
      cbn zeta in Hk5, Ht. cbn beta iota zeta.
      split; [rewrite Ht; discriminate |]. intros ? _.
      eapply keeps_trans; [| exact Hk5].
      split; [exact Hwf2 | split; assumption]. }
  destruct (_match s ".") eqn:Hdot.
  { destruct (_is_num_char (_consume_char s)) eqn:Hnum1.
    - destruct (test_current_char_true _ _ Hwf1 Hnum1) as (c1 & Hc1 & Hq1).
      destruct (consume_char_solid _ c1 Hwf1 Hc1 (num_char_solid _ Hq1))
        as [(Hwf2 & Hext2 & Hsolid2) _].
      pose proof (keeps_digits _ (chars_left (_consume_char (_consume_char s)))
                    Hwf2 Hsolid2) as (Hwf3 & Hext3 & Hsolid3).
      destruct (complex_suffix_keeps _ REAL Hwf3 Hsolid3) as [Hk4 [t Ht]].
      cbn zeta in Hk4, Ht.
      destruct (_match _ "im") eqn:Him; cbn [fst snd] in *;
        (split; [discriminate |]); intros ? _;
        (eapply keeps_trans; [| exact Hk4]);
        (split; [exact Hwf3 | split; [| exact Hsolid3]]);
        eauto using extends_trans.
    - cbn [fst snd]. split; [discriminate |]. intros ? _.
      apply keeps_refl; assumption. }
  destruct (in_keys (_current_nchars s 3) triple_char_tokens) eqn:H3.
  { destruct (table_lookup_state triple_char_tokens (_consume_nchars s 3)) as [Hst Hne].
    split; [exact Hne |]. intros ? _. rewrite Hst.
    apply (table_branch_keeps 2 triple_char_tokens s c0 Hwf Hc0 Hc0s H3).
    intros k Hk. apply punctuation. right. exact Hk. }
  destruct (in_keys (_current_nchars s 2) double_char_tokens) eqn:H2.
  { destruct (table_lookup_state double_char_tokens (_consume_nchars s 2)) as [Hst Hne].
    split; [exact Hne |]. intros ? _. rewrite Hst.
    apply (table_branch_keeps 1 double_char_tokens s c0 Hwf Hc0 Hc0s H2).
    intros k Hk. apply punctuation. left. exact Hk. }
  destruct (in_keys _ single_char_tokens) eqn:H1.
  { destruct (table_lookup_state single_char_tokens (_consume_char s)) as [Hst Hne].
    split; [exact Hne |]. intros ? _. rewrite Hst. apply keeps_refl; assumption. }
  destruct (_is_id_start s) eqn:Hid.
  { pose proof (consume_while_keeps id_char id_char_solid
                  (chars_left (_consume_char s)) (_consume_char s) Hwf1 Hsolid1) as Hk.
    fold _is_id_char in Hk.
    destruct (keyword_tokens !! _); cbn [fst snd]; (split; [discriminate |]);
      intros ? _; exact Hk. }
  cbn [fst snd]. split; [discriminate |]. intros; discriminate.
Qed.

Lemma discard_keeps_place s :
  wf s → wf (_discard_consumed_chars s) ∧ extends s (_discard_consumed_chars s).
Proof.
  intros Hwf. split; [exact Hwf |]. unfold extends; simpl. repeat split; lia.
Qed.

Lemma finish_progress s (pos0 : nat * nat) :
  wf s → _source_pos s < _source_len s → _is_skippable s = false →
  let r := match scan_type s with
           | (Return type_, s') =>
               (Return (Some (mkToken type_ (_consumed_chars s') pos0)),
                _discard_consumed_chars s')
           | (Raise x, s') => (Raise x, s')
           | (OutOfFuel, s') => (OutOfFuel, s')
           end in
  fst r ≠ OutOfFuel
  ∧ (∀ t, fst r = Return t →
          wf (snd r) ∧ extends s (snd r)
          ∧ _source_pos s < _source_pos (snd r) ∧ solid (snd r)).
Proof.
  intros Hwf Hlt Hskip.
  destruct (scan_type_keeps s Hwf Hlt Hskip) as [Hne Hkeep].
  destruct (lookup_current s Hwf Hlt) as [c0 Hc0].
  destruct (consume_char_advances s c0 Hwf Hc0) as (Hsrc1 & Hlen1 & Hign1 & Hpos1).
  destruct (scan_type s) as [o s']. cbn [fst snd] in Hne, Hkeep.
  destruct o as [type_ | x |]; cbn [fst snd]; [| split; [discriminate | intros; discriminate]
                                                | congruence].
  split; [discriminate |]. intros t _.
  destruct (Hkeep type_ eq_refl) as (Hwf' & (Hsrc & Hlen & Hign & Hpos) & Hsolid).
  split; [exact Hwf' |]. split; [| split].
  - unfold extends; simpl. rewrite Hsrc, Hlen, Hign, Hsrc1, Hlen1, Hign1.
    repeat split; lia.
  - simpl. lia.
  - exact Hsolid.
Qed.

Lemma next_token_progress s :
  wf s → _source_pos s < _source_len s → _ignore_skippables s = true →
  fst (next_token s) ≠ OutOfFuel
  ∧ (∀ r, fst (next_token s) = Return r →
          wf (snd (next_token s)) ∧ extends s (snd (next_token s))
          ∧ _source_pos s < _source_pos (snd (next_token s))
          ∧ (r = None ∨ solid (snd (next_token s)))).
Proof.
  intros Hwf Hlt Hign. unfold next_token. cbn zeta.
  destruct (_is_skippable s) eqn:Hskip.
  - destruct (test_current_char_true _ _ Hwf Hskip) as (c & Hc & _).
    destruct (consume_char_advances s c Hwf Hc) as (Hsrc1 & Hlen1 & Hign1 & Hpos1).
    pose proof (wf_consume_char s Hwf) as Hwf1.
    set (s1 := _consume_char s) in *.
    destruct (consume_while_extends _is_skippable (chars_left s1) s1 Hwf1)
      as [Hwf2 (Hsrc2 & Hlen2 & Hign2 & Hpos2)].
    pose proof (consume_while_exit skippable_char (chars_left s1) s1 Hwf1 (le_n _))
      as Hexit.
    fold _is_skippable in Hexit.
    set (s2 := consume_while _is_skippable (chars_left s1) s1) in *.
    rewrite Hign2, Hign1, Hign.
    destruct (_reached_end_of_source (_discard_consumed_chars s2) 0) eqn:Hend.
    + cbn [fst snd]. split; [discriminate |]. intros r [= <-].
      split; [exact Hwf2 |]. split; [| split; [simpl; lia | left; reflexivity]].
      unfold extends; simpl. rewrite Hsrc2, Hlen2, Hign2, Hsrc1, Hlen1, Hign1.
      repeat split; lia.
    + assert (Hlt2 : _source_pos s2 < _source_len s2).
      { destruct Hwf2 as [_ Hle]. destruct (decide (_source_pos s2 = _source_len s2)) as [E | E].
        - apply (reached_end_iff (_discard_consumed_chars s2)) in E. congruence.
        - lia. }
      destruct (finish_progress (_discard_consumed_chars s2) (_current_pos s)
                  Hwf2 Hlt2 Hexit) as [Hne Hprog].
      cbn zeta in Hne, Hprog. split; [exact Hne |]. intros r Hr.
      destruct (Hprog r Hr) as (Hwf' & (Hsrc & Hlen & Hign' & Hpos) & Hlt' & Hsolid).
      split; [exact Hwf' |]. split; [| split; [| right; exact Hsolid]].
      * unfold extends. rewrite Hsrc, Hlen, Hign'. simpl.
        rewrite Hsrc2, Hlen2, Hign2, Hsrc1, Hlen1, Hign1. simpl in Hpos. repeat split; lia.
      * simpl in Hlt'. lia.
  - destruct (finish_progress s (_current_pos s) Hwf Hlt Hskip) as [Hne Hprog].
    cbn zeta in Hne, Hprog. split; [exact Hne |]. intros r Hr.
    destruct (Hprog r Hr) as (Hwf' & Hext & Hlt' & Hsolid).
    split; [exact Hwf' |]. split; [exact Hext |]. split; [exact Hlt' | right; exact Hsolid].
Qed.

Lemma tokens_loop_ends_with_none budget :
  ∀ s toks,
    wf s → _ignore_skippables s = true →
    (∃ c, _source s !! (_source_len s - 1) = Some c ∧ skippable_char c = true) →
    chars_left s ≤ budget →
    fst (tokens_loop budget s toks) ≠ OutOfFuel
    ∧ (∀ out, fst (tokens_loop budget s toks) = Return out →
              (_source_pos s < _source_len s → last out = Some None)
              ∧ (_source_pos s = _source_len s → out = toks)).
Proof.
  induction budget as [| n IH]; intros s toks Hwf Hign Hlast Hbudget.
  - assert (Hend : _source_pos s = _source_len s).
    { destruct Hwf as [_ Hle]. unfold chars_left in Hbudget. lia. }
    cbn [tokens_loop]. rewrite (proj2 (reached_end_iff s) Hend). cbn [fst].
    split; [discriminate |]. intros out [= <-]. split; [lia | reflexivity].
  - cbn [tokens_loop]. destruct (_reached_end_of_source s 0) eqn:Hend.
    { apply reached_end_iff in Hend. cbn [fst].
      split; [discriminate |]. intros out [= <-]. split; [lia | reflexivity]. }
    assert (Hlt : _source_pos s < _source_len s).
    { destruct Hwf as [_ Hle]. destruct (decide (_source_pos s = _source_len s)) as [E | E].
      - apply reached_end_iff in E. congruence.
      - lia. }
    destruct (next_token_progress s Hwf Hlt Hign) as [Hne Hprog].
    destruct (next_token s) as [o s1]. cbn [fst snd] in Hne, Hprog.
    destruct o as [t | x |]; [| cbn [fst]; split; [discriminate | intros; discriminate]
                              | congruence].
    destruct (Hprog t eq_refl) as (Hwf1 & (Hsrc & Hlen & Hign1 & Hpos) & Hlt1 & Ht).
    destruct (IH s1 (toks ++ [t]) Hwf1) as [Hne1 Hout].
    + congruence.
    + rewrite Hsrc, Hlen. exact Hlast.
    + unfold chars_left in *. rewrite Hlen. lia.
    + split; [exact Hne1 |]. intros out Hr.
      destruct (Hout out Hr) as [Hmore Hdone]. split; [| lia]. intros _.
      destruct (decide (_source_pos s1 = _source_len s1)) as [E | E].
      * rewrite (Hdone E), last_snoc. f_equal.
        destruct Ht as [-> | (c & Hge & Hc & Hsolid)]; [reflexivity |].
        destruct Hlast as (c' & Hc' & Hblank).
        rewrite E, Hsrc, Hlen in Hc. congruence.
      * apply Hmore. destruct Hwf1 as [_ Hle]. lia.
Qed.

(** C10: with [ignore_skippables] set, a source that ends in a space or a
    tab makes [tokens] end its list with [None], the end-of-input marker,
    whenever it returns a list at all; the loop itself always comes to an
    end.  The lexemes of the punctuation tables are assumed to hold no
    blank. *)
Theorem tokens_trailing_blank_ends_with_none (source : string) (c : ascii) :
  skippable_char c = true →
  let s := QuarkScanner_new (source ++ String c EmptyString)%string true in
  fst (tokens s) ≠ OutOfFuel
  ∧ (∀ toks, fst (tokens s) = Return toks → last toks = Some None).
Proof.
  intros Hc s. unfold tokens.
  assert (Hwf : wf s) by apply wf_new.
  assert (Hlen : _source_len s = length (list_ascii_of_string source) + 1).
  { destruct Hwf as [-> _]. unfold s, QuarkScanner_new; cbn [_source].
    rewrite list_ascii_of_string_app, length_app. reflexivity. }
  destruct (tokens_loop_ends_with_none (chars_left s) s [] Hwf eq_refl) as [Hne Hout].
  - exists c. split; [| exact Hc]. rewrite Hlen.
    unfold s, QuarkScanner_new; cbn [_source]. rewrite list_ascii_of_string_app.
    rewrite lookup_app_r by lia.
    replace (length (list_ascii_of_string source) + 1 - 1
             - length (list_ascii_of_string source)) with 0 by lia.
    reflexivity.
  - apply le_n.
  - split; [exact Hne |]. intros toks Hr. apply (Hout toks Hr).
    rewrite Hlen. change (_source_pos s) with 0. lia.
Qed.

End TrailingBlanks.

Lemma sample_tables_blank_free : @blank_free_punctuation sample_tables.
Proof.
  intros k [[t Hk] | [t Hk]] c Hc; cbn in Hk.
  - apply lookup_singleton_Some in Hk as [<- _].
    apply list_elem_of_In in Hc. simpl in Hc.
    destruct Hc as [<- | [<- | []]]; reflexivity.
  - rewrite lookup_empty in Hk. discriminate.
Qed.

Lemma tokens_trailing_blank_ends_with_none_witness :
  skippable_char " " = true
  ∧ ∃ toks, fst (@tokens sample_tables (QuarkScanner_new "a <= b " true)) = Return toks
            ∧ last toks = Some None.
Proof.
  split; [reflexivity |].
  exists [Some (mkToken ID "a" (0, 0)); Some (mkToken LESS_EQUAL "<=" (1, 0));
          Some (mkToken ID "b" (4, 0)); None].
  split; [vm_compute; reflexivity |].
  apply (proj2 (@tokens_trailing_blank_ends_with_none sample_tables
                  sample_tables_blank_free "a <= b" " "%char eq_refl)).
  vm_compute. reflexivity.
Defined.

(** * Further properties of evaluation *)

Section EvaluationOrder.
Context `{RuntimeOps}.

Lemma binary_mapping_outside_table t :
  t ∉ binary_operator_kinds → _token_binary_operation_mapping t = None.
Proof.
  intros Hout. destruct t; try reflexivity; exfalso; apply Hout;
    unfold binary_operator_kinds; repeat first [apply list_elem_of_here
                                               | apply list_elem_of_further].
Qed.

(** X5: a closed binary expression whose operator token is of a kind the
    operator table has no entry for raises [KeyError], and it does so
    only after both operands were evaluated and returned. *)
Theorem binary_operator_outside_table_raises (fuel : nat) (l r : Expression)
    (op : Token) (closure : gmap string Expression)
    (callstack : option (list Expression)) (left_result right_result : ExecutionResult) :
  type op ∉ binary_operator_kinds →
  free_variables (BinaryExpression l op r) ⊆ dom closure →
  outcome (execute fuel l closure None) = Return left_result →
  outcome (execute fuel r (closure_after (execute fuel l closure None)) None)
  = Return right_result →
  outcome (execute (S fuel) (BinaryExpression l op r) closure callstack)
  = Raise KeyError.
Proof.
  intros Hout Hclosed Hl Hr. rewrite execute_binary_closed by exact Hclosed.
  cbn zeta. rewrite Hl, Hr. cbn [outcome].
  rewrite (binary_mapping_outside_table _ Hout). reflexivity.
Qed.

(** X6: a conditional without alternative whose condition evaluates to a
    literal other than true raises [AttributeError] (the call of
    [execute] on [None]); the consequent is not run, and the environment
    is left as the condition left it. *)
Theorem conditional_without_alternative_raises (fuel : nat) (c t : Expression)
    (closure : gmap string Expression) (callstack : option (list Expression))
    (condition_result : ExecutionResult) :
  outcome (execute fuel c closure None) = Return condition_result →
  res_type condition_result = LiteralType →
  runtime_eq (val condition_result) (BooleanObject 1) = false →
  execute (S fuel) (ConditionalExpression c t None) closure callstack
  = mkExec (Raise AttributeError) (closure_after (execute fuel c closure None))
           callstack.
Proof.
  intros Hc Hlit Hfalse. cbn [execute]. rewrite Hc.
  destruct (decide (res_type condition_result = LiteralType)); [| contradiction].
  rewrite Hfalse. reflexivity.
Qed.

Lemma execute_lambda_pending n name body closure stack arg :
  execute (S n) (LambdaExpression name body) closure (Some (stack ++ [arg]))
  = execute n body (bind_name closure name arg) (Some stack).
Proof.
  cbn [execute]. destruct (stack ++ [arg]) as [| a rest] eqn:Hs.
  { by apply app_eq_nil in Hs as [_ ?]. }
  rewrite <- Hs, last_last, removelast_last. reflexivity.
Qed.

Lemma execute_application_no_stack n f arg closure callstack :
  truthy callstack = false →
  execute (S n) (ApplicationExpression f arg) closure callstack
  = mkExec
      (map_outcome (application_result (ApplicationExpression f arg))
         (outcome (execute n f closure (Some [arg]))))
      closure callstack.
Proof.
  intros Hstack. cbn [execute].
  destruct callstack as [[| z stack] |]; try discriminate; reflexivity.
Qed.

Lemma execute_application_stack n f arg closure z stack :
  execute (S n) (ApplicationExpression f arg) closure (Some (z :: stack))
  = mkExec
      (map_outcome (application_result (ApplicationExpression f arg))
         (outcome (execute n f closure (Some ((z :: stack) ++ [arg])))))
      closure
      (callstack_after (execute n f closure (Some ((z :: stack) ++ [arg])))).
Proof. reflexivity. Qed.

Lemma application_result_twice inner outer (o : Outcome ExecutionResult) :
  map_outcome (application_result outer) (map_outcome (application_result inner) o)
  = map_outcome (application_result outer) o.
Proof.
  destruct o as [res | e |]; cbn [map_outcome]; [| reflexivity | reflexivity].
  unfold application_result. destruct (is_expression_type (res_type res)) eqn:E.
  - reflexivity.
  - rewrite E. reflexivity.
Qed.

(** X7: curried application.  Applying [\ x. \ y. body] to [a] and then
    to [b], with no argument pending, runs [body] with [x] bound to [a]
    and then [y] bound to [b] (by the binding rule), on an empty stack;
    the bindings are made in a copy, so the caller's environment and
    stack are as before, and a result that is still an expression is
    reported as the outer application. *)
Theorem curried_application_binds_in_order (fuel : nat) (x y : string)
    (body a b : Expression) (closure : gmap string Expression)
    (callstack : option (list Expression)) :
  truthy callstack = false →
  let inner := ApplicationExpression (LambdaExpression x (LambdaExpression y body)) a in
  let outer := ApplicationExpression inner b in
  execute (4 + fuel) outer closure callstack
  = mkExec
      (map_outcome (application_result outer)
         (outcome (execute fuel body (bind_name (bind_name closure x a) y b) (Some []))))
      closure callstack.
Proof.
  intros Hstack inner outer.
  change (4 + fuel) with (S (S (S (S fuel)))).
  unfold outer at 1. rewrite (execute_application_no_stack _ _ _ _ _ Hstack).
  unfold inner at 2. rewrite execute_application_stack. cbn [outcome].
  change ([b] ++ [a]) with (([b] ++ [a]) : list Expression).
  rewrite (execute_lambda_pending _ x _ closure [b] a).
  rewrite (execute_lambda_pending _ y _ _ [] b).
  rewrite application_result_twice. reflexivity.
Qed.

(** X8: how a self-referencing rebinding resolves.  Where [name] is bound
    to the application of [\ name. expr] to a previous value that does
    not mention [name], a reference to [name] (no argument pending)
    evaluates [expr] with [name] bound to that previous value, in a copy
    of the environment. *)
Theorem self_reference_resolves (fuel : nat) (name : string) (expr previous : Expression)
    (closure : gmap string Expression) (callstack : option (list Expression)) :
  truthy callstack = false →
  closure !! name
  = Some (ApplicationExpression (LambdaExpression name expr) previous) →
  name ∉ free_variables previous →
  execute (3 + fuel) (AtomExpression name ID) closure callstack
  = mkExec
      (map_outcome
         (application_result
            (ApplicationExpression (LambdaExpression name expr) previous))
         (outcome (execute fuel expr (<[name := previous]> closure) (Some []))))
      closure callstack.
Proof.
  intros Hstack Hbound Hfresh. change (3 + fuel) with (S (S (S fuel))).
  rewrite (execute_atom_id_bound _ _ _ _ _ Hbound).
  rewrite (execute_application_no_stack _ _ _ _ _ Hstack).
  rewrite (execute_lambda_pending _ name _ closure [] previous).
  unfold bind_name. rewrite Hbound.
  rewrite bool_decide_eq_false_2 by exact Hfresh. reflexivity.
Qed.

(** X9: what an assignment stores is what a later reference runs.  After
    [name = expr], where [name] was unbound or [expr] does not mention
    it, executing the identifier [name] is executing [expr] in the
    environment the assignment left. *)
Theorem assignment_then_reference (fuel : nat) (name : string) (expr : Expression)
    (closure : gmap string Expression) (callstack callstack' : option (list Expression)) :
  closure !! name = None ∨ name ∉ free_variables expr →
  let closure' :=
    closure_after (Statement_execute fuel (AssignmentStatement [name] [expr])
                     closure callstack) in
  closure' = <[name := expr]> closure
  ∧ execute (S fuel) (AtomExpression name ID) closure' callstack'
    = execute fuel expr closure' callstack'.
Proof.
  intros Hrule closure'.
  assert (Heq : closure' = <[name := expr]> closure).
  { unfold closure', Statement_execute, bind_all. cbn [closure_after zip zip_with foldl].
    unfold bind_name. destruct (closure !! name) as [previous |] eqn:Hb; [| reflexivity].
    destruct Hrule as [? | Hfresh]; [discriminate |].
    rewrite bool_decide_eq_false_2 by exact Hfresh. reflexivity. }
  split; [exact Heq |]. apply execute_atom_id_bound.
  rewrite Heq. apply lookup_insert_eq.
Qed.

(** X10: binding an unbound name to itself makes every reference to it
    recurse without end: no recursion budget lets the call finish. *)
Theorem self_binding_never_returns (fuel fuel' : nat) (name : string)
    (closure : gmap string Expression) (callstack callstack' : option (list Expression)) :
  closure !! name = None →
  let closure' :=
    closure_after (Statement_execute fuel'
                     (AssignmentStatement [name] [AtomExpression name ID])
                     closure callstack) in
  outcome (execute fuel (AtomExpression name ID) closure' callstack') = OutOfFuel.
Proof.
  intros Hfree closure'.
  assert (Hb : closure' !! name = Some (AtomExpression name ID)).
  { unfold closure', Statement_execute, bind_all. cbn [closure_after zip zip_with foldl].
    unfold bind_name. rewrite Hfree. apply lookup_insert_eq. }
  clearbody closure'. induction fuel as [| n IH]; [reflexivity |].
  rewrite (execute_atom_id_bound _ _ _ _ _ Hb). exact IH.
Qed.

Lemma dom_bind_name (closure : gmap string Expression) name expr :
  dom (bind_name closure name expr) = {[ name ]} ∪ dom closure.
Proof.
  unfold bind_name. destruct (closure !! name); [destruct (bool_decide _) |];
    apply dom_insert_L.
Qed.

(** X11: the binding loop of an assignment (and of a [let]) only adds
    names: afterwards the environment binds what it bound before and the
    identifiers that have an expression at their position; identifiers
    beyond the last expression are ignored. *)
Theorem assignment_binds_paired_names (fuel : nat) (identifiers : list string)
    (expr_values : list Expression) (closure : gmap string Expression)
    (callstack : option (list Expression)) :
  dom (closure_after
         (Statement_execute fuel (AssignmentStatement identifiers expr_values)
            closure callstack))
  = dom closure ∪ list_to_set (take (length expr_values) identifiers).
Proof.
  unfold Statement_execute, bind_all. cbn [closure_after].
  revert closure expr_values.
  induction identifiers as [| name names IH]; intros closure expr_values.
  - rewrite take_nil. cbn. set_solver.
  - destruct expr_values as [| expr exprs].
    + cbn. set_solver.
    + cbn [zip zip_with foldl length take]. rewrite IH, dom_bind_name.
      cbn [list_to_set]. set_solver.
Qed.


(** X14: a call that is handed no pending argument (no stack, or an
    empty one) hands back what it was given: its own applications work
    on stacks of their own. *)
Theorem execute_without_pending_arguments_keeps_callstack (fuel : nat) (e : Expression)
    (closure : gmap string Expression) (callstack : option (list Expression)) :
  truthy callstack = false →
  callstack_after (execute fuel e closure callstack) = callstack.
Proof.
  revert e closure callstack.
  induction fuel as [| n IH]; intros e closure callstack Hstack; [reflexivity |].
  destruct e as [ids inits body | name body | c t a | f arg | l op r | op x
                | items | id | raw ty | exprs]; cbn [execute].
  - cbn [callstack_after]. apply IH, Hstack.
  - destruct callstack as [[| z stack] |]; try discriminate; apply IH; reflexivity.
  - destruct (outcome (execute n c closure None)) as [cr | e |];
      [| reflexivity | reflexivity].
    destruct (decide (res_type cr = LiteralType)); [| reflexivity].
    destruct (runtime_eq (val cr) (BooleanObject 1)); [reflexivity |].
    destruct a; reflexivity.
  - destruct callstack as [[| z stack] |]; try discriminate; reflexivity.
  - destruct (bool_decide _); [| reflexivity].
    destruct (outcome (execute n l closure None)); [| reflexivity | reflexivity].
    destruct (outcome (execute n r _ None)); reflexivity.
  - destruct (bool_decide _); [| reflexivity].
    destruct (outcome (execute n x closure None)); reflexivity.
  - reflexivity.
  - reflexivity.
  - destruct ty; try reflexivity;
      (destruct (closure !! raw) as [expr |]; [apply IH, Hstack | reflexivity]).
  - reflexivity.
Qed.

End EvaluationOrder.

(** ** Runs of the further properties on concrete inputs *)

Lemma binary_operator_outside_table_raises_witness :
  let node := BinaryExpression (AtomExpression "1" INTEGER) (mkToken NOT "not" (0, 0))
                (AtomExpression "2" INTEGER) in
  (NOT ∉ binary_operator_kinds)
  ∧ outcome (@execute strict_runtime 2 node ∅ None) = Raise KeyError.
Proof.
  cbn zeta.
  assert (Hout : NOT ∉ binary_operator_kinds).
  { unfold binary_operator_kinds. intros Hin.
    repeat (apply elem_of_cons in Hin as [Hin | Hin]; [discriminate |]).
    by apply not_elem_of_nil in Hin. }
  split; [exact Hout |].
  apply (@binary_operator_outside_table_raises strict_runtime 1
           (AtomExpression "1" INTEGER) (AtomExpression "2" INTEGER)
           (mkToken NOT "not" (0, 0)) ∅ None
           (mkResult LiteralType (IntegerValue 1)) (mkResult LiteralType (IntegerValue 2))).
  - exact Hout.
  - cbn [free_variables]. apply (bool_decide_unpack _). vm_compute. reflexivity.
  - reflexivity.
  - reflexivity.
Defined.

Lemma conditional_without_alternative_raises_witness :
  @execute strict_runtime 2
    (ConditionalExpression (AtomExpression "false" BOOLEAN) (AtomExpression "1" INTEGER)
       None) ∅ None
  = mkExec (Raise AttributeError) ∅ None.
Proof.
  apply (@conditional_without_alternative_raises strict_runtime 1
           (AtomExpression "false" BOOLEAN) (AtomExpression "1" INTEGER) ∅ None
           (mkResult LiteralType (BooleanValue false))); reflexivity.
Defined.

Lemma curried_application_binds_in_order_witness :
  let minus := mkToken MINUS "-" (0, 0) in
  let body := BinaryExpression (AtomExpression "x" ID) minus (AtomExpression "y" ID) in
  let five := AtomExpression "5" INTEGER in
  let three := AtomExpression "3" INTEGER in
  truthy None = false
  ∧ @execute strict_runtime (4 + 3)
      (ApplicationExpression
         (ApplicationExpression (LambdaExpression "x" (LambdaExpression "y" body)) five)
         three) ∅ None
    = mkExec (Return (mkResult LiteralType (IntegerValue 2))) ∅ None.
Proof.
  cbn zeta. split; [reflexivity |].
  etransitivity.
  - exact (@curried_application_binds_in_order strict_runtime 3 "x" "y"
             (BinaryExpression (AtomExpression "x" ID) (mkToken MINUS "-" (0, 0))
                (AtomExpression "y" ID))
             (AtomExpression "5" INTEGER) (AtomExpression "3" INTEGER) ∅ None eq_refl).
  - vm_compute. reflexivity.
Defined.

Lemma self_reference_resolves_witness :
  let plus := mkToken PLUS "+" (0, 0) in
  let one := AtomExpression "1" INTEGER in
  let x_plus_1 := BinaryExpression (AtomExpression "x" ID) plus one in
  let closure : gmap string Expression :=
    {[ "x" := ApplicationExpression (LambdaExpression "x" x_plus_1) one ]} in
  ("x" ∉ free_variables one)
  ∧ @execute strict_runtime (3 + 3) (AtomExpression "x" ID) closure None
    = mkExec (Return (mkResult LiteralType (IntegerValue 2))) closure None.
Proof.
  cbn zeta.
  assert (Hfresh : "x" ∉ free_variables (AtomExpression "1" INTEGER)).
  { cbn [free_variables]. apply not_elem_of_empty. }
  split; [exact Hfresh |].
  etransitivity.
  - apply (@self_reference_resolves strict_runtime 3 "x"
             (BinaryExpression (AtomExpression "x" ID) (mkToken PLUS "+" (0, 0))
                (AtomExpression "1" INTEGER))
             (AtomExpression "1" INTEGER)).
    + reflexivity.
    + reflexivity.
    + exact Hfresh.
  - vm_compute. reflexivity.
Defined.

Lemma assignment_then_reference_witness :
  let one := AtomExpression "1" INTEGER in
  let closure' :=
    closure_after (@Statement_execute strict_runtime 1 (AssignmentStatement ["x"] [one])
                     ∅ None) in
  closure' = {[ "x" := one ]}
  ∧ @execute strict_runtime 2 (AtomExpression "x" ID) closure' None
    = @execute strict_runtime 1 one closure' None.
Proof.
  cbn zeta.
  apply (@assignment_then_reference strict_runtime 1 "x" (AtomExpression "1" INTEGER)
           ∅ None None).
  left. reflexivity.
Defined.

Lemma self_binding_never_returns_witness :
  let closure' :=
    closure_after (@Statement_execute strict_runtime 0
                     (AssignmentStatement ["x"] [AtomExpression "x" ID]) ∅ None) in
  outcome (@execute strict_runtime 50 (AtomExpression "x" ID) closure' None) = OutOfFuel.
Proof.
  cbn zeta.
  apply (@self_binding_never_returns strict_runtime 50 0 "x" ∅ None None).
  reflexivity.
Defined.


Lemma execute_unary_closed_witness :
  let node := UnaryExpression (mkToken NOT "not" (0, 0)) (AtomExpression "true" BOOLEAN) in
  outcome (@execute strict_runtime 2 node ∅ None)
  = Return (mkResult LiteralType (PyBool false)).
Proof.
  cbn zeta.
  apply (@execute_unary_closed strict_runtime (mkToken NOT "not" (0, 0))
           (AtomExpression "true" BOOLEAN) ∅ None 1
           (mkResult LiteralType (BooleanValue true))).
  - cbn [free_variables]. apply (bool_decide_unpack _). vm_compute. reflexivity.
  - reflexivity.
Defined.

Lemma execute_without_pending_arguments_keeps_callstack_witness :
  let identity := LambdaExpression "x" (AtomExpression "x" ID) in
  let node := ApplicationExpression identity (AtomExpression "1" INTEGER) in
  truthy (Some []) = false
  ∧ callstack_after (@execute strict_runtime 4 node ∅ (Some [])) = Some [].
Proof.
  cbn zeta. split; [reflexivity |].
  apply (@execute_without_pending_arguments_keeps_callstack strict_runtime 4).
  reflexivity.
Defined.

(** * Further properties of the scope queries *)

(** X1: for every node, each free and each bound variable is among its
    variables; for a node built without [let] and lambda the three
    queries agree exactly, [variables = free_variables | bound_variables]. *)
Theorem scope_queries_agree_up_to_binders (e : Expression) :
  free_variables e ∪ bound_variables e ⊆ variables e
  ∧ (binder_free e = true → variables e = free_variables e ∪ bound_variables e).
Proof.
  split; [apply free_bound_subseteq_variables | apply binder_free_variables_union].
Qed.

(** X2: a [let] removes its binding identifiers, as whole names, from
    the free variables of its body: an identifier it binds is free in the
    [let] only where an initialiser has it free. *)
Theorem let_binders_free_only_through_initialisers (ids : list string)
    (inits : list Expression) (body : Expression) (name : string) :
  name ∈ ids →
  name ∈ free_variables (LetExpression ids inits body) →
  ∃ init, init ∈ inits ∧ name ∈ free_variables init.
Proof.
  intros Hid. cbn [free_variables].
  rewrite elem_of_union, elem_of_difference, elem_of_union_over.
  intros [[_ Hout] | Hinit]; [| exact Hinit].
  exfalso. apply Hout. unfold set_of_list. apply elem_of_list_to_set. exact Hid.
Qed.

Lemma scope_queries_agree_up_to_binders_witness :
  let node := BinaryExpression (AtomExpression "x" ID) (mkToken PLUS "+" (0, 0))
                (ListExpression [AtomExpression "y" ID; AtomExpression "1" INTEGER]) in
  binder_free node = true
  ∧ variables node = free_variables node ∪ bound_variables node.
Proof.
  cbn zeta. split; [reflexivity |].
  apply (proj2 (scope_queries_agree_up_to_binders
                  (BinaryExpression (AtomExpression "x" ID) (mkToken PLUS "+" (0, 0))
                     (ListExpression [AtomExpression "y" ID; AtomExpression "1" INTEGER])))).
  reflexivity.
Defined.

Lemma let_binders_free_only_through_initialisers_witness :
  let init := AtomExpression "counter" ID in
  let node := LetExpression ["counter"] [init] (AtomExpression "counter" ID) in
  "counter" ∈ free_variables node
  ∧ ∃ init', init' ∈ [init] ∧ "counter" ∈ free_variables init'.
Proof.
  cbn zeta.
  assert (Hfree : "counter" ∈ free_variables
                    (LetExpression ["counter"] [AtomExpression "counter" ID]
                       (AtomExpression "counter" ID))).
  { apply (bool_decide_unpack _). vm_compute. reflexivity. }
  split; [exact Hfree |].
  apply (let_binders_free_only_through_initialisers ["counter"]
           [AtomExpression "counter" ID] (AtomExpression "counter" ID) "counter").
  - apply list_elem_of_here.
  - exact Hfree.
Defined.

(** * Further properties of the scanner *)

Lemma steady_refl s : wf s → steady s s.
Proof. intros Hwf. split; [exact Hwf | split; [apply extends_refl | reflexivity]]. Qed.

Lemma steady_trans s1 s2 s3 : steady s1 s2 → steady s2 s3 → steady s1 s3.
Proof.
  intros (_ & He12 & Hs12) (Hwf3 & He23 & Hs23).
  split; [exact Hwf3 | split; [exact (extends_trans _ _ _ He12 He23) | congruence]].
Qed.

Lemma consume_char_steady s : wf s → steady s (_consume_char s).
Proof.
  intros Hwf. split; [apply wf_consume_char, Hwf |].
  split; [apply consume_char_extends, Hwf |].
  unfold _consume_char. destruct (_reached_end_of_source s 0); [reflexivity |].
  destruct (bool_decide _); reflexivity.
Qed.

Lemma consume_nchars_steady n : ∀ s, wf s → steady s (_consume_nchars s n).
Proof.
  induction n as [| n IH]; intros s Hwf; cbn [_consume_nchars].
  - apply steady_refl, Hwf.
  - eapply steady_trans; [apply consume_char_steady, Hwf |].
    apply IH, wf_consume_char, Hwf.
Qed.

Lemma consume_while_steady test budget :
  ∀ s, wf s → steady s (consume_while test budget s).
Proof.
  induction budget as [| n IH]; intros s Hwf; cbn [consume_while].
  - apply steady_refl, Hwf.
  - destruct (test s); [| apply steady_refl, Hwf].
    eapply steady_trans; [apply consume_char_steady, Hwf |].
    apply IH, wf_consume_char, Hwf.
Qed.

Lemma consume_integer_part_steady must budget :
  ∀ s, wf s →
       steady s (snd (consume_integer_part must budget s))
       ∧ fst (consume_integer_part must budget s) ≠ OutOfFuel.
Proof.
  induction budget as [| n IH]; intros s Hwf; cbn [consume_integer_part].
  - split; [apply steady_refl, Hwf | discriminate].
  - destruct (_is_num_char s); [| split; [apply steady_refl, Hwf | discriminate]].
    destruct (must && negb (_match s "0"));
      [split; [apply steady_refl, Hwf | discriminate] |].
    destruct (IH (_consume_char s) (wf_consume_char s Hwf)) as [Hst Hne].
    split; [| exact Hne].
    eapply steady_trans; [apply consume_char_steady, Hwf | exact Hst].
Qed.

Lemma consume_char_next s :
  wf s → _source_pos s < _source_len s →
  _source_pos (_consume_char s) = _source_pos s + 1.
Proof.
  intros Hwf Hlt. destruct (lookup_current s Hwf Hlt) as [c Hc].
  apply (consume_char_advances s c Hwf Hc).
Qed.

Section ScanningOrder.
Context `{TokenTables}.

Lemma scan_type_steady s :
  wf s →
  fst (scan_type s) ≠ OutOfFuel
  ∧ steady s (snd (scan_type s))
  ∧ (∀ type_, fst (scan_type s) = Return type_ →
              steady (_consume_char s) (snd (scan_type s))).
Proof.
  intros Hwf.
  pose proof (consume_char_steady s Hwf) as H1.
  pose proof (wf_consume_char s Hwf) as Hwf1.
  assert (Hvia : ∀ r : Outcome TokenTypes * QuarkScanner,
             fst r ≠ OutOfFuel → steady (_consume_char s) (snd r) →
             fst r ≠ OutOfFuel ∧ steady s (snd r)
             ∧ (∀ type_, fst r = Return type_ → steady (_consume_char s) (snd r))).
  { intros r Hne Hst. split; [exact Hne |].
    split; [exact (steady_trans _ _ _ H1 Hst) | intros; exact Hst]. }
  assert (Hsuffix : ∀ s0 (type_ : TokenTypes),
             steady (_consume_char s) s0 →
             let r := if _match s0 "im" then (Return COMPLEX, _consume_nchars s0 2)
                      else (Return type_, s0) in
             fst r ≠ OutOfFuel ∧ steady (_consume_char s) (snd r)).
  { intros s0 type_ Hst. destruct (_match s0 "im"); cbn [fst snd].
    - split; [discriminate |]. eapply steady_trans; [exact Hst |].
      apply consume_nchars_steady, Hst.
    - split; [discriminate | exact Hst]. }
  unfold scan_type.
  destruct (_is_num_char s).
  { destruct (consume_integer_part_steady (_match s "0") (chars_left (_consume_char s))
                (_consume_char s) Hwf1) as [Hst2 Hne2].
    destruct (consume_integer_part _ _ (_consume_char s)) as [o s2].
    cbn [fst snd] in Hst2, Hne2.
    destruct o as [[] | x |]; [| apply Hvia; [discriminate | exact Hst2] | congruence].
    destruct (_match s2 ".").
    - apply Hvia; apply Hsuffix.
      + eapply steady_trans; [exact Hst2 |].
        eapply steady_trans; [apply consume_char_steady, Hst2 |].
        apply consume_while_steady, wf_consume_char, Hst2.
      + eapply steady_trans; [exact Hst2 |].
        eapply steady_trans; [apply consume_char_steady, Hst2 |].
        apply consume_while_steady, wf_consume_char, Hst2.
    - apply Hvia; apply Hsuffix; exact Hst2. }
  destruct (_match s ".").
  { destruct (_is_num_char (_consume_char s)).
    - assert (Hst3 : steady (_consume_char s)
                       (consume_while _is_num_char
                          (chars_left (_consume_char (_consume_char s)))
                          (_consume_char (_consume_char s)))).
      { eapply steady_trans; [apply consume_char_steady, Hwf1 |].
        apply consume_while_steady, wf_consume_char, Hwf1. }
      apply Hvia; apply (Hsuffix _ REAL Hst3).
    - apply Hvia; [discriminate | apply steady_refl, Hwf1]. }
  destruct (in_keys (_current_nchars s 3) triple_char_tokens).
  { destruct (table_lookup_state triple_char_tokens (_consume_nchars s 3)) as [Hst Hne].
    apply Hvia; [exact Hne |]. rewrite Hst.
    apply (consume_nchars_steady 2 (_consume_char s) Hwf1). }
  destruct (in_keys (_current_nchars s 2) double_char_tokens).
  { destruct (table_lookup_state double_char_tokens (_consume_nchars s 2)) as [Hst Hne].
    apply Hvia; [exact Hne |]. rewrite Hst.
    apply (consume_nchars_steady 1 (_consume_char s) Hwf1). }
  destruct (in_keys _ single_char_tokens).
  { destruct (table_lookup_state single_char_tokens (_consume_char s)) as [Hst Hne].
    apply Hvia; [exact Hne |]. rewrite Hst. apply steady_refl, Hwf1. }
  destruct (_is_id_start s).
  { assert (Hst : steady (_consume_char s)
                    (consume_while _is_id_char (chars_left (_consume_char s))
                       (_consume_char s))) by apply consume_while_steady, Hwf1.
    destruct (keyword_tokens !! _); apply Hvia; cbn [fst snd];
      first [discriminate | exact Hst]. }
  cbn [fst snd]. split; [discriminate |].
  split; [apply steady_refl, Hwf | intros; discriminate].
Qed.

Lemma next_token_plain s :
  _is_skippable s = false → next_token s = emit (_current_pos s) s.
Proof. intros Hs. unfold next_token, emit. rewrite Hs. reflexivity. Qed.

Lemma next_token_blank s :
  _is_skippable s = true →
  next_token s
  = (let s2 := consume_while _is_skippable (chars_left (_consume_char s))
                 (_consume_char s) in
     if _ignore_skippables s2 then
       if _reached_end_of_source (_discard_consumed_chars s2) 0
       then (Return None, _discard_consumed_chars s2)
       else emit (_current_pos s) (_discard_consumed_chars s2)
     else (Return (Some (mkToken SKIP (_consumed_chars s2) (_current_pos s))),
           _discard_consumed_chars s2)).
Proof. intros Hs. unfold next_token, emit. rewrite Hs. reflexivity. Qed.

Lemma emit_steady (pos0 : nat * nat) s :
  wf s →
  fst (emit pos0 s) ≠ OutOfFuel
  ∧ wf (snd (emit pos0 s))
  ∧ extends s (snd (emit pos0 s))
  ∧ (∀ r, fst (emit pos0 s) = Return r →
          (∃ type_,
             r = Some (mkToken type_
                         (slice (_source s) (_source_start s)
                            (_source_pos (snd (emit pos0 s)))) pos0))
          ∧ fresh (snd (emit pos0 s))
          ∧ (_source_pos s < _source_len s →
             _source_pos s < _source_pos (snd (emit pos0 s)))).
Proof.
  intros Hwf. destruct (scan_type_steady s Hwf) as (Hne & Hst & Hadv).
  unfold emit. destruct (scan_type s) as [o s']. cbn [fst snd] in Hne, Hst, Hadv.
  destruct Hst as (Hwf' & Hext & Hstart).
  destruct o as [type_ | x |]; cbn [fst snd]; [| | congruence].
  - split; [discriminate |]. split; [exact Hwf' |]. split.
    { destruct Hext as (? & ? & ? & ?). unfold extends; simpl. auto. }
    intros r [= <-]. split; [| split].
    + exists type_. unfold _consumed_chars. destruct Hext as (-> & _).
      rewrite Hstart. reflexivity.
    + reflexivity.
    + intros Hlt. simpl. destruct (Hadv type_ eq_refl) as (_ & (_ & _ & _ & Hpos) & _).
      rewrite (consume_char_next s Hwf Hlt) in Hpos. lia.
  - split; [discriminate |]. split; [exact Hwf' |]. split; [exact Hext |].
    intros r [=].
Qed.

Lemma next_token_progress_any s :
  wf s →
  fst (next_token s) ≠ OutOfFuel
  ∧ wf (snd (next_token s))
  ∧ extends s (snd (next_token s))
  ∧ (∀ r, _source_pos s < _source_len s →
          fst (next_token s) = Return r →
          _source_pos s < _source_pos (snd (next_token s))).
Proof.
  intros Hwf.
  destruct (_is_skippable s) eqn:Hskip.
  - rewrite (next_token_blank s Hskip). cbn zeta.
    destruct (test_current_char_true _ _ Hwf Hskip) as (c & Hc & _).
    destruct (consume_char_advances s c Hwf Hc) as (_ & _ & _ & Hpos1).
    pose proof (consume_char_steady s Hwf) as Hst1.
    pose proof (consume_while_steady _is_skippable (chars_left (_consume_char s))
                  (_consume_char s) (wf_consume_char s Hwf)) as Hst2.
    pose proof (steady_trans _ _ _ Hst1 Hst2) as (Hwf2 & Hext2 & _).
    destruct Hst2 as (_ & (_ & _ & _ & Hpos2) & _).
    set (s2 := consume_while _is_skippable (chars_left (_consume_char s))
                 (_consume_char s)) in *.
    assert (Hext2' : extends s (_discard_consumed_chars s2)).
    { destruct Hext2 as (? & ? & ? & ?). unfold extends; simpl. auto. }
    destruct (_ignore_skippables s2).
    + destruct (_reached_end_of_source (_discard_consumed_chars s2) 0).
      * cbn [fst snd]. split; [discriminate |]. split; [exact Hwf2 |].
        split; [exact Hext2' |]. intros r _ _. simpl. lia.
      * destruct (emit_steady (_current_pos s) (_discard_consumed_chars s2) Hwf2)
          as (Hne & Hwf' & Hext' & _).
        split; [exact Hne |]. split; [exact Hwf' |].
        split; [exact (extends_trans _ _ _ Hext2' Hext') |].
        intros r _ _. destruct Hext' as (_ & _ & _ & Hpos'). simpl in Hpos'. lia.
    + cbn [fst snd]. split; [discriminate |]. split; [exact Hwf2 |].
      split; [exact Hext2' |]. intros r _ _. simpl. lia.
  - rewrite (next_token_plain s Hskip).
    destruct (emit_steady (_current_pos s) s Hwf) as (Hne & Hwf' & Hext' & Hret).
    split; [exact Hne |]. split; [exact Hwf' |]. split; [exact Hext' |].
    intros r Hlt Hr. apply (Hret r Hr), Hlt.
Qed.

(** X15: [next_token] keeps the scanner sound.  It comes to an end; the
    source text, its length and the whitespace flag are unchanged and
    the position stays within the text, whether the call returns or
    raises; and a call that returns before the end of the source has
    consumed at least one character. *)
Theorem next_token_keeps_scanner_sound (s : QuarkScanner) :
  wf s →
  ((∃ r, fst (next_token s) = Return r) ∨ (∃ x, fst (next_token s) = Raise x))
  ∧ wf (snd (next_token s))
  ∧ extends s (snd (next_token s))
  ∧ (∀ r, _source_pos s < _source_len s →
          fst (next_token s) = Return r →
          _source_pos s < _source_pos (snd (next_token s))).
Proof.
  intros Hwf. destruct (next_token_progress_any s Hwf) as (Hne & Hwf' & Hext & Hadv).
  split; [| split; [exact Hwf' | split; [exact Hext | exact Hadv]]].
  destruct (fst (next_token s)) as [r | x |]; [eauto | eauto | congruence].
Qed.

Lemma tokens_loop_ends budget :
  ∀ s toks, wf s → chars_left s ≤ budget →
            fst (tokens_loop budget s toks) ≠ OutOfFuel.
Proof.
  induction budget as [| n IH]; intros s toks Hwf Hbudget; cbn [tokens_loop].
  - destruct Hwf as [_ Hle]. unfold chars_left in Hbudget.
    rewrite (proj2 (reached_end_iff s)) by lia. discriminate.
  - destruct (_reached_end_of_source s 0) eqn:Hend; [discriminate |].
    assert (Hlt : _source_pos s < _source_len s).
    { destruct Hwf as [_ Hle]. destruct (decide (_source_pos s = _source_len s)) as [E | E].
      - apply reached_end_iff in E. congruence.
      - lia. }
    destruct (next_token_progress_any s Hwf) as (Hne & Hwf' & Hext & Hadv).
    destruct (next_token s) as [o s1]. cbn [fst snd] in *.
    destruct o as [t | x |]; [| discriminate | congruence].
    apply IH; [exact Hwf' |]. specialize (Hadv t Hlt eq_refl).
    destruct Hext as (_ & Hlen & _). unfold chars_left in *. lia.
Qed.

(** X16: [tokens] comes to an end on every source text and with either
    setting of the whitespace flag: it returns a list or it raises. *)
Theorem tokens_always_ends (source : string) (ignore_skippables : bool) :
  (∃ toks, fst (tokens (QuarkScanner_new source ignore_skippables)) = Return toks)
  ∨ (∃ x, fst (tokens (QuarkScanner_new source ignore_skippables)) = Raise x).
Proof.
  pose proof (tokens_loop_ends (chars_left (QuarkScanner_new source ignore_skippables))
                (QuarkScanner_new source ignore_skippables) []
                (wf_new source ignore_skippables) (le_n _)) as Hne.
  unfold tokens.
  destruct (fst (tokens_loop _ _ _)) as [toks | x |]; [eauto | eauto | congruence].
Qed.

Lemma string_of_list_ascii_app (l1 l2 : list ascii) :
  string_of_list_ascii (l1 ++ l2)
  = (string_of_list_ascii l1 ++ string_of_list_ascii l2)%string.
Proof. induction l1 as [| c l1 IH]; [reflexivity |]. simpl. rewrite IH. reflexivity. Qed.

Lemma slice_app source a b c :
  a ≤ b → b ≤ c →
  (slice source a b ++ slice source b c)%string = slice source a c.
Proof.
  intros Hab Hbc. unfold slice. rewrite <- string_of_list_ascii_app. f_equal.
  replace (c - a) with ((b - a) + (c - b)) by lia.
  rewrite <- take_take_drop, drop_drop. repeat f_equal. lia.
Qed.

Lemma next_token_lexeme s :
  wf s → fresh s → _ignore_skippables s = false →
  _source_pos s < _source_len s →
  ∀ r, fst (next_token s) = Return r →
       ∃ tok, r = Some tok
              ∧ raw tok = slice (_source s) (_source_pos s)
                            (_source_pos (snd (next_token s)))
              ∧ fresh (snd (next_token s)).
Proof.
  intros Hwf Hfresh Hign Hlt r.
  destruct (_is_skippable s) eqn:Hskip.
  - rewrite (next_token_blank s Hskip). cbn zeta.
    pose proof (consume_char_steady s Hwf) as Hst1.
    pose proof (consume_while_steady _is_skippable (chars_left (_consume_char s))
                  (_consume_char s) (wf_consume_char s Hwf)) as Hst2.
    pose proof (steady_trans _ _ _ Hst1 Hst2) as (_ & (Hsrc & _ & Hign2 & _) & Hstart).
    set (s2 := consume_while _is_skippable (chars_left (_consume_char s))
                 (_consume_char s)) in *.
    rewrite Hign2, Hign. cbn [fst snd]. intros [= <-].
    eexists. split; [reflexivity |]. cbn [raw]. split; [| reflexivity].
    unfold _consumed_chars. rewrite Hsrc, Hstart, Hfresh. reflexivity.
  - rewrite (next_token_plain s Hskip).
    destruct (emit_steady (_current_pos s) s Hwf) as (_ & _ & _ & Hret).
    intros Hr. destruct (Hret r Hr) as ((type_ & ->) & Hfresh' & _).
    eexists. split; [reflexivity |]. cbn [raw]. rewrite Hfresh.
    split; [reflexivity | exact Hfresh'].
Qed.

Lemma tokens_loop_lexemes budget :
  ∀ s toks out,
    wf s → fresh s → _ignore_skippables s = false →
    fst (tokens_loop budget s toks) = Return out →
    ∃ found, out = toks ++ (Some <$> found)
             ∧ lexemes found = slice (_source s) (_source_pos s) (_source_len s).
Proof.
  induction budget as [| n IH]; intros s toks out Hwf Hfresh Hign; cbn [tokens_loop].
  - destruct (_reached_end_of_source s 0) eqn:Hend; [| discriminate].
    apply reached_end_iff in Hend. cbn [fst]. intros [= <-]. exists [].
    split; [cbn; by rewrite app_nil_r |].
    unfold slice. rewrite Hend, Nat.sub_diag. reflexivity.
  - destruct (_reached_end_of_source s 0) eqn:Hend.
    { apply reached_end_iff in Hend. cbn [fst]. intros [= <-]. exists [].
      split; [cbn; by rewrite app_nil_r |].
      unfold slice. rewrite Hend, Nat.sub_diag. reflexivity. }
    assert (Hlt : _source_pos s < _source_len s).
    { destruct Hwf as [_ Hle]. destruct (decide (_source_pos s = _source_len s)) as [E | E].
      - apply reached_end_iff in E. congruence.
      - lia. }
    destruct (next_token_progress_any s Hwf) as (_ & Hwf' & Hext & Hadv).
    pose proof (next_token_lexeme s Hwf Hfresh Hign Hlt) as Hlex.
    destruct (next_token s) as [o s1]. cbn [fst snd] in *.
    destruct o as [t | x |]; [| discriminate | discriminate].
    destruct (Hlex t eq_refl) as (tok & -> & Hraw & Hfresh1).
    specialize (Hadv (Some tok) Hlt eq_refl).
    destruct Hext as (Hsrc & Hlen & Hign1 & _).
    intros Hout.
    destruct (IH s1 (toks ++ [Some tok]) out Hwf' Hfresh1) as (found & -> & Hfound);
      [congruence | exact Hout |].
    exists (tok :: found). split; [by rewrite <- app_assoc |].
    cbn [lexemes foldr]. fold (lexemes found). rewrite Hfound, Hraw, Hsrc, Hlen.
    apply slice_app; [lia |]. destruct Hwf' as [_ Hle]. lia.
Qed.

(** X17: with [ignore_skippables] off, scanning loses nothing.  When
    [tokens] returns, every element of the list is a token (none is
    [None]) and the lexemes of the tokens, joined in order, are the
    source text. *)
Theorem tokens_lexemes_rebuild_source (source : string)
    (toks : list (option Token)) :
  fst (tokens (QuarkScanner_new source false)) = Return toks →
  ∃ found, toks = Some <$> found ∧ lexemes found = source.
Proof.
  intros Hret.
  destruct (tokens_loop_lexemes (chars_left (QuarkScanner_new source false))
              (QuarkScanner_new source false) [] toks (wf_new source false) eq_refl
              eq_refl Hret) as (found & -> & Hfound).
  exists found. split; [reflexivity |]. rewrite Hfound.
  unfold slice, QuarkScanner_new; cbn [_source _source_pos _source_len].
  rewrite Nat.sub_0_r, drop_0, take_ge by (rewrite length_list_ascii_of_string; lia).
  apply string_of_list_ascii_of_string.
Qed.

End ScanningOrder.

(** ** Exact scans *)

Lemma advance_by_0 s : advance_by s 0 = s.
Proof. destruct s. unfold advance_by; simpl. f_equal; lia. Qed.

Lemma advance_by_add s a b : advance_by (advance_by s a) b = advance_by s (a + b).
Proof. unfold advance_by; simpl. f_equal; lia. Qed.

Lemma wf_advance_by s k :
  wf s → _source_pos s + k ≤ _source_len s → wf (advance_by s k).
Proof. intros [Hlen _] Hk. split; simpl; [exact Hlen | exact Hk]. Qed.

Lemma drop_lookup_head (source : list ascii) p c rest :
  drop p source = c :: rest → source !! p = Some c ∧ drop (S p) source = rest.
Proof.
  intros Hd. assert (Hc : source !! p = Some c).
  { rewrite <- (Nat.add_0_r p), <- lookup_drop, Hd. reflexivity. }
  split; [exact Hc |]. rewrite (drop_S _ _ _ Hc) in Hd. congruence.
Qed.

Lemma drop_length_le (source : list ascii) p (l : list ascii) :
  drop p source = l → p + length l ≤ length source ∨ l = [].
Proof.
  intros <-. rewrite length_drop. destruct (decide (p ≤ length source)); [left; lia |].
  right. apply drop_ge. lia.
Qed.

Lemma consume_char_advance s c rest :
  wf s → drop (_source_pos s) (_source s) = c :: rest → c ≠ newline →
  _consume_char s = advance_by s 1.
Proof.
  intros Hwf Hd Hnl. destruct (drop_lookup_head _ _ _ _ Hd) as [Hc _].
  unfold _consume_char.
  rewrite not_reached_end by (destruct Hwf as [Hl _]; apply lookup_lt_Some in Hc; lia).
  rewrite (current_char_lookup s c Hwf Hc).
  rewrite bool_decide_eq_false_2 by congruence. reflexivity.
Qed.

Lemma test_current_char_drop test s :
  wf s →
  test_current_char test s
  = match drop (_source_pos s) (_source s) with
    | c :: _ => test c
    | [] => false
    end.
Proof.
  intros Hwf. destruct (drop (_source_pos s) (_source s)) as [| c rest] eqn:Hd.
  - unfold test_current_char, _current_char.
    destruct (_reached_end_of_source s 0); [reflexivity |].
    rewrite <- (Nat.add_0_r (_source_pos s)), <- lookup_drop, Hd. reflexivity.
  - destruct (drop_lookup_head _ _ _ _ Hd) as [Hc _].
    apply test_current_char_lookup; assumption.
Qed.

Lemma chars_left_step s c rest :
  wf s → drop (_source_pos s) (_source s) = c :: rest →
  chars_left s = S (chars_left (advance_by s 1))
  ∧ wf (advance_by s 1)
  ∧ drop (_source_pos (advance_by s 1)) (_source (advance_by s 1)) = rest.
Proof.
  intros Hwf Hd. destruct (drop_lookup_head _ _ _ _ Hd) as [Hc Hrest].
  pose proof Hwf as [Hl _]. apply lookup_lt_Some in Hc.
  split; [unfold chars_left; simpl; lia |].
  split; [apply wf_advance_by; [exact Hwf | lia] |].
  simpl. rewrite Nat.add_1_r. exact Hrest.
Qed.

(** A loop [while test(): consume] over a run of characters that pass
    the test, followed by one that does not or by the end. *)
Lemma consume_while_run (q : ascii → bool) (run : list ascii) :
  q newline = false →
  ∀ s rest,
    wf s →
    drop (_source_pos s) (_source s) = run ++ rest →
    Forall (λ c, q c = true) run →
    (∀ c, head rest = Some c → q c = false) →
    consume_while (test_current_char q) (chars_left s) s = advance_by s (length run).
Proof.
  intros Hnl. induction run as [| c run IH]; intros s rest Hwf Hd Hrun Hstop.
  - cbn [length]. rewrite advance_by_0.
    destruct (chars_left s) as [| n]; [reflexivity |]. cbn [consume_while].
    rewrite (test_current_char_drop q s Hwf), Hd. cbn [app].
    destruct rest as [| c rest]; [reflexivity |]. rewrite (Hstop c eq_refl). reflexivity.
  - apply Forall_cons in Hrun as [Hc Hrun]. cbn [app] in Hd.
    destruct (chars_left_step s c _ Hwf Hd) as (Hleft & Hwf1 & Hd1).
    rewrite Hleft. cbn [consume_while].
    rewrite (test_current_char_drop q s Hwf), Hd, Hc.
    rewrite (consume_char_advance s c _ Hwf Hd) by congruence.
    rewrite (IH (advance_by s 1) rest Hwf1 Hd1 Hrun Hstop).
    rewrite advance_by_add. reflexivity.
Qed.

Lemma reached_end_discard s off :
  _reached_end_of_source (_discard_consumed_chars s) off = _reached_end_of_source s off.
Proof. reflexivity. Qed.

Lemma drop_advance s k (pre post : list ascii) :
  drop (_source_pos s) (_source s) = pre ++ post → length pre = k →
  drop (_source_pos (advance_by s k)) (_source (advance_by s k)) = post.
Proof.
  intros Hd Hk. cbn [_source_pos _source advance_by].
  rewrite <- drop_drop, Hd. apply drop_app_length'. congruence.
Qed.

Lemma wf_advance_drop s k (pre post : list ascii) :
  wf s → drop (_source_pos s) (_source s) = pre ++ post → length pre = k →
  wf (advance_by s k).
Proof.
  intros Hwf Hd Hk. apply wf_advance_by; [exact Hwf |].
  pose proof (f_equal (@length ascii) Hd) as Hz.
  rewrite length_drop, length_app in Hz. destruct Hwf as [Hl Hp]. lia.
Qed.

Lemma match_prefix s (str : string) (rest : list ascii) :
  wf s → str ≠ EmptyString →
  drop (_source_pos s) (_source s) = list_ascii_of_string str ++ rest →
  _match s str = true.
Proof.
  intros [Hl Hp] Hne Hd. unfold _match.
  pose proof (f_equal (@length ascii) Hd) as Hz.
  rewrite length_drop, length_app, length_list_ascii_of_string in Hz.
  assert (Hpos : 0 < String.length str) by (destruct str; [contradiction | simpl; lia]).
  assert (Hreach : _reached_end_of_source s (String.length str - 1) = false).
  { unfold _reached_end_of_source. apply Z.eqb_neq. lia. }
  rewrite Hreach. apply bool_decide_eq_true_2. unfold slice.
  replace (_source_pos s + String.length str - _source_pos s)
    with (length (list_ascii_of_string str))
    by (rewrite length_list_ascii_of_string; lia).
  rewrite Hd, take_app_length. apply string_of_list_ascii_of_string.
Qed.

Lemma match_no_prefix s (str : string) :
  (∀ rest, drop (_source_pos s) (_source s) ≠ list_ascii_of_string str ++ rest) →
  _match s str = false.
Proof.
  intros Hno. unfold _match.
  destruct (_reached_end_of_source s (String.length str - 1)); [reflexivity |].
  apply bool_decide_eq_false_2. intros Heq. unfold slice in Heq.
  apply (f_equal list_ascii_of_string) in Heq.
  rewrite list_ascii_of_string_of_list_ascii in Heq.
  apply (Hno (drop (_source_pos s + String.length str - _source_pos s)
                (drop (_source_pos s) (_source s)))).
  rewrite <- Heq. symmetry. apply take_drop.
Qed.

Lemma consume_nchars_run (run : list ascii) :
  ∀ s rest,
    wf s → drop (_source_pos s) (_source s) = run ++ rest →
    Forall (λ c, c ≠ newline) run →
    _consume_nchars s (length run) = advance_by s (length run).
Proof.
  induction run as [| c run IH]; intros s rest Hwf Hd Hrun; cbn [length _consume_nchars].
  - symmetry. apply advance_by_0.
  - apply Forall_cons in Hrun as [Hc Hrun]. cbn [app] in Hd.
    destruct (chars_left_step s c _ Hwf Hd) as (_ & Hwf1 & Hd1).
    rewrite (consume_char_advance s c _ Hwf Hd Hc).
    rewrite (IH (advance_by s 1) rest Hwf1 Hd1 Hrun), advance_by_add. reflexivity.
Qed.

(** The digit loop of an integer part over a run of digits. *)
Lemma consume_integer_part_run (must : bool) (run : list ascii) :
  ∀ s rest,
    wf s →
    drop (_source_pos s) (_source s) = run ++ rest →
    Forall (λ c, num_char c = true) run →
    (must = true → Forall (λ c, c = "0"%char) run) →
    (∀ c, head rest = Some c → num_char c = false) →
    consume_integer_part must (chars_left s) s = (Return tt, advance_by s (length run)).
Proof.
  induction run as [| c run IH]; intros s rest Hwf Hd Hrun Hzero Hstop.
  - cbn [length]. rewrite advance_by_0.
    destruct (chars_left s) as [| n]; [reflexivity |]. cbn [consume_integer_part].
    unfold _is_num_char. rewrite (test_current_char_drop num_char s Hwf), Hd. cbn [app].
    destruct rest as [| c rest]; [reflexivity |]. rewrite (Hstop c eq_refl). reflexivity.
  - apply Forall_cons in Hrun as [Hc Hrun]. cbn [app] in Hd.
    destruct (chars_left_step s c _ Hwf Hd) as (Hleft & Hwf1 & Hd1).
    destruct (drop_lookup_head _ _ _ _ Hd) as [Hlook _].
    rewrite Hleft. cbn [consume_integer_part].
    unfold _is_num_char. rewrite (test_current_char_drop num_char s Hwf), Hd, Hc.
    rewrite (match_one_char s c "0"%char Hwf Hlook).
    assert (Hgo : must && negb (bool_decide (c = "0"%char)) = false).
    { destruct must; [| reflexivity].
      pose proof (Forall_inv (Hzero eq_refl)) as Hz. cbn beta in Hz.
      rewrite bool_decide_eq_true_2 by exact Hz. reflexivity. }
    rewrite Hgo.
    assert (Hnl : c ≠ newline) by (intros ->; discriminate).
    rewrite (consume_char_advance s c _ Hwf Hd Hnl).
    rewrite (IH (advance_by s 1) rest Hwf1 Hd1 Hrun); [| | exact Hstop].
    + rewrite advance_by_add. reflexivity.
    + intros Hm. exact (Forall_inv_tail (Hzero Hm)).
Qed.

Lemma id_start_char_plain c :
  id_start_char c = true →
  num_char c = false ∧ c ≠ "."%char ∧ skippable_char c = false ∧ c ≠ newline.
Proof.
  intros Hc. repeat split.
  - destruct c as [[] [] [] [] [] [] [] []]; try reflexivity; discriminate.
  - intros ->. discriminate.
  - apply (not_skippable id_start_char); [reflexivity | reflexivity | exact Hc].
  - intros ->. discriminate.
Qed.

Lemma consume_nchars_pos n :
  ∀ s, wf s → _source_pos s + n ≤ _source_len s →
       _source_pos (_consume_nchars s n) = _source_pos s + n.
Proof.
  induction n as [| n IH]; intros s Hwf Hn; cbn [_consume_nchars]; [lia |].
  pose proof (consume_char_next s Hwf ltac:(lia)) as Hpos.
  pose proof (consume_char_steady s Hwf) as (Hwf1 & (_ & Hlen & _) & _).
  rewrite IH; [lia | exact Hwf1 | lia].
Qed.

Lemma match_im s :
  wf s → _match s "im" = starts_with_im (drop (_source_pos s) (_source s)).
Proof.
  intros Hwf.
  destruct (drop (_source_pos s) (_source s)) as [| c1 [| c2 rest]] eqn:Hd;
    cbn [starts_with_im].
  - apply match_no_prefix. intros rest. rewrite Hd. discriminate.
  - apply match_no_prefix. intros rest. rewrite Hd. discriminate.
  - destruct (decide (c1 = "i"%char)) as [-> | H1];
      [destruct (decide (c2 = "m"%char)) as [-> | H2] |].
    + rewrite !bool_decide_eq_true_2 by reflexivity.
      apply (match_prefix s "im" rest Hwf); [discriminate | exact Hd].
    + rewrite (bool_decide_eq_false_2 (c2 = "m"%char)) by exact H2.
      rewrite andb_false_r. apply match_no_prefix. intros r. rewrite Hd.
      cbn. intros [= E]. congruence.
    + rewrite (bool_decide_eq_false_2 (c1 = "i"%char)) by exact H1.
      apply match_no_prefix. intros r. rewrite Hd. cbn. intros [= E _]. congruence.
Qed.

Lemma consumed_chars_advance s k (pre post : list ascii) :
  fresh s → drop (_source_pos s) (_source s) = pre ++ post → k = length pre →
  _consumed_chars (advance_by s k) = string_of_list_ascii pre.
Proof.
  intros Hfresh Hd ->. unfold _consumed_chars, slice.
  cbn [_source _source_start _source_pos advance_by]. rewrite Hfresh.
  replace (_source_pos s + length pre - _source_pos s) with (length pre) by lia.
  rewrite Hd, take_app_length. reflexivity.
Qed.

Lemma starts_with_im_inv rest :
  starts_with_im rest = true → ∃ rest', rest = "i"%char :: "m"%char :: rest'.
Proof.
  destruct rest as [| c1 [| c2 rest']]; cbn [starts_with_im]; try discriminate.
  intros Him. apply andb_true_iff in Him as [H1 H2].
  apply bool_decide_eq_true in H1, H2. subst. eauto.
Qed.

Section ExactScans.
Context `{TokenTables}.

(** X20: a run of blanks before the next token, or before the end.
    With the whitespace flag off the run is one SKIP token; with the
    flag on the run is dropped and the call goes on to the next token in
    the same call, building it with the position of the first blank
    where a call made after the blanks would give the token its own
    position; and before the end of the source the call returns
    [None]. *)
Theorem next_token_over_blanks (s : QuarkScanner) (blank : ascii)
    (blanks rest : list ascii) :
  wf s →
  drop (_source_pos s) (_source s) = (blank :: blanks) ++ rest →
  Forall (λ c, skippable_char c = true) (blank :: blanks) →
  (∀ c, head rest = Some c → skippable_char c = false) →
  let after := _discard_consumed_chars (advance_by s (S (length blanks))) in
  next_token s
  = (if _ignore_skippables s then
       match rest with
       | [] => (Return None, after)
       | _ :: _ => emit (_column_pos s, _line_pos s) after
       end
     else
       (Return (Some (mkToken SKIP
                        (slice (_source s) (_source_start s)
                           (_source_pos s + S (length blanks)))
                        (_column_pos s, _line_pos s))),
        after))
  ∧ (rest ≠ [] →
     next_token after = emit (_column_pos s + S (length blanks), _line_pos s) after).
Proof.
  intros Hwf Hd Hrun Hstop after.
  assert (Hnl : skippable_char newline = false) by reflexivity.
  pose proof (Forall_inv Hrun) as Hblank. cbn beta in Hblank.
  assert (Hskip : _is_skippable s = true).
  { unfold _is_skippable. rewrite (test_current_char_drop _ s Hwf), Hd. exact Hblank. }
  cbn [app] in Hd.
  destruct (chars_left_step s blank _ Hwf Hd) as (_ & Hwf1 & Hd1).
  assert (Hloop : consume_while _is_skippable (chars_left (_consume_char s))
                    (_consume_char s) = advance_by s (S (length blanks))).
  { rewrite (consume_char_advance s blank _ Hwf Hd) by congruence.
    unfold _is_skippable.
    rewrite (consume_while_run skippable_char blanks Hnl (advance_by s 1) rest Hwf1 Hd1
               (Forall_inv_tail Hrun) Hstop).
    rewrite advance_by_add. reflexivity. }
  assert (Hafter : drop (_source_pos after) (_source after) = rest).
  { unfold after. cbn [_source_pos _source _discard_consumed_chars advance_by].
    rewrite <- drop_drop, Hd. cbn [drop]. apply drop_app_length. }
  split.
  - rewrite (next_token_blank s Hskip). cbn zeta. rewrite Hloop.
    change (_ignore_skippables (advance_by s (S (length blanks))))
      with (_ignore_skippables s).
    destruct (_ignore_skippables s); [| reflexivity].
    fold after. destruct rest as [| c rest].
    + assert (Hend : _source_pos after = _source_len after).
      { apply drop_length_le in Hd. destruct Hd as [Hd | Hd]; [| discriminate].
        cbn [length] in Hd. rewrite length_app in Hd. cbn [length] in Hd.
        destruct Hwf as [Hl _]. unfold after; simpl.
        pose proof (f_equal (@length ascii) Hafter) as Hz. unfold after in Hz; simpl in Hz.
        rewrite length_drop in Hz. cbn [length] in Hz. lia. }
      rewrite (proj2 (reached_end_iff after) Hend). reflexivity.
    + assert (Hlt : _source_pos after < _source_len after).
      { pose proof (f_equal (@length ascii) Hafter) as Hz. rewrite length_drop in Hz.
        cbn [length] in Hz. destruct Hwf as [Hl _].
        change (_source after) with (_source s) in Hz.
        change (_source_len after) with (_source_len s). lia. }
      rewrite (not_reached_end after Hlt). reflexivity.
  - intros Hrest. rewrite next_token_plain; [reflexivity |].
    assert (Hwfa : wf after).
    { unfold after. split; [apply Hwf |]. simpl.
      pose proof (f_equal (@length ascii) Hd) as Hz. rewrite length_drop in Hz.
      cbn [length] in Hz. rewrite length_app in Hz. destruct Hwf as [Hl Hp]. lia. }
    unfold _is_skippable. rewrite (test_current_char_drop _ after Hwfa), Hafter.
    destruct rest as [| c rest]; [contradiction |]. apply Hstop. reflexivity.
Qed.

(** X22: a call of [next_token] when the source is used up (so also on
    the empty source) does not return the end-of-input marker: it raises
    the invalid-character error, with [None] as the character.  (The
    empty string is assumed to be no punctuation lexeme.) *)
Theorem next_token_at_end_raises (s : QuarkScanner) :
  wf s →
  _source_pos s = _source_len s →
  double_char_tokens !! EmptyString = None →
  triple_char_tokens !! EmptyString = None →
  next_token s = (Raise (QuarkScannerError (invalid_character None)), s).
Proof.
  intros [Hlen _] Hend H2 H3.
  pose proof (proj2 (reached_end_iff s) Hend) as Hreached.
  assert (Htest : ∀ q, test_current_char q s = false).
  { intros q. unfold test_current_char. rewrite Hreached. reflexivity. }
  rewrite next_token_plain by apply Htest. unfold emit, scan_type.
  unfold _is_num_char, _is_id_start. rewrite !Htest.
  assert (Hdot : _match s "." = false).
  { unfold _match. cbn [String.length Nat.sub]. rewrite Hreached. reflexivity. }
  rewrite Hdot.
  assert (Hcur : _current_char s = None).
  { unfold _current_char. rewrite Hreached. reflexivity. }
  rewrite Hcur. cbn [fmap option_fmap option_map in_keys].
  assert (Hkeys : ∀ n (table : gmap string TokenTypes),
             table !! EmptyString = None →
             in_keys (_current_nchars s n) table = false).
  { intros n table Hnone. unfold in_keys, _current_nchars.
    destruct (_reached_end_of_source s (n - 1)); [reflexivity |].
    unfold slice. rewrite drop_ge by lia. rewrite take_nil. cbn [string_of_list_ascii].
    apply bool_decide_eq_false_2. rewrite Hnone. intros [t Ht]. discriminate. }
  rewrite (Hkeys 3 _ H3), (Hkeys 2 _ H2). reflexivity.
Qed.

Lemma scan_number s (d : ascii) (ds : list ascii) (frac : option (list ascii))
    (im : bool) (rest : list ascii) :
  wf s →
  drop (_source_pos s) (_source s) = numeric_text (d :: ds) frac im ++ rest →
  Forall (λ c, num_char c = true) (d :: ds) →
  (d = "0"%char → Forall (λ c, c = "0"%char) ds) →
  (∀ digits, frac = Some digits → Forall (λ c, num_char c = true) digits) →
  (im = false → ∀ c, head rest = Some c → num_char c = false) →
  (im = false → starts_with_im rest = false) →
  (im = false → frac = None → head rest ≠ Some "."%char) →
  scan_type s
  = (Return (numeric_type frac im),
     advance_by s (length (numeric_text (d :: ds) frac im))).
Proof.
  intros Hwf Hd Hint Hzero Hfrac Hend Hnoim Hnodot. unfold numeric_text in *.
  set (suffix := if im then ["i"%char; "m"%char] else []) in *.
  set (fracpart := match frac with Some digits => "."%char :: digits | None => [] end) in *.
  rewrite <- !app_assoc in Hd.
  assert (Hstop2 : ∀ c, head (suffix ++ rest) = Some c → num_char c = false).
  { unfold suffix. destruct im; [cbn; intros c [= <-]; reflexivity |].
    cbn [app]. exact (Hend eq_refl). }
  assert (Hstop1 : ∀ c, head (fracpart ++ suffix ++ rest) = Some c → num_char c = false).
  { unfold fracpart. destruct frac; [cbn; intros c [= <-]; reflexivity | exact Hstop2]. }
  assert (Hdot : frac = None → ∀ r, suffix ++ rest ≠ list_ascii_of_string "." ++ r).
  { intros Hnone r. unfold suffix. destruct im; [discriminate |].
    cbn [app list_ascii_of_string]. intros E.
    apply (Hnodot eq_refl Hnone). rewrite E. reflexivity. }
  cbn [app] in Hd.
  pose proof (Forall_inv Hint) as Hdnum. cbn beta in Hdnum.
  destruct (chars_left_step s d _ Hwf Hd) as (_ & Hwf1 & Hd1).
  destruct (drop_lookup_head _ _ _ _ Hd) as [Hlook _].
  assert (Hwf2 : wf (advance_by s (1 + length ds))).
  { apply (wf_advance_drop s _ (d :: ds) (fracpart ++ suffix ++ rest) Hwf Hd). reflexivity. }
  assert (Hd2 : drop (_source_pos (advance_by s (1 + length ds)))
                  (_source (advance_by s (1 + length ds))) = fracpart ++ suffix ++ rest).
  { apply (drop_advance s _ (d :: ds) (fracpart ++ suffix ++ rest) Hd). reflexivity. }
  assert (Hsuffix : ∀ s3 (type_ : TokenTypes),
            wf s3 → drop (_source_pos s3) (_source s3) = suffix ++ rest →
            (if _match s3 "im" then (Return COMPLEX, _consume_nchars s3 2)
             else (Return type_, s3))
            = (Return (if im then COMPLEX else type_), advance_by s3 (length suffix))).
  { intros s3 type_ Hwf3 Hd3. rewrite (match_im s3 Hwf3), Hd3.
    unfold suffix in *. destruct im.
    - cbn [app starts_with_im]. rewrite !bool_decide_eq_true_2 by reflexivity.
      cbn [andb].
      assert (Hrun : Forall (λ c, c ≠ newline) ["i"%char; "m"%char])
        by (repeat constructor; discriminate).
      pose proof (consume_nchars_run ["i"%char; "m"%char] s3 rest Hwf3 Hd3 Hrun) as Hn.
      cbn [length] in Hn. rewrite Hn. reflexivity.
    - cbn [app]. rewrite (Hnoim eq_refl). cbn [length]. rewrite advance_by_0.
      reflexivity. }
  unfold scan_type.
  unfold _is_num_char at 1. rewrite (test_current_char_drop num_char s Hwf), Hd, Hdnum.
  rewrite (match_one_char s d "0"%char Hwf Hlook).
  rewrite (consume_char_advance s d _ Hwf Hd) by (intros ->; discriminate).
  rewrite (consume_integer_part_run (bool_decide (d = "0"%char)) ds (advance_by s 1)
             (fracpart ++ suffix ++ rest) Hwf1 Hd1 (Forall_inv_tail Hint));
    [| intros Hb; apply Hzero; apply bool_decide_eq_true in Hb; exact Hb | exact Hstop1].
  rewrite advance_by_add.
  destruct frac as [digits |]; unfold fracpart in *.
  - rewrite (match_prefix _ "." (digits ++ suffix ++ rest) Hwf2)
      by (first [discriminate | exact Hd2]).
    assert (Hwf3 : wf (advance_by (advance_by s (1 + length ds)) 1)).
    { apply (wf_advance_drop _ _ ["."%char] (digits ++ suffix ++ rest) Hwf2 Hd2).
      reflexivity. }
    assert (Hd3 : drop (_source_pos (advance_by (advance_by s (1 + length ds)) 1))
                    (_source (advance_by (advance_by s (1 + length ds)) 1))
                  = digits ++ suffix ++ rest).
    { apply (drop_advance _ _ ["."%char] (digits ++ suffix ++ rest) Hd2). reflexivity. }
    rewrite (consume_char_advance _ "."%char _ Hwf2 Hd2) by discriminate.
    unfold _is_num_char.
    rewrite (consume_while_run num_char digits eq_refl _ (suffix ++ rest) Hwf3 Hd3
               (Hfrac digits eq_refl) Hstop2).
    rewrite !advance_by_add.
    rewrite (Hsuffix _ REAL).
    + rewrite advance_by_add. unfold numeric_type. f_equal. f_equal.
      cbn [length app]. rewrite ?length_app. cbn [length]. rewrite ?length_app. lia.
    + apply (wf_advance_drop s _ ((d :: ds) ++ "."%char :: digits) (suffix ++ rest) Hwf).
      * rewrite Hd. cbn [app]. rewrite <- app_assoc. reflexivity.
      * cbn [length app]. rewrite ?length_app. cbn [length]. lia.
    + apply (drop_advance s _ ((d :: ds) ++ "."%char :: digits) (suffix ++ rest)).
      * rewrite Hd. cbn [app]. rewrite <- app_assoc. reflexivity.
      * cbn [length app]. rewrite ?length_app. cbn [length]. lia.
  - cbn [app] in Hd2.
    rewrite (match_no_prefix _ ".") by (rewrite Hd2; exact (Hdot eq_refl)).
    rewrite (Hsuffix _ INTEGER Hwf2 Hd2). rewrite advance_by_add.
    unfold numeric_type. f_equal. f_equal.
    cbn [length app]. rewrite ?length_app. cbn [length]. lia.
Qed.

(** X18: numeric literals.  Where the source goes on with a run of
    digits (all of them [0] if the first one is), then possibly a period
    with any number of further digits, even none, then possibly [im],
    and the literal cannot go on ([im] ends it; without [im], what
    follows is no digit and not [im], and after a bare integer not a
    period), [next_token] returns one token for all of it: COMPLEX with
    [im], else REAL with a period, else INTEGER. *)
Theorem next_token_numeric_literal (s : QuarkScanner) (d : ascii) (ds : list ascii)
    (frac : option (list ascii)) (im : bool) (rest : list ascii) :
  wf s → fresh s →
  drop (_source_pos s) (_source s) = numeric_text (d :: ds) frac im ++ rest →
  Forall (λ c, num_char c = true) (d :: ds) →
  (d = "0"%char → Forall (λ c, c = "0"%char) ds) →
  (∀ digits, frac = Some digits → Forall (λ c, num_char c = true) digits) →
  (im = false → ∀ c, head rest = Some c → num_char c = false) →
  (im = false → starts_with_im rest = false) →
  (im = false → frac = None → head rest ≠ Some "."%char) →
  fst (next_token s)
  = Return (Some (mkToken (numeric_type frac im)
                    (string_of_list_ascii (numeric_text (d :: ds) frac im))
                    (_column_pos s, _line_pos s))).
Proof.
  intros Hwf Hfresh Hd Hint Hzero Hfrac Hend Hnoim Hnodot.
  pose proof (Forall_inv Hint) as Hdnum. cbn beta in Hdnum.
  assert (Hskip : _is_skippable s = false).
  { unfold _is_skippable. rewrite (test_current_char_drop _ s Hwf), Hd.
    unfold numeric_text. cbn [app]. apply num_char_solid, Hdnum. }
  rewrite (next_token_plain s Hskip). unfold emit.
  rewrite (scan_number s d ds frac im rest Hwf Hd Hint Hzero Hfrac Hend Hnoim Hnodot).
  cbn [fst]. do 3 f_equal.
  apply (consumed_chars_advance s _ _ rest Hfresh Hd eq_refl).
Qed.

(** X19: identifiers and keywords.  Where the source goes on with a
    character that can begin an identifier, followed by identifier
    characters up to the end or up to a character that is none,
    [next_token] returns one token with all of them as lexeme; its kind
    is the entry of the lexeme in the keyword table, else ID.  (No
    punctuation lexeme is assumed to begin like an identifier.) *)
Theorem next_token_identifier (s : QuarkScanner) (c : ascii) (cs rest : list ascii) :
  punctuation_not_identifier →
  wf s → fresh s →
  drop (_source_pos s) (_source s) = (c :: cs) ++ rest →
  id_start_char c = true →
  Forall (λ a, id_char a = true) cs →
  (∀ a, head rest = Some a → id_char a = false) →
  fst (next_token s)
  = Return (Some (mkToken (word_type (string_of_list_ascii (c :: cs)))
                    (string_of_list_ascii (c :: cs))
                    (_column_pos s, _line_pos s))).
Proof.
  intros Hpunct Hwf Hfresh Hd Hstart Hrun Hstop. cbn [app] in Hd.
  destruct (id_start_char_plain c Hstart) as (Hnum & Hdot & Hblank & Hnl).
  destruct (drop_lookup_head _ _ _ _ Hd) as [Hlook _].
  destruct (chars_left_step s c _ Hwf Hd) as (_ & Hwf1 & Hd1).
  assert (Hskip : _is_skippable s = false).
  { unfold _is_skippable. rewrite (test_current_char_drop _ s Hwf), Hd. exact Hblank. }
  assert (Hkeys : ∀ n (table : gmap string TokenTypes),
            (∀ k, is_Some (table !! k) →
                  ∀ a, head (list_ascii_of_string k) = Some a → id_start_char a = false) →
            in_keys (_current_nchars s (S n)) table = false).
  { intros n table Htable. unfold in_keys, _current_nchars.
    destruct (_reached_end_of_source s (S n - 1)); [reflexivity |].
    apply bool_decide_eq_false_2. intros Hk.
    assert (Hc : id_start_char c = false); [| congruence].
    apply (Htable _ Hk). unfold slice. rewrite list_ascii_of_string_of_list_ascii, Hd.
    replace (_source_pos s + S n - _source_pos s) with (S n) by lia. reflexivity. }
  rewrite (next_token_plain s Hskip). unfold emit, scan_type.
  unfold _is_num_char at 1. rewrite (test_current_char_drop num_char s Hwf), Hd, Hnum.
  rewrite (match_one_char s c "."%char Hwf Hlook).
  rewrite bool_decide_eq_false_2 by exact Hdot.
  rewrite (Hkeys 2 triple_char_tokens) by (intros k Hk; apply Hpunct; auto).
  rewrite (Hkeys 1 double_char_tokens) by (intros k Hk; apply Hpunct; auto).
  rewrite (current_char_lookup s c Hwf Hlook). cbn [fmap option_fmap option_map in_keys].
  rewrite bool_decide_eq_false_2.
  2:{ intros Hk. assert (Hc : id_start_char c = false); [| congruence].
      apply (Hpunct (String c EmptyString)); [auto | reflexivity]. }
  unfold _is_id_start. rewrite (test_current_char_drop id_start_char s Hwf), Hd, Hstart.
  rewrite (consume_char_advance s c _ Hwf Hd Hnl).
  unfold _is_id_char.
  rewrite (consume_while_run id_char cs eq_refl (advance_by s 1) rest Hwf1 Hd1 Hrun Hstop).
  rewrite advance_by_add.
  assert (Hword : _consumed_chars (advance_by s (1 + length cs))
                  = string_of_list_ascii (c :: cs)).
  { unfold _consumed_chars, slice. cbn [_source _source_start _source_pos advance_by].
    rewrite Hfresh.
    replace (_source_pos s + (1 + length cs) - _source_pos s) with (length (c :: cs))
      by (cbn [length]; lia).
    rewrite Hd. change (c :: cs ++ rest) with ((c :: cs) ++ rest).
    rewrite take_app_length. reflexivity. }
  rewrite Hword. unfold word_type.
  destruct (keyword_tokens !! string_of_list_ascii (c :: cs)); cbn [fst];
    rewrite Hword; reflexivity.
Qed.

(** X21: the longer punctuation lexeme wins.  Where the source goes on
    with the two characters of an entry of the two-character table, and
    no entry of the three-character table begins with them,
    [next_token] returns the token of that entry, whatever the
    one-character table holds for the first character. *)
Theorem next_token_prefers_two_characters (s : QuarkScanner) (a b : ascii)
    (rest : list ascii) (t : TokenTypes) :
  wf s → fresh s →
  drop (_source_pos s) (_source s) = a :: b :: rest →
  double_char_tokens !! String a (String b EmptyString) = Some t →
  (∀ c, triple_char_tokens !! String a (String b (String c EmptyString)) = None) →
  num_char a = false → a ≠ "."%char → skippable_char a = false →
  fst (next_token s)
  = Return (Some (mkToken t (String a (String b EmptyString))
                    (_column_pos s, _line_pos s))).
Proof.
  intros Hwf Hfresh Hd H2 H3 Hnum Hdot Hblank.
  destruct (drop_lookup_head _ _ _ _ Hd) as [Hlook _].
  pose proof (f_equal (@length ascii) Hd) as Hlen. rewrite length_drop in Hlen.
  cbn [length] in Hlen. pose proof Hwf as [Hl Hp].
  assert (Hskip : _is_skippable s = false).
  { unfold _is_skippable. rewrite (test_current_char_drop _ s Hwf), Hd. exact Hblank. }
  rewrite (next_token_plain s Hskip). unfold emit, scan_type.
  unfold _is_num_char at 1. rewrite (test_current_char_drop num_char s Hwf), Hd, Hnum.
  rewrite (match_one_char s a "."%char Hwf Hlook).
  rewrite bool_decide_eq_false_2 by exact Hdot.
  assert (Hno3 : in_keys (_current_nchars s 3) triple_char_tokens = false).
  { unfold in_keys, _current_nchars.
    destruct (_reached_end_of_source s (3 - 1)) eqn:Hr; [reflexivity |].
    apply bool_decide_eq_false_2. unfold slice.
    replace (_source_pos s + 3 - _source_pos s) with 3 by lia. rewrite Hd.
    destruct rest as [| c rest]; cbn [take string_of_list_ascii].
    - exfalso. unfold _reached_end_of_source in Hr. apply Z.eqb_neq in Hr.
      cbn [length] in Hlen. lia.
    - rewrite H3. intros [? ?]. discriminate. }
  rewrite Hno3.
  assert (Hyes2 : _current_nchars s 2 = Some (String a (String b EmptyString))).
  { unfold _current_nchars.
    assert (Hr : _reached_end_of_source s (2 - 1) = false).
    { unfold _reached_end_of_source. apply Z.eqb_neq. lia. }
    rewrite Hr. unfold slice.
    replace (_source_pos s + 2 - _source_pos s) with 2 by lia. rewrite Hd. reflexivity. }
  rewrite Hyes2. cbn [in_keys]. rewrite bool_decide_eq_true_2 by eauto.
  pose proof (consume_nchars_steady 2 s Hwf) as (_ & (Hsrc & _) & Hstart).
  pose proof (consume_nchars_pos 2 s Hwf ltac:(lia)) as Hpos.
  assert (Hword : _consumed_chars (_consume_nchars s 2) = String a (String b EmptyString)).
  { unfold _consumed_chars, slice. rewrite Hsrc, Hstart, Hpos, Hfresh.
    replace (_source_pos s + 2 - _source_pos s) with 2 by lia. rewrite Hd. reflexivity. }
  unfold table_lookup. rewrite Hword, H2. cbn [fst]. rewrite Hword. reflexivity.
Qed.

End ExactScans.

(** ** Runs of the scanner properties on concrete inputs *)

Lemma next_token_keeps_scanner_sound_witness :
  let s := QuarkScanner_new "x1 + y" true in
  wf s
  ∧ wf (snd (@next_token sample_tables s))
  ∧ extends s (snd (@next_token sample_tables s)).
Proof.
  cbn zeta.
  assert (Hwf : wf (QuarkScanner_new "x1 + y" true)) by (split; [reflexivity | cbn; lia]).
  split; [exact Hwf |].
  destruct (@next_token_keeps_scanner_sound sample_tables _ Hwf) as (_ & Hwf' & Hext & _).
  split; assumption.
Defined.

Lemma tokens_lexemes_rebuild_source_witness :
  let toks := [Some (mkToken ID "a" (0, 0)); Some (mkToken SKIP " " (1, 0));
               Some (mkToken LESS_EQUAL "<=" (2, 0)); Some (mkToken SKIP " " (4, 0));
               Some (mkToken ID "b" (5, 0))] in
  fst (@tokens sample_tables (QuarkScanner_new "a <= b" false)) = Return toks
  ∧ ∃ found, toks = Some <$> found ∧ lexemes found = "a <= b".
Proof.
  cbn zeta. split; [vm_compute; reflexivity |].
  apply (@tokens_lexemes_rebuild_source sample_tables "a <= b").
  vm_compute. reflexivity.
Defined.

Lemma next_token_numeric_literal_witness :
  fst (@next_token no_tables (QuarkScanner_new "3.14im+x" true))
  = Return (Some (mkToken COMPLEX "3.14im" (0, 0)))
  ∧ fst (@next_token no_tables (QuarkScanner_new "12i" true))
    = Return (Some (mkToken INTEGER "12" (0, 0))).
Proof.
  split.
  - apply (@next_token_numeric_literal no_tables (QuarkScanner_new "3.14im+x" true)
             "3"%char [] (Some ["1"%char; "4"%char]) true ["+"%char; "x"%char]).
    + split; [reflexivity | cbn; lia].
    + reflexivity.
    + reflexivity.
    + repeat constructor.
    + intros [=].
    + intros digits [= <-]. repeat constructor.
    + intros [=].
    + intros [=].
    + intros [=].
  - apply (@next_token_numeric_literal no_tables (QuarkScanner_new "12i" true)
             "1"%char ["2"%char] None false ["i"%char]).
    + split; [reflexivity | cbn; lia].
    + reflexivity.
    + reflexivity.
    + repeat constructor.
    + intros [=].
    + intros digits [=].
    + intros _ c [= <-]. reflexivity.
    + reflexivity.
    + intros _ _ [=].
Defined.

Lemma no_tables_not_identifier : @punctuation_not_identifier no_tables.
Proof.
  intros k [[t Hk] | [[t Hk] | [t Hk]]]; cbn in Hk; rewrite lookup_empty in Hk;
    discriminate.
Qed.

Lemma next_token_identifier_witness :
  let tables := {| single_char_tokens := ∅; double_char_tokens := ∅;
                   triple_char_tokens := ∅;
                   keyword_tokens := {[ "not" := NOT ]} |} in
  fst (@next_token tables (QuarkScanner_new "not x1" true))
  = Return (Some (mkToken NOT "not" (0, 0)))
  ∧ fst (@next_token no_tables (QuarkScanner_new "x1 + y" true))
    = Return (Some (mkToken ID "x1" (0, 0))).
Proof.
  cbn zeta. split.
  - etransitivity.
    + apply (@next_token_identifier _ (QuarkScanner_new "not x1" true)
               "n"%char ["o"%char; "t"%char] [" "%char; "x"%char; "1"%char]).
      * exact no_tables_not_identifier.
      * split; [reflexivity | cbn; lia].
      * reflexivity.
      * reflexivity.
      * reflexivity.
      * repeat constructor.
      * intros a [= <-]. reflexivity.
    + vm_compute. reflexivity.
  - etransitivity.
    + apply (@next_token_identifier no_tables (QuarkScanner_new "x1 + y" true)
               "x"%char ["1"%char] [" "%char; "+"%char; " "%char; "y"%char]).
      * exact no_tables_not_identifier.
      * split; [reflexivity | cbn; lia].
      * reflexivity.
      * reflexivity.
      * reflexivity.
      * repeat constructor.
      * intros a [= <-]. reflexivity.
    + vm_compute. reflexivity.
Defined.

Lemma next_token_over_blanks_witness :
  fst (@next_token no_tables (QuarkScanner_new "  x" false))
  = Return (Some (mkToken SKIP "  " (0, 0)))
  ∧ fst (@next_token no_tables (QuarkScanner_new "  x" true))
    = Return (Some (mkToken ID "x" (0, 0))).
Proof.
  assert (Hrun : Forall (λ c, skippable_char c = true) [" "%char; " "%char])
    by (repeat constructor).
  assert (Hstop : ∀ c, head ["x"%char] = Some c → skippable_char c = false)
    by (intros c [= <-]; reflexivity).
  split.
  - rewrite (proj1 (@next_token_over_blanks no_tables (QuarkScanner_new "  x" false)
                      " "%char [" "%char] ["x"%char]
                      (conj eq_refl (Nat.le_0_l _)) eq_refl Hrun Hstop)).
    reflexivity.
  - rewrite (proj1 (@next_token_over_blanks no_tables (QuarkScanner_new "  x" true)
                      " "%char [" "%char] ["x"%char]
                      (conj eq_refl (Nat.le_0_l _)) eq_refl Hrun Hstop)).
    vm_compute. reflexivity.
Defined.

Lemma next_token_prefers_two_characters_witness :
  single_char_tokens (TokenTables := sample_tables) !! "<" = Some LESS
  ∧ fst (@next_token sample_tables (QuarkScanner_new "<= b" true))
    = Return (Some (mkToken LESS_EQUAL "<=" (0, 0))).
Proof.
  split; [vm_compute; reflexivity |].
  apply (@next_token_prefers_two_characters sample_tables (QuarkScanner_new "<= b" true)
           "<"%char "="%char [" "%char; "b"%char] LESS_EQUAL).
  - split; [reflexivity | cbn; lia].
  - reflexivity.
  - reflexivity.
  - vm_compute. reflexivity.
  - intros c. apply lookup_empty.
  - reflexivity.
  - discriminate.
  - reflexivity.
Defined.

Lemma next_token_at_end_raises_witness :
  @next_token no_tables (QuarkScanner_new EmptyString true)
  = (Raise (QuarkScannerError (invalid_character None)), QuarkScanner_new EmptyString true).
Proof.
  apply (@next_token_at_end_raises no_tables (QuarkScanner_new EmptyString true)).
  - split; [reflexivity | cbn; lia].
  - reflexivity.
  - apply lookup_empty.
  - apply lookup_empty.
Defined.

(** * Periods, invalid characters and positions *)

Section PeriodsAndErrors.
Context `{TokenTables}.

(** X23: a token that begins with a period is settled before the
    punctuation tables are looked at.  A period that no digit follows is
    the PERIOD token of one character, so that no table entry beginning
    with a period is ever recognised; a period followed by digits is a
    REAL with all the digits, without any check of leading zeros, and a
    COMPLEX with [im] added where [im] follows the digits. *)
Theorem next_token_leading_period (s : QuarkScanner) (digits rest : list ascii) :
  wf s → fresh s →
  drop (_source_pos s) (_source s) = "."%char :: digits ++ rest →
  Forall (λ c, num_char c = true) digits →
  (∀ c, head rest = Some c → num_char c = false) →
  fst (next_token s)
  = Return (Some (mkToken (period_type digits rest)
                    (string_of_list_ascii
                       ("."%char :: digits ++ period_suffix digits rest))
                    (_column_pos s, _line_pos s))).
Proof.
  intros Hwf Hfresh Hd Hrun Hstop.
  destruct (drop_lookup_head _ _ _ _ Hd) as [Hlook _].
  destruct (chars_left_step s "."%char _ Hwf Hd) as (_ & Hwf1 & Hd1).
  assert (Hskip : _is_skippable s = false).
  { unfold _is_skippable. rewrite (test_current_char_drop _ s Hwf), Hd. reflexivity. }
  assert (Hnum : _is_num_char s = false).
  { unfold _is_num_char. rewrite (test_current_char_drop _ s Hwf), Hd. reflexivity. }
  assert (Hstop' : match rest with c :: _ => num_char c | [] => false end = false).
  { destruct rest as [| c rest]; [reflexivity | apply Hstop; reflexivity]. }
  rewrite (next_token_plain s Hskip). unfold emit, scan_type. rewrite Hnum.
  rewrite (match_one_char s "."%char "."%char Hwf Hlook).
  rewrite bool_decide_eq_true_2 by reflexivity.
  rewrite (consume_char_advance s "."%char _ Hwf Hd) by discriminate.
  destruct digits as [| d ds].
  - cbn [app] in Hd1. unfold _is_num_char.
    rewrite (test_current_char_drop num_char _ Hwf1), Hd1, Hstop'. cbn [fst].
    rewrite (consumed_chars_advance s 1 ["."%char] rest Hfresh Hd eq_refl). reflexivity.
  - apply Forall_cons in Hrun as [Hdn Hrun].
    destruct (chars_left_step (advance_by s 1) d _ Hwf1 Hd1) as (_ & Hwf2 & Hd2).
    unfold _is_num_char.
    rewrite (test_current_char_drop num_char (advance_by s 1) Hwf1), Hd1.
    cbn [app]. rewrite Hdn.
    rewrite (consume_char_advance (advance_by s 1) d _ Hwf1 Hd1)
      by (intros ->; discriminate).
    rewrite (consume_while_run num_char ds eq_refl _ rest Hwf2 Hd2 Hrun Hstop).
    assert (Hs3 : advance_by (advance_by (advance_by s 1) 1) (length ds)
                  = advance_by s (2 + length ds)).
    { rewrite !advance_by_add. f_equal. }
    rewrite Hs3.
    assert (Hwf3 : wf (advance_by s (2 + length ds))).
    { apply (wf_advance_drop s _ ("."%char :: d :: ds) rest Hwf Hd). reflexivity. }
    assert (Hd3 : drop (_source_pos (advance_by s (2 + length ds)))
                    (_source (advance_by s (2 + length ds))) = rest).
    { apply (drop_advance s _ ("."%char :: d :: ds) rest Hd). reflexivity. }
    rewrite (match_im _ Hwf3), Hd3.
    unfold period_type, period_suffix. destruct (starts_with_im rest) eqn:Him.
    + destruct (starts_with_im_inv rest Him) as [rest' ->].
      assert (Hrun2 : Forall (λ c, c ≠ newline) ["i"%char; "m"%char])
        by (repeat constructor; discriminate).
      pose proof (consume_nchars_run ["i"%char; "m"%char] _ rest' Hwf3 Hd3 Hrun2) as Hn.
      cbn [length] in Hn. rewrite Hn, advance_by_add. cbn [fst].
      rewrite (consumed_chars_advance s _ ("."%char :: d :: ds ++ ["i"%char; "m"%char])
                 rest' Hfresh).
      * reflexivity.
      * rewrite Hd. cbn [app]. rewrite <- app_assoc. reflexivity.
      * cbn [length]. rewrite length_app. cbn [length]. lia.
    + cbn [fst].
      rewrite (consumed_chars_advance s _ ("."%char :: d :: ds) rest Hfresh Hd)
        by (cbn [length]; lia).
      rewrite app_nil_r. reflexivity.
Qed.

(** X24: a character that is no blank, no digit, no period and no
    beginning of an identifier, and that begins no punctuation lexeme (a
    line break or a quote, for instance), is an error: [next_token]
    raises the invalid-character error naming it, and consumes nothing. *)
Theorem next_token_invalid_character (s : QuarkScanner) (c : ascii)
    (rest : list ascii) :
  wf s →
  drop (_source_pos s) (_source s) = c :: rest →
  skippable_char c = false → num_char c = false → c ≠ "."%char →
  id_start_char c = false →
  begins_no_punctuation c →
  next_token s = (Raise (QuarkScannerError (invalid_character (Some c))), s).
Proof.
  intros Hwf Hd Hblank Hnum Hdot Hid Hpunct.
  destruct (drop_lookup_head _ _ _ _ Hd) as [Hlook _].
  assert (Hskip : _is_skippable s = false).
  { unfold _is_skippable. rewrite (test_current_char_drop _ s Hwf), Hd. exact Hblank. }
  assert (Hkeys : ∀ n (table : gmap string TokenTypes),
            (∀ k, is_Some (table !! k) →
                  ∀ a, head (list_ascii_of_string k) = Some a → a = c → False) →
            in_keys (_current_nchars s (S n)) table = false).
  { intros n table Htable. unfold in_keys, _current_nchars.
    destruct (_reached_end_of_source s (S n - 1)); [reflexivity |].
    apply bool_decide_eq_false_2. intros Hk.
    apply (Htable _ Hk c); [| reflexivity].
    unfold slice. rewrite list_ascii_of_string_of_list_ascii, Hd.
    replace (_source_pos s + S n - _source_pos s) with (S n) by lia. reflexivity. }
  rewrite (next_token_plain s Hskip). unfold emit, scan_type.
  unfold _is_num_char. rewrite (test_current_char_drop num_char s Hwf), Hd, Hnum.
  rewrite (match_one_char s c "."%char Hwf Hlook).
  rewrite bool_decide_eq_false_2 by exact Hdot.
  rewrite (Hkeys 2 triple_char_tokens) by (intros k Hk; apply Hpunct; auto).
  rewrite (Hkeys 1 double_char_tokens) by (intros k Hk; apply Hpunct; auto).
  rewrite (current_char_lookup s c Hwf Hlook). cbn [fmap option_fmap option_map in_keys].
  rewrite bool_decide_eq_false_2.
  2:{ intros Hk. apply (Hpunct (String c EmptyString)) with (a := c);
        [auto | reflexivity | reflexivity]. }
  unfold _is_id_start. rewrite (test_current_char_drop id_start_char s Hwf), Hd, Hid.
  reflexivity.
Qed.

End PeriodsAndErrors.

(** ** Line and column *)

Lemma position_of_snoc text c :
  position_of (text ++ [c])
  = if bool_decide (c = newline) then (1, S (line_of text))
    else (S (column_of text), line_of text).
Proof.
  unfold position_of, column_of, line_of.
  rewrite count_occ_app, reverse_snoc, length_app. cbn [count_occ length since_newline].
  destruct (Ascii.ascii_dec c newline) as [-> | Hc].
  - rewrite (bool_decide_eq_true_2 (newline = newline)) by reflexivity.
    rewrite bool_decide_eq_false_2 by lia. f_equal. lia.
  - rewrite (bool_decide_eq_false_2 (c = newline)) by exact Hc.
    rewrite Nat.add_0_r.
    destruct (bool_decide (count_occ Ascii.ascii_dec text newline = 0)); f_equal; lia.
Qed.

Lemma consume_char_located s : wf s → located s → located (_consume_char s).
Proof.
  intros Hwf Hloc. destruct (decide (_source_pos s = _source_len s)) as [Hend | Hne].
  - rewrite consume_char_at_end by exact Hend. exact Hloc.
  - assert (Hlt : _source_pos s < _source_len s) by (destruct Hwf; lia).
    destruct (lookup_current s Hwf Hlt) as [c Hc].
    unfold located, _consume_char in *. rewrite (not_reached_end s Hlt).
    rewrite (current_char_lookup s c Hwf Hc).
    injection Hloc as Hcol Hline.
    destruct (decide (c = newline)) as [-> | Hn].
    + rewrite bool_decide_eq_true_2 by reflexivity.
      cbv beta iota zeta. cbn [_source _source_pos _column_pos _line_pos].
      replace (_source_pos s + 1) with (S (_source_pos s)) by lia.
      rewrite (take_S_r _ _ _ Hc), position_of_snoc.
      rewrite bool_decide_eq_true_2 by reflexivity. rewrite <- Hline. f_equal; lia.
    + rewrite bool_decide_eq_false_2 by congruence.
      cbv beta iota zeta. cbn [_source _source_pos _column_pos _line_pos].
      replace (_source_pos s + 1) with (S (_source_pos s)) by lia.
      rewrite (take_S_r _ _ _ Hc), position_of_snoc.
      rewrite bool_decide_eq_false_2 by exact Hn. rewrite <- Hline, <- Hcol. f_equal; lia.
Qed.

Lemma reaches_refl s : reaches s s.
Proof. exists 0. reflexivity. Qed.

Lemma reaches_step s s' : reaches (_consume_char s) s' → reaches s s'.
Proof. intros [k ->]. exists (S k). rewrite Nat.iter_succ_r. reflexivity. Qed.

Lemma reaches_trans s1 s2 s3 : reaches s1 s2 → reaches s2 s3 → reaches s1 s3.
Proof. intros [k ->] [j ->]. exists (j + k). rewrite Nat.iter_add. reflexivity. Qed.

Lemma consume_nchars_reaches n : ∀ s, reaches s (_consume_nchars s n).
Proof.
  induction n as [| n IH]; intros s; cbn [_consume_nchars];
    [apply reaches_refl | apply reaches_step, IH].
Qed.

Lemma consume_while_reaches test budget : ∀ s, reaches s (consume_while test budget s).
Proof.
  induction budget as [| n IH]; intros s; cbn [consume_while]; [apply reaches_refl |].
  destruct (test s); [apply reaches_step, IH | apply reaches_refl].
Qed.

Lemma consume_integer_part_reaches must budget :
  ∀ s, reaches s (snd (consume_integer_part must budget s)).
Proof.
  induction budget as [| n IH]; intros s; cbn [consume_integer_part];
    [apply reaches_refl |].
  destruct (_is_num_char s); [| apply reaches_refl].
  destruct (must && negb (_match s "0")); [apply reaches_refl | apply reaches_step, IH].
Qed.

Lemma reaches_located s s' :
  wf s → located s → reaches s s' → wf s' ∧ located s'.
Proof.
  intros Hwf Hloc [k ->]. induction k as [| k [IHwf IHloc]]; [split; assumption |].
  cbn [Nat.iter nat_rect]. split; [apply wf_consume_char, IHwf |].
  apply consume_char_located; assumption.
Qed.

Section Positions.
Context `{TokenTables}.

Lemma scan_type_reaches s : reaches s (snd (scan_type s)).
Proof.
  assert (Hsuffix : ∀ s0 (type_ : TokenTypes),
             reaches s s0 →
             reaches s (snd (if _match s0 "im" then (Return COMPLEX, _consume_nchars s0 2)
                             else (Return type_, s0)))).
  { intros s0 type_ Hr. destruct (_match s0 "im"); cbn [snd]; [| exact Hr].
    eapply reaches_trans; [exact Hr | apply consume_nchars_reaches]. }
  unfold scan_type.
  destruct (_is_num_char s).
  { pose proof (consume_integer_part_reaches (_match s "0") (chars_left (_consume_char s))
                  (_consume_char s)) as Hr.
    destruct (consume_integer_part _ _ (_consume_char s)) as [o s2]. cbn [snd] in Hr.
    apply reaches_step in Hr.
    destruct o as [[] | x |]; [| exact Hr | exact Hr].
    destruct (_match s2 ".").
    - apply Hsuffix. eapply reaches_trans; [exact Hr |].
      apply reaches_step, consume_while_reaches.
    - apply Hsuffix, Hr. }
  destruct (_match s ".").
  { destruct (_is_num_char (_consume_char s)).
    - apply Hsuffix. apply reaches_step, reaches_step, consume_while_reaches.
    - apply reaches_step, reaches_refl. }
  destruct (in_keys (_current_nchars s 3) triple_char_tokens).
  { rewrite (proj1 (table_lookup_state triple_char_tokens (_consume_nchars s 3))).
    apply consume_nchars_reaches. }
  destruct (in_keys (_current_nchars s 2) double_char_tokens).
  { rewrite (proj1 (table_lookup_state double_char_tokens (_consume_nchars s 2))).
    apply consume_nchars_reaches. }
  destruct (in_keys _ single_char_tokens).
  { rewrite (proj1 (table_lookup_state single_char_tokens (_consume_char s))).
    apply reaches_step, reaches_refl. }
  destruct (_is_id_start s); [| apply reaches_refl].
  destruct (keyword_tokens !! _); apply reaches_step, consume_while_reaches.
Qed.

Lemma emit_located (pos0 : nat * nat) s :
  wf s → located s → located (snd (emit pos0 s)).
Proof.
  intros Hwf Hloc. unfold emit.
  destruct (reaches_located s _ Hwf Hloc (scan_type_reaches s)) as [_ Hloc'].
  destruct (scan_type s) as [[type_ | x |] s']; exact Hloc'.
Qed.

Lemma emit_position (pos0 : nat * nat) s tok :
  fst (emit pos0 s) = Return (Some tok) → pos tok = pos0.
Proof.
  unfold emit. destruct (scan_type s) as [[type_ | x |] s']; cbn [fst];
    [intros [= <-]; reflexivity | discriminate | discriminate].
Qed.

Lemma next_token_located s : wf s → located s → located (snd (next_token s)).
Proof.
  intros Hwf Hloc. destruct (_is_skippable s) eqn:Hskip.
  - rewrite (next_token_blank s Hskip). cbn zeta.
    destruct (reaches_located s _ Hwf Hloc
                (reaches_step _ _ (consume_while_reaches _is_skippable
                                     (chars_left (_consume_char s)) (_consume_char s))))
      as [Hwf2 Hloc2].
    set (s2 := consume_while _is_skippable (chars_left (_consume_char s))
                 (_consume_char s)) in *.
    destruct (_ignore_skippables s2); [| exact Hloc2].
    destruct (_reached_end_of_source (_discard_consumed_chars s2) 0); [exact Hloc2 |].
    apply emit_located; [exact Hwf2 | exact Hloc2].
  - rewrite (next_token_plain s Hskip). apply emit_located; assumption.
Qed.

Lemma next_token_position s tok :
  fst (next_token s) = Return (Some tok) → pos tok = _current_pos s.
Proof.
  destruct (_is_skippable s) eqn:Hskip.
  - rewrite (next_token_blank s Hskip). cbn zeta.
    destruct (_ignore_skippables _); [| cbn [fst]; intros [= <-]; reflexivity].
    destruct (_reached_end_of_source _ 0); [discriminate | apply emit_position].
  - rewrite (next_token_plain s Hskip). apply emit_position.
Qed.

Lemma tokens_loop_positions budget :
  ∀ s toks out,
    wf s → fresh s → located s → _ignore_skippables s = false →
    fst (tokens_loop budget s toks) = Return out →
    ∃ found, out = toks ++ (Some <$> found)
             ∧ ∀ i tok, found !! i = Some tok →
                 pos tok
                 = position_of (take (_source_pos s) (_source s)
                                ++ list_ascii_of_string (lexemes (take i found))).
Proof.
  induction budget as [| n IH]; intros s toks out Hwf Hfresh Hloc Hign;
    cbn [tokens_loop].
  - destruct (_reached_end_of_source s 0); [| discriminate].
    cbn [fst]. intros [= <-]. exists []. split; [cbn; by rewrite app_nil_r |].
    intros i tok Hi. rewrite lookup_nil in Hi. discriminate.
  - destruct (_reached_end_of_source s 0) eqn:Hend.
    { cbn [fst]. intros [= <-]. exists []. split; [cbn; by rewrite app_nil_r |].
      intros i tok Hi. rewrite lookup_nil in Hi. discriminate. }
    assert (Hlt : _source_pos s < _source_len s).
    { destruct Hwf as [_ Hle]. destruct (decide (_source_pos s = _source_len s)) as [E | E].
      - apply reached_end_iff in E. congruence.
      - lia. }
    destruct (next_token_progress_any s Hwf) as (_ & Hwf' & Hext & Hadv).
    pose proof (next_token_lexeme s Hwf Hfresh Hign Hlt) as Hlex.
    pose proof (next_token_located s Hwf Hloc) as Hloc'.
    pose proof (next_token_position s) as Hpos.
    destruct (next_token s) as [o s1]. cbn [fst snd] in *.
    destruct o as [t | x |]; [| discriminate | discriminate].
    destruct (Hlex t eq_refl) as (tok & -> & Hraw & Hfresh1).
    specialize (Hadv (Some tok) Hlt eq_refl). specialize (Hpos tok eq_refl).
    destruct Hext as (Hsrc & Hlen & Hign1 & _).
    intros Hout.
    destruct (IH s1 (toks ++ [Some tok]) out Hwf' Hfresh1 Hloc') as (found & -> & Hfound);
      [congruence | exact Hout |].
    exists (tok :: found). split; [by rewrite <- app_assoc |].
    intros [| j] tok' Hj.
    + injection Hj as <-. cbn [take lexemes foldr list_ascii_of_string].
      rewrite app_nil_r, Hpos. exact Hloc.
    + cbn [lookup list_lookup] in Hj. rewrite (Hfound j tok' Hj).
      cbn [take lexemes foldr]. fold (lexemes (take j found)).
      rewrite list_ascii_of_string_app, Hraw, Hsrc. unfold slice.
      rewrite list_ascii_of_string_of_list_ascii, app_assoc, take_take_drop.
      repeat f_equal. lia.
Qed.

(** X25: where a token is.  For a source of ASCII characters scanned
    with [ignore_skippables] off, the position recorded in every token
    that [tokens] returns is that of the end of the text before it (the
    lexemes of the tokens before it): its line is the number of line
    breaks in that text; its column is the number of characters before
    it on the first line, but one more than the number of characters
    between the last line break and it on later lines. *)
Theorem tokens_positions (source : string) (toks : list (option Token)) :
  ascii_text source →
  fst (tokens (QuarkScanner_new source false)) = Return toks →
  ∃ found, toks = Some <$> found
           ∧ ∀ i tok, found !! i = Some tok →
               pos tok = position_of (list_ascii_of_string (lexemes (take i found))).
Proof.
  intros _ Hret.
  destruct (tokens_loop_positions (chars_left (QuarkScanner_new source false))
              (QuarkScanner_new source false) [] toks (wf_new source false) eq_refl
              eq_refl eq_refl Hret) as (found & -> & Hfound).
  exists found. split; [reflexivity |]. intros i tok Hi.
  rewrite (Hfound i tok Hi). reflexivity.
Qed.

End Positions.

(** * Scanning with blanks ignored *)

Lemma without_blanks_solid text :
  Forall (λ c, solid_char c = true) text → without_blanks text = text.
Proof.
  induction 1 as [| c text Hc _ IH]; [reflexivity |].
  unfold without_blanks in *. cbn [List.filter]. rewrite Hc, IH. reflexivity.
Qed.

Lemma without_blanks_blank text :
  Forall (λ c, skippable_char c = true) text → without_blanks text = [].
Proof.
  induction 1 as [| c text Hc _ IH]; [reflexivity |].
  unfold without_blanks, solid_char in *. cbn [List.filter]. rewrite Hc. exact IH.
Qed.

Lemma without_blanks_app a b :
  without_blanks (a ++ b) = without_blanks a ++ without_blanks b.
Proof. apply List.filter_app. Qed.

Lemma take_between (source : list ascii) a b c :
  a ≤ b → b ≤ c →
  take (c - a) (drop a source) = take (b - a) (drop a source) ++ take (c - b) (drop b source).
Proof.
  intros Hab Hbc. replace (c - a) with ((b - a) + (c - b)) by lia.
  rewrite <- take_take_drop, drop_drop. repeat f_equal. lia.
Qed.

Lemma consumes_refl q s : wf s → consumes q s s.
Proof.
  intros Hwf. split; [apply steady_refl, Hwf |]. rewrite Nat.sub_diag. constructor.
Qed.

Lemma consumes_trans q s1 s2 s3 : consumes q s1 s2 → consumes q s2 s3 → consumes q s1 s3.
Proof.
  intros [Hst12 H12] [Hst23 H23]. split; [exact (steady_trans _ _ _ Hst12 Hst23) |].
  destruct Hst12 as (_ & (Hsrc & _ & _ & Hp12) & _).
  destruct Hst23 as (_ & (_ & _ & _ & Hp23) & _).
  rewrite (take_between _ _ (_source_pos s2)) by lia.
  apply Forall_app. split; [exact H12 |]. rewrite <- Hsrc. exact H23.
Qed.

Lemma consume_char_consumes q s :
  wf s → (∀ c, _source s !! _source_pos s = Some c → q c = true) →
  consumes q s (_consume_char s).
Proof.
  intros Hwf Hc. split; [apply consume_char_steady, Hwf |].
  destruct (decide (_source_pos s = _source_len s)) as [Hend | Hne].
  - rewrite consume_char_at_end by exact Hend. rewrite Nat.sub_diag. constructor.
  - assert (Hlt : _source_pos s < _source_len s) by (destruct Hwf; lia).
    destruct (lookup_current s Hwf Hlt) as [c Hlook].
    rewrite (consume_char_next s Hwf Hlt).
    replace (_source_pos s + 1 - _source_pos s) with 1 by lia.
    rewrite (drop_S _ _ _ Hlook). cbn [take]. rewrite take_0.
    constructor; [apply Hc, Hlook | constructor].
Qed.

Lemma consume_char_consumes_test (q q' : ascii → bool) s :
  wf s → (∀ c, q' c = true → q c = true) → test_current_char q' s = true →
  consumes q s (_consume_char s).
Proof.
  intros Hwf Hq Ht. destruct (test_current_char_true _ _ Hwf Ht) as (c & Hc & Hqc).
  apply consume_char_consumes; [exact Hwf |].
  intros c' Hc'. assert (c' = c) as -> by congruence. apply Hq, Hqc.
Qed.

Lemma consume_nchars_consumes q n :
  ∀ s, wf s →
       (∀ i c, i < n → _source s !! (_source_pos s + i) = Some c → q c = true) →
       consumes q s (_consume_nchars s n).
Proof.
  induction n as [| n IH]; intros s Hwf Hchars; cbn [_consume_nchars].
  - apply consumes_refl, Hwf.
  - eapply consumes_trans.
    + apply consume_char_consumes; [exact Hwf |]. intros c Hc.
      apply (Hchars 0 c); [lia |]. rewrite Nat.add_0_r. exact Hc.
    + apply IH; [apply wf_consume_char, Hwf |]. intros i c Hi Hc.
      destruct (decide (_source_pos s = _source_len s)) as [Hend | Hne].
      * rewrite consume_char_at_end in Hc by exact Hend.
        apply (Hchars i c); [lia | exact Hc].
      * assert (Hlt : _source_pos s < _source_len s) by (destruct Hwf; lia).
        destruct (consume_char_steady s Hwf) as (_ & (Hsrc & _) & _).
        rewrite Hsrc, (consume_char_next s Hwf Hlt) in Hc.
        apply (Hchars (S i) c); [lia |].
        replace (_source_pos s + S i) with (_source_pos s + 1 + i) by lia. exact Hc.
Qed.

Lemma consume_while_consumes (q q' : ascii → bool) :
  (∀ c, q' c = true → q c = true) →
  ∀ budget s, wf s → consumes q s (consume_while (test_current_char q') budget s).
Proof.
  intros Hq. induction budget as [| n IH]; intros s Hwf; cbn [consume_while].
  - apply consumes_refl, Hwf.
  - destruct (test_current_char q' s) eqn:Ht; [| apply consumes_refl, Hwf].
    eapply consumes_trans; [apply (consume_char_consumes_test q q' s Hwf Hq Ht) |].
    apply IH, wf_consume_char, Hwf.
Qed.

Lemma num_char_is_solid c : num_char c = true → solid_char c = true.
Proof. intros Hc. unfold solid_char. rewrite (num_char_solid c Hc). reflexivity. Qed.

Lemma id_char_is_solid c : id_char c = true → solid_char c = true.
Proof. intros Hc. unfold solid_char. rewrite (id_char_solid c Hc). reflexivity. Qed.

Lemma consume_integer_part_consumes must budget :
  ∀ s, wf s → consumes solid_char s (snd (consume_integer_part must budget s)).
Proof.
  induction budget as [| n IH]; intros s Hwf; cbn [consume_integer_part].
  - apply consumes_refl, Hwf.
  - destruct (_is_num_char s) eqn:Ht; [| apply consumes_refl, Hwf].
    destruct (must && negb (_match s "0")); [apply consumes_refl, Hwf |].
    eapply consumes_trans;
      [apply (consume_char_consumes_test solid_char num_char s Hwf num_char_is_solid Ht) |].
    apply IH, wf_consume_char, Hwf.
Qed.

Lemma matched_consumes q s str n :
  wf s → _match s str = true → n = String.length str →
  (∀ c, c ∈ list_ascii_of_string str → q c = true) →
  consumes q s (_consume_nchars s n).
Proof.
  intros Hwf Hm -> Hstr. apply consume_nchars_consumes; [exact Hwf |].
  intros i c Hi Hc.
  assert (Hlt : i < length (list_ascii_of_string str))
    by (rewrite length_list_ascii_of_string; exact Hi).
  destruct (lookup_lt_is_Some_2 _ _ Hlt) as [d Hd].
  pose proof (match_chars s str Hm i d Hd) as Hd'.
  assert (c = d) as -> by congruence.
  apply Hstr. eapply list_elem_of_lookup_2, Hd.
Qed.

Lemma table_branch_consumes q n (table : gmap string TokenTypes) s :
  wf s → in_keys (_current_nchars s n) table = true →
  (∀ k, is_Some (table !! k) → ∀ c, c ∈ list_ascii_of_string k → q c = true) →
  consumes q s (_consume_nchars s n).
Proof.
  intros Hwf Hin Hkeys. apply consume_nchars_consumes; [exact Hwf |].
  intros i c Hi Hc. unfold in_keys, _current_nchars in Hin.
  destruct (_reached_end_of_source s (n - 1)); [discriminate |].
  apply bool_decide_eq_true in Hin. apply (Hkeys _ Hin). unfold slice.
  rewrite list_ascii_of_string_of_list_ascii. apply (list_elem_of_lookup_2 _ i).
  rewrite lookup_take_lt by lia. rewrite lookup_drop. exact Hc.
Qed.

Section IgnoringBlanks.
Context `{TokenTables}.
Hypothesis punctuation : blank_free_punctuation.

Lemma scan_type_consumes s :
  wf s → _is_skippable s = false → consumes solid_char s (snd (scan_type s)).
Proof.
  intros Hwf Hskip.
  assert (Hfirst : consumes solid_char s (_consume_char s)).
  { apply consume_char_consumes; [exact Hwf |]. intros c Hc. unfold _is_skippable in Hskip.
    rewrite (test_current_char_lookup _ _ _ Hwf Hc) in Hskip.
    unfold solid_char. rewrite Hskip. reflexivity. }
  pose proof (wf_consume_char s Hwf) as Hwf1.
  assert (Hdigits : ∀ s0, wf s0 →
            consumes solid_char s0 (consume_while _is_num_char (chars_left s0) s0)).
  { intros s0 Hwf0. apply (consume_while_consumes solid_char num_char num_char_is_solid),
      Hwf0. }
  assert (Hsuffix : ∀ s0 (type_ : TokenTypes),
            consumes solid_char s s0 →
            consumes solid_char s
              (snd (if _match s0 "im" then (Return COMPLEX, _consume_nchars s0 2)
                    else (Return type_, s0)))).
  { intros s0 type_ Hp. destruct (_match s0 "im") eqn:Hm; cbn [snd]; [| exact Hp].
    eapply consumes_trans; [exact Hp |].
    apply (matched_consumes solid_char s0 "im" 2 (proj1 (proj1 Hp)) Hm eq_refl).
    intros c Hc. apply list_elem_of_In in Hc. simpl in Hc.
    destruct Hc as [<- | [<- | []]]; reflexivity. }
  assert (Hperiod : ∀ s0, wf s0 → _match s0 "." = true →
            consumes solid_char s0 (_consume_char s0)).
  { intros s0 Hwf0 Hm. apply (matched_consumes solid_char s0 "." 1 Hwf0 Hm eq_refl).
    intros c Hc. apply list_elem_of_In in Hc. simpl in Hc.
    destruct Hc as [<- | []]. reflexivity. }
  unfold scan_type.
  destruct (_is_num_char s).
  { pose proof (consume_integer_part_consumes (_match s "0") (chars_left (_consume_char s))
                  (_consume_char s) Hwf1) as Hp.
    destruct (consume_integer_part _ _ (_consume_char s)) as [o s2]. cbn [snd] in Hp.
    pose proof (consumes_trans _ _ _ _ Hfirst Hp) as Hp2.
    pose proof (proj1 (proj1 Hp)) as Hwf2.
    destruct o as [[] | x |]; [| exact Hp2 | exact Hp2].
    destruct (_match s2 ".") eqn:Hdot.
    - apply Hsuffix. eapply consumes_trans; [exact Hp2 |].
      eapply consumes_trans; [apply (Hperiod s2 Hwf2 Hdot) |].
      apply Hdigits, wf_consume_char, Hwf2.
    - apply Hsuffix, Hp2. }
  destruct (_match s ".").
  { destruct (_is_num_char (_consume_char s)) eqn:Hnum1.
    - apply Hsuffix. eapply consumes_trans; [exact Hfirst |].
      eapply consumes_trans;
        [apply (consume_char_consumes_test solid_char num_char _ Hwf1
                  num_char_is_solid Hnum1) |].
      apply Hdigits, wf_consume_char, Hwf1.
    - exact Hfirst. }
  destruct (in_keys (_current_nchars s 3) triple_char_tokens) eqn:H3.
  { rewrite (proj1 (table_lookup_state triple_char_tokens (_consume_nchars s 3))).
    apply (table_branch_consumes solid_char 3 _ s Hwf H3).
    intros k Hk c Hc. unfold solid_char.
    rewrite (punctuation k (or_intror Hk) c Hc). reflexivity. }
  destruct (in_keys (_current_nchars s 2) double_char_tokens) eqn:H2.
  { rewrite (proj1 (table_lookup_state double_char_tokens (_consume_nchars s 2))).
    apply (table_branch_consumes solid_char 2 _ s Hwf H2).
    intros k Hk c Hc. unfold solid_char.
    rewrite (punctuation k (or_introl Hk) c Hc). reflexivity. }
  destruct (in_keys _ single_char_tokens).
  { rewrite (proj1 (table_lookup_state single_char_tokens (_consume_char s))).
    exact Hfirst. }
  destruct (_is_id_start s); [| apply consumes_refl, Hwf].
  destruct (keyword_tokens !! _); cbn [snd];
    (eapply consumes_trans; [exact Hfirst |]);
    apply (consume_while_consumes solid_char id_char id_char_is_solid), Hwf1.
Qed.

Lemma emit_lexeme (pos0 : nat * nat) s r :
  wf s → fresh s → _is_skippable s = false →
  fst (emit pos0 s) = Return r →
  wf (snd (emit pos0 s)) ∧ fresh (snd (emit pos0 s))
  ∧ extends s (snd (emit pos0 s))
  ∧ Forall (λ c, solid_char c = true)
      (take (_source_pos (snd (emit pos0 s)) - _source_pos s)
         (drop (_source_pos s) (_source s)))
  ∧ lexeme_of r
    = string_of_list_ascii
        (take (_source_pos (snd (emit pos0 s)) - _source_pos s)
           (drop (_source_pos s) (_source s))).
Proof.
  intros Hwf Hfresh Hskip.
  destruct (scan_type_consumes s Hwf Hskip) as [(Hwf' & Hext & Hstart) Hall].
  unfold emit. destruct (scan_type s) as [[type_ | x |] s']; cbn [fst snd] in *;
    [| discriminate | discriminate].
  intros [= <-]. split; [exact Hwf' |]. split; [reflexivity |].
  split; [destruct Hext as (? & ? & ? & ?); unfold extends; simpl; auto |].
  split; [exact Hall |].
  cbn [lexeme_of raw]. unfold _consumed_chars, slice.
  destruct Hext as (-> & _). rewrite Hstart, Hfresh. reflexivity.
Qed.

Lemma next_token_ignoring s r :
  wf s → fresh s → _ignore_skippables s = true →
  fst (next_token s) = Return r →
  fresh (snd (next_token s))
  ∧ lexeme_of r
    = string_of_list_ascii
        (without_blanks
           (take (_source_pos (snd (next_token s)) - _source_pos s)
              (drop (_source_pos s) (_source s)))).
Proof.
  intros Hwf Hfresh Hign.
  destruct (_is_skippable s) eqn:Hskip.
  - rewrite (next_token_blank s Hskip). cbn zeta.
    assert (Hblanks : consumes skippable_char s
                        (consume_while _is_skippable (chars_left (_consume_char s))
                           (_consume_char s))).
    { eapply consumes_trans.
      - apply (consume_char_consumes_test skippable_char skippable_char s Hwf); auto.
      - apply (consume_while_consumes skippable_char skippable_char); auto.
        apply wf_consume_char, Hwf. }
    pose proof (consume_while_exit skippable_char (chars_left (_consume_char s))
                  (_consume_char s) (wf_consume_char s Hwf) (le_n _)) as Hexit.
    fold _is_skippable in Hexit.
    set (s2 := consume_while _is_skippable (chars_left (_consume_char s))
                 (_consume_char s)) in *.
    destruct Hblanks as [(Hwf2 & (Hsrc2 & Hlen2 & Hign2 & Hpos2) & Hstart2) Hall2].
    rewrite Hign2, Hign.
    destruct (_reached_end_of_source (_discard_consumed_chars s2) 0).
    + cbn [fst snd]. intros [= <-]. split; [reflexivity |].
      cbn [lexeme_of _discard_consumed_chars _source_pos].
      rewrite (without_blanks_blank _ Hall2). reflexivity.
    + intros Hr.
      destruct (emit_lexeme (_current_pos s) (_discard_consumed_chars s2) r Hwf2 eq_refl
                  Hexit Hr) as (_ & Hfresh' & (_ & _ & _ & Hpos') & Hall' & Hlex).
      split; [exact Hfresh' |]. rewrite Hlex.
      cbn [_discard_consumed_chars _source_pos _source] in *.
      rewrite (take_between (_source s) (_source_pos s) (_source_pos s2)) by lia.
      rewrite without_blanks_app, (without_blanks_blank _ Hall2). rewrite <- Hsrc2.
      rewrite (without_blanks_solid _ Hall'). reflexivity.
  - rewrite (next_token_plain s Hskip). intros Hr.
    destruct (emit_lexeme (_current_pos s) s r Hwf Hfresh Hskip Hr)
      as (_ & Hfresh' & _ & Hall' & Hlex).
    split; [exact Hfresh' |]. rewrite Hlex, (without_blanks_solid _ Hall'). reflexivity.
Qed.

Lemma tokens_loop_ignoring budget :
  ∀ s toks out,
    wf s → fresh s → _ignore_skippables s = true →
    fst (tokens_loop budget s toks) = Return out →
    ∃ rest, out = toks ++ rest
            ∧ lexemes (omap id rest)
              = string_of_list_ascii
                  (without_blanks (drop (_source_pos s) (_source s))).
Proof.
  induction budget as [| n IH]; intros s toks out Hwf Hfresh Hign; cbn [tokens_loop].
  - destruct (_reached_end_of_source s 0) eqn:Hend; [| discriminate].
    apply reached_end_iff in Hend. cbn [fst]. intros [= <-]. exists [].
    split; [by rewrite app_nil_r |].
    rewrite drop_ge by (destruct Hwf; lia). reflexivity.
  - destruct (_reached_end_of_source s 0) eqn:Hend.
    { apply reached_end_iff in Hend. cbn [fst]. intros [= <-]. exists [].
      split; [by rewrite app_nil_r |].
      rewrite drop_ge by (destruct Hwf; lia). reflexivity. }
    destruct (next_token_progress_any s Hwf) as (_ & Hwf' & Hext & _).
    pose proof (next_token_ignoring s) as Hlex.
    destruct (next_token s) as [o s1]. cbn [fst snd] in *.
    destruct o as [t | x |]; [| discriminate | discriminate].
    destruct (Hlex t Hwf Hfresh Hign eq_refl) as (Hfresh1 & Hraw).
    destruct Hext as (Hsrc & Hlen & Hign1 & Hpos).
    intros Hout.
    destruct (IH s1 (toks ++ [t]) out Hwf' Hfresh1) as (rest & -> & Hrest);
      [congruence | exact Hout |].
    exists (t :: rest). split; [by rewrite <- app_assoc |].
    assert (Hjoin : lexemes (omap id (t :: rest))
                    = (lexeme_of t ++ lexemes (omap id rest))%string).
    { destruct t as [tok |]; reflexivity. }
    rewrite Hjoin, Hraw, Hrest, Hsrc, <- string_of_list_ascii_app, <- without_blanks_app.
    do 2 f_equal.
    assert (Hd : drop (_source_pos s1) (_source s)
                 = drop (_source_pos s1 - _source_pos s)
                     (drop (_source_pos s) (_source s))).
    { rewrite drop_drop. f_equal. lia. }
    rewrite Hd. apply take_drop.
Qed.

(** X26: with [ignore_skippables] on and no blank in a two- or
    three-character punctuation lexeme, scanning loses the blanks and
    nothing else.  When [tokens] returns, the lexemes of the tokens in
    the list (it may end with the end-of-input marker, which has none),
    joined in order, are the source text without its spaces and tabs. *)
Theorem tokens_lexemes_rebuild_source_without_blanks (source : string)
    (toks : list (option Token)) :
  fst (tokens (QuarkScanner_new source true)) = Return toks →
  lexemes (omap id toks)
  = string_of_list_ascii (without_blanks (list_ascii_of_string source)).
Proof.
  intros Hret.
  destruct (tokens_loop_ignoring (chars_left (QuarkScanner_new source true))
              (QuarkScanner_new source true) [] toks (wf_new source true) eq_refl
              eq_refl Hret) as (rest & -> & Hrest).
  exact Hrest.
Qed.

End IgnoringBlanks.

(** * What evaluation returns and what it leaves bound *)

Section ResultsAndBindings.
Context `{RuntimeOps}.

Lemma execute_result_shape fuel :
  ∀ e closure callstack res,
    outcome (execute fuel e closure callstack) = Return res →
    res_type res = LiteralType
    ∨ ∃ node, val res = PyNode node ∧ stuck_tag node = Some (res_type res).
Proof.
  induction fuel as [| n IH]; intros e closure callstack res; [discriminate |].
  destruct e as [ids inits body | name body | c t a | f arg | l op r | op x
                | items | id | raw ty | exprs]; cbn [execute].
  - cbn [outcome].
    destruct (outcome (execute n body closure callstack)) as [inner | |];
      cbn [map_outcome]; [| discriminate | discriminate].
    intros [= <-]. destruct (decide (res_type inner = LiteralType)) as [E | _];
      [left; exact E | right; eexists; split; reflexivity].
  - destruct callstack as [[| z stack] |]; apply IH.
  - destruct (outcome (execute n c closure None)) as [cr | |];
      [| discriminate | discriminate].
    destruct (decide (res_type cr = LiteralType)) as [_ | _].
    + destruct (runtime_eq (val cr) (BooleanObject 1)); cbn [outcome]; [apply IH |].
      destruct a as [alt |]; cbn [outcome]; [apply IH | discriminate].
    + cbn [outcome]. intros [= <-]. right. eexists. split; reflexivity.
  - destruct callstack as [[| z stack] |]; cbn [outcome];
      (destruct (outcome (execute n f closure _)) as [inner | |] eqn:E;
         cbn [map_outcome]; [| discriminate | discriminate]);
      intros [= <-];
      (destruct (is_expression_type (res_type inner));
         [right; eexists; split; reflexivity | exact (IH _ _ _ _ E)]).
  - destruct (bool_decide _); [| intros [= <-]; right; eexists; split; reflexivity].
    destruct (outcome (execute n l closure None)) as [lr | |];
      [| discriminate | discriminate].
    destruct (outcome (execute n r _ None)) as [rr | |]; [| discriminate | discriminate].
    cbn [outcome]. destruct (_token_binary_operation_mapping (type op)) as [g |];
      [| discriminate].
    destruct (g (val lr) (val rr)); cbn [map_outcome]; [| discriminate | discriminate].
    intros [= <-]. left. reflexivity.
  - destruct (bool_decide _); [| intros [= <-]; right; eexists; split; reflexivity].
    destruct (outcome (execute n x closure None)) as [xr | |];
      [| discriminate | discriminate].
    cbn [outcome]. destruct (_token_unary_operation_mapping (type op)) as [g |];
      [| discriminate].
    destruct (g xr); cbn [map_outcome]; [| discriminate | discriminate].
    intros [= <-]. left. reflexivity.
  - discriminate.
  - discriminate.
  - destruct ty; cbn [outcome];
      try (intros [= <-]; left; reflexivity);
      try (destruct (closure !! raw) as [expr |];
           [apply IH | intros [= <-]; right; eexists; split; reflexivity]).
    destruct (IntegerObject raw); cbn [map_outcome]; [| discriminate | discriminate].
    intros [= <-]. left. reflexivity.
  - discriminate.
Qed.

(** X27: what a returning [execute] hands back.  For an expression the
    result is either tagged [LiteralType], with the value the literal or
    the operator gave, or it carries an AST node and is tagged with the
    class of that node, a [UnaryExpression] being tagged with the base
    class [Expression]: no expression's result is tagged [NoneType],
    [LambdaExpression] or [UnaryExpression], and none carries a
    [LambdaExpression].  For a statement: an assignment returns the pair
    of [NoneType] and [None] and is the only node to do so, an expression
    statement returns as its expression does, and an import or export
    never returns. *)
Theorem execute_returns_literal_or_node (fuel : nat)
    (closure : gmap string Expression) (callstack : option (list Expression))
    (result : ExecutionResult) :
  (∀ e, outcome (execute fuel e closure callstack) = Return result →
        literal_or_node result)
  ∧ (∀ stmt, outcome (Statement_execute fuel stmt closure callstack) = Return result →
             match stmt with
             | AssignmentStatement _ _ => result = mkResult NoneType PyNone
             | ExpressionStatement _ => literal_or_node result
             | ImportStatement _ _ | ExportStatement _ _ => False
             end).
Proof.
  split; [intros e; apply execute_result_shape |].
  intros [packages aliases | packages aliases | identifiers expr_values | e];
    cbn [Statement_execute outcome].
  - discriminate.
  - discriminate.
  - intros [= <-]. reflexivity.
  - apply execute_result_shape.
Qed.

Lemma dom_bind_all (names : list string) :
  ∀ (exprs : list Expression) (closure : gmap string Expression),
    dom closure ⊆ dom (bind_all closure names exprs).
Proof.
  unfold bind_all.
  induction names as [| name names IH]; intros exprs closure; [reflexivity |].
  destruct exprs as [| expr exprs]; [reflexivity |].
  cbn [zip zip_with foldl]. etransitivity; [| apply IH].
  rewrite dom_bind_name. set_solver.
Qed.

(** X28: evaluation never unbinds a name.  Whatever the expression, the
    environment and the pending arguments, and whether the call returns
    or raises, every name bound in the environment before the call is
    bound in it after the call. *)
Theorem execute_keeps_names_bound (fuel : nat) (e : Expression)
    (closure : gmap string Expression) (callstack : option (list Expression)) :
  dom closure ⊆ dom (closure_after (execute fuel e closure callstack)).
Proof.
  revert e closure callstack.
  induction fuel as [| n IH]; intros e closure callstack; [reflexivity |].
  destruct e as [ids inits body | name body | c t a | f arg | l op r | op x
                | items | id | raw ty | exprs]; cbn [execute].
  - cbn [closure_after]. apply dom_bind_all.
  - destruct callstack as [[| z stack] |]; try apply IH.
    etransitivity; [| apply IH]. rewrite dom_bind_name. set_solver.
  - pose proof (IH c closure None) as Hc.
    destruct (outcome (execute n c closure None)) as [cr | |]; [| exact Hc | exact Hc].
    destruct (decide (res_type cr = LiteralType)); [| exact Hc].
    destruct (runtime_eq (val cr) (BooleanObject 1)); cbn [closure_after].
    + etransitivity; [exact Hc | apply IH].
    + destruct a as [alt |]; cbn [closure_after]; [| exact Hc].
      etransitivity; [exact Hc | apply IH].
  - destruct callstack as [[| z stack] |]; reflexivity.
  - destruct (bool_decide _); [| reflexivity].
    pose proof (IH l closure None) as Hl.
    destruct (outcome (execute n l closure None)) as [lr | |]; [| exact Hl | exact Hl].
    pose proof (IH r (closure_after (execute n l closure None)) None) as Hr.
    destruct (outcome (execute n r _ None)) as [rr | |]; cbn [closure_after];
      etransitivity; eassumption.
  - destruct (bool_decide _); [| reflexivity].
    pose proof (IH x closure None) as Hx.
    destruct (outcome (execute n x closure None)); exact Hx.
  - reflexivity.
  - reflexivity.
  - destruct ty; try reflexivity;
      (destruct (closure !! raw) as [expr |]; [apply IH | reflexivity]).
  - reflexivity.
Qed.

End ResultsAndBindings.

(** ** Runs of the further properties on concrete inputs *)

Lemma next_token_leading_period_witness :
  let tables := {| single_char_tokens := ∅;
                   double_char_tokens := {[ ".." := OTHER "DOUBLE_PERIOD" ]};
                   triple_char_tokens := ∅; keyword_tokens := ∅ |} in
  fst (@next_token tables (QuarkScanner_new ".." true))
  = Return (Some (mkToken PERIOD "." (0, 0)))
  ∧ fst (@next_token no_tables (QuarkScanner_new ".007im" true))
    = Return (Some (mkToken COMPLEX ".007im" (0, 0))).
Proof.
  cbn zeta. split.
  - etransitivity.
    + apply (@next_token_leading_period _ (QuarkScanner_new ".." true) [] ["."%char]).
      * split; [reflexivity | cbn; lia].
      * reflexivity.
      * reflexivity.
      * constructor.
      * intros c [= <-]. reflexivity.
    + vm_compute. reflexivity.
  - etransitivity.
    + apply (@next_token_leading_period no_tables (QuarkScanner_new ".007im" true)
               ["0"%char; "0"%char; "7"%char] ["i"%char; "m"%char]).
      * split; [reflexivity | cbn; lia].
      * reflexivity.
      * reflexivity.
      * repeat constructor.
      * intros c [= <-]. reflexivity.
    + vm_compute. reflexivity.
Defined.

Lemma next_token_invalid_character_witness :
  let s := QuarkScanner_new (String newline "x") true in
  @next_token no_tables s
  = (Raise (QuarkScannerError (invalid_character (Some newline))), s).
Proof.
  cbn zeta.
  apply (@next_token_invalid_character no_tables _ newline ["x"%char]).
  - split; [reflexivity | cbn; lia].
  - reflexivity.
  - reflexivity.
  - reflexivity.
  - discriminate.
  - reflexivity.
  - intros k [[t Hk] | [[t Hk] | [t Hk]]]; cbn in Hk; rewrite lookup_empty in Hk;
      discriminate.
Defined.

Lemma tokens_positions_witness :
  let tables := {| single_char_tokens := {[ String newline EmptyString := OTHER "NEWLINE" ]};
                   double_char_tokens := ∅; triple_char_tokens := ∅;
                   keyword_tokens := ∅ |} in
  let source := String "a"%char (String newline "b") in
  let toks := [Some (mkToken ID "a" (0, 0));
               Some (mkToken (OTHER "NEWLINE") (String newline EmptyString) (1, 0));
               Some (mkToken ID "b" (1, 1))] in
  ascii_text source
  ∧ fst (@tokens tables (QuarkScanner_new source false)) = Return toks
  ∧ ∃ found, toks = Some <$> found
             ∧ ∀ i tok, found !! i = Some tok →
                 pos tok = position_of (list_ascii_of_string (lexemes (take i found))).
Proof.
  cbn zeta.
  assert (Hascii : ascii_text (String "a"%char (String newline "b"))).
  { unfold ascii_text. repeat constructor; cbn; lia. }
  split; [exact Hascii |]. split; [vm_compute; reflexivity |].
  apply (@tokens_positions
           {| single_char_tokens := {[ String newline EmptyString := OTHER "NEWLINE" ]};
              double_char_tokens := ∅; triple_char_tokens := ∅; keyword_tokens := ∅ |}
           (String "a"%char (String newline "b")) _ Hascii).
  vm_compute. reflexivity.
Defined.

Lemma tokens_lexemes_rebuild_source_without_blanks_witness :
  let toks := [Some (mkToken ID "a" (0, 0)); Some (mkToken LESS_EQUAL "<=" (1, 0));
               Some (mkToken ID "b" (4, 0)); None] in
  fst (@tokens sample_tables (QuarkScanner_new "a <= b " true)) = Return toks
  ∧ lexemes (omap id toks) = "a<=b".
Proof.
  cbn zeta. split; [vm_compute; reflexivity |].
  etransitivity.
  - apply (@tokens_lexemes_rebuild_source_without_blanks sample_tables
             sample_tables_blank_free "a <= b ").
    vm_compute. reflexivity.
  - vm_compute. reflexivity.
Defined.

Lemma execute_returns_literal_or_node_witness :
  let node := UnaryExpression (mkToken MINUS "-" (0, 0)) (AtomExpression "x" ID) in
  let assignment := AssignmentStatement ["x"] [AtomExpression "1" INTEGER] in
  (outcome (@execute strict_runtime 1 node ∅ None)
   = Return (mkResult cls_Expression (PyNode node))
   ∧ literal_or_node (mkResult cls_Expression (PyNode node)))
  ∧ ∀ result,
      outcome (@Statement_execute strict_runtime 1 assignment ∅ None) = Return result →
      result = mkResult NoneType PyNone.
Proof.
  cbn zeta.
  assert (Hrun : outcome (@execute strict_runtime 1
                    (UnaryExpression (mkToken MINUS "-" (0, 0)) (AtomExpression "x" ID))
                    ∅ None)
                 = Return (mkResult cls_Expression
                             (PyNode (UnaryExpression (mkToken MINUS "-" (0, 0))
                                        (AtomExpression "x" ID)))))
    by (vm_compute; reflexivity).
  split.
  - split; [exact Hrun |].
    exact (proj1 (@execute_returns_literal_or_node strict_runtime 1 ∅ None _) _ Hrun).
  - intros result Hresult.
    exact (proj2 (@execute_returns_literal_or_node strict_runtime 1 ∅ None result)
             (AssignmentStatement ["x"] [AtomExpression "1" INTEGER]) Hresult).
Defined.

(** * Leading zeros *)

Section LeadingZero.
Context `{TokenTables}.

(** The token that [next_token] recognises after blanks it ignores, if
    there are any, is the one it recognises where the blanks end. *)
Lemma next_token_after_blanks s (blanks : list ascii) c rest :
  wf s →
  drop (_source_pos s) (_source s) = blanks ++ c :: rest →
  Forall (λ b, skippable_char b = true) blanks →
  (blanks ≠ [] → _ignore_skippables s = true) →
  skippable_char c = false →
  ∃ s', next_token s = emit (_current_pos s) s'
        ∧ wf s' ∧ (fresh s → fresh s')
        ∧ drop (_source_pos s') (_source s') = c :: rest.
Proof.
  intros Hwf Hd Hrun Hflag Hc. destruct blanks as [| blank blanks].
  - exists s. cbn [app] in Hd. split; [| split; [exact Hwf | split; [auto | exact Hd]]].
    apply next_token_plain. unfold _is_skippable.
    rewrite (test_current_char_drop _ s Hwf), Hd. exact Hc.
  - set (after := _discard_consumed_chars (advance_by s (S (length blanks)))).
    exists after.
    assert (Hnl : skippable_char newline = false) by reflexivity.
    pose proof (Forall_inv Hrun) as Hblank. cbn beta in Hblank.
    assert (Hskip : _is_skippable s = true).
    { unfold _is_skippable. rewrite (test_current_char_drop _ s Hwf), Hd. exact Hblank. }
    cbn [app] in Hd.
    destruct (chars_left_step s blank _ Hwf Hd) as (_ & Hwf1 & Hd1).
    assert (Hstop : ∀ a, head (c :: rest) = Some a → skippable_char a = false)
      by (intros a [= <-]; exact Hc).
    assert (Hloop : consume_while _is_skippable (chars_left (_consume_char s))
                      (_consume_char s) = advance_by s (S (length blanks))).
    { rewrite (consume_char_advance s blank _ Hwf Hd) by congruence.
      unfold _is_skippable.
      rewrite (consume_while_run skippable_char blanks Hnl (advance_by s 1) (c :: rest)
                 Hwf1 Hd1 (Forall_inv_tail Hrun) Hstop).
      rewrite advance_by_add. reflexivity. }
    assert (Hafter : drop (_source_pos after) (_source after) = c :: rest).
    { apply (drop_advance s _ (blank :: blanks) (c :: rest) Hd). reflexivity. }
    assert (Hwfa : wf after).
    { apply (wf_advance_drop s _ (blank :: blanks) (c :: rest) Hwf Hd). reflexivity. }
    split; [| split; [exact Hwfa | split; [reflexivity | exact Hafter]]].
    rewrite (next_token_blank s Hskip). cbn zeta. rewrite Hloop.
    change (_ignore_skippables (advance_by s (S (length blanks))))
      with (_ignore_skippables s).
    rewrite Hflag by discriminate. fold after.
    assert (Hlt : _source_pos after < _source_len after).
    { pose proof (f_equal (@length ascii) Hafter) as Hz. rewrite length_drop in Hz.
      cbn [length] in Hz. destruct Hwfa as [Hl _]. lia. }
    rewrite (not_reached_end after Hlt). reflexivity.
Qed.

Lemma scan_type_leading_zero s (k : nat) (d : ascii) (rest : list ascii) :
  wf s →
  drop (_source_pos s) (_source s) = "0"%char :: replicate k "0"%char ++ d :: rest →
  num_char d = true → d ≠ "0"%char →
  fst (scan_type s) = Raise (QuarkScannerError leading_zeros_not_permitted).
Proof.
  intros Hwf Hd Hnum Hnz.
  destruct (drop_lookup_head _ _ _ _ Hd) as [H0 Hd1].
  assert (Hat : ∀ i, _source s !! (_source_pos s + 1 + i)
                     = (replicate k "0"%char ++ d :: rest) !! i).
  { intros i. rewrite <- Hd1, lookup_drop. f_equal. lia. }
  unfold scan_type.
  unfold _is_num_char at 1. rewrite (test_current_char_lookup _ _ _ Hwf H0).
  change (num_char "0") with true. cbv iota.
  rewrite (match_one_char _ _ "0"%char Hwf H0).
  rewrite bool_decide_eq_true_2 by reflexivity.
  destruct (consume_char_advances s _ Hwf H0) as (Hsrc1 & Hlen1 & _ & Hpos1).
  pose proof (integer_part_leading_zero k (chars_left (_consume_char s))
                (_consume_char s) d) as Hloop.
  destruct (consume_integer_part true (chars_left (_consume_char s)) (_consume_char s))
    as [o s2].
  cbn [fst] in Hloop. rewrite Hloop; [reflexivity | | | | assumption | assumption |].
  - apply wf_consume_char, Hwf.
  - intros i Hi. rewrite Hsrc1, Hpos1, Hat.
    rewrite lookup_app_l by (rewrite length_replicate; lia).
    apply lookup_replicate_2. exact Hi.
  - rewrite Hsrc1, Hpos1, Hat.
    rewrite lookup_app_r by (rewrite length_replicate; lia).
    rewrite length_replicate, Nat.sub_diag. reflexivity.
  - unfold chars_left. rewrite Hlen1, Hpos1.
    pose proof (f_equal (@length ascii) Hd1) as Hz.
    rewrite length_drop, length_app, length_replicate in Hz. cbn [length] in Hz.
    destruct Hwf as [Hl _]. lia.
Qed.

(** C6, as the code has it.  Wherever the scanner stands, if the text
    goes on (after blanks, where blanks are ignored) with a literal that
    starts with [0], goes on with any number of further [0] digits and
    then has a digit other than [0], [next_token] raises the
    leading-zero error, whatever comes after that digit.  A literal of
    [0] digits only, after which no digit, no period and no [im]
    follows, is accepted: [next_token] returns it as one INTEGER
    token. *)
Theorem leading_zero_then_other_digit_raises (s : QuarkScanner)
    (blanks : list ascii) (k : nat) (tail : list ascii) :
  wf s →
  drop (_source_pos s) (_source s)
  = blanks ++ "0"%char :: replicate k "0"%char ++ tail →
  Forall (λ b, skippable_char b = true) blanks →
  (blanks ≠ [] → _ignore_skippables s = true) →
  (∀ d rest, tail = d :: rest → num_char d = true → d ≠ "0"%char →
     fst (next_token s) = Raise (QuarkScannerError leading_zeros_not_permitted))
  ∧ (fresh s →
     (∀ c, head tail = Some c → num_char c = false) →
     head tail ≠ Some "."%char →
     starts_with_im tail = false →
     fst (next_token s)
     = Return (Some (mkToken INTEGER (zeros (S k)) (_column_pos s, _line_pos s)))).
Proof.
  intros Hwf Hd Hrun Hflag.
  destruct (next_token_after_blanks s blanks "0"%char (replicate k "0"%char ++ tail)
              Hwf Hd Hrun Hflag eq_refl) as (s' & Hnext & Hwf' & Hfresh' & Hd').
  rewrite Hnext. unfold emit. split.
  - intros d rest -> Hnum Hnz.
    pose proof (scan_type_leading_zero s' k d rest Hwf' Hd' Hnum Hnz) as Hscan.
    destruct (scan_type s') as [o s2]. cbn [fst] in Hscan. rewrite Hscan. reflexivity.
  - intros Hfresh Hstop Hnodot Hnoim.
    assert (Htext : numeric_text ("0"%char :: replicate k "0"%char) None false
                    = "0"%char :: replicate k "0"%char).
    { unfold numeric_text. rewrite !app_nil_r. reflexivity. }
    assert (Hd2 : drop (_source_pos s') (_source s')
                  = numeric_text ("0"%char :: replicate k "0"%char) None false ++ tail).
    { rewrite Htext. exact Hd'. }
    rewrite (scan_number s' "0"%char (replicate k "0"%char) None false tail Hwf' Hd2).
    + cbn [fst]. do 3 f_equal.
      rewrite (consumed_chars_advance s' _ _ tail (Hfresh' Hfresh) Hd2 eq_refl), Htext.
      reflexivity.
    + constructor; [reflexivity |]. apply Forall_replicate. reflexivity.
    + intros _. apply Forall_replicate. reflexivity.
    + intros digits [=].
    + intros _. exact Hstop.
    + intros _. exact Hnoim.
    + intros _ _. exact Hnodot.
Qed.

End LeadingZero.

Lemma leading_zero_then_other_digit_raises_witness :
  fst (@next_token no_tables (QuarkScanner_new " 007" true))
  = Raise (QuarkScannerError leading_zeros_not_permitted)
  ∧ fst (@next_token sample_tables
           (snd (@next_token sample_tables (QuarkScanner_new "+007" true))))
    = Raise (QuarkScannerError leading_zeros_not_permitted)
  ∧ fst (@next_token no_tables (QuarkScanner_new "000 " false))
    = Return (Some (mkToken INTEGER "000" (0, 0))).
Proof.
  split; [| split].
  - apply (proj1 (@leading_zero_then_other_digit_raises no_tables
                    (QuarkScanner_new " 007" true) [" "%char] 1 ["7"%char]
                    (wf_new _ _) eq_refl ltac:(repeat constructor) (λ _, eq_refl))
             "7"%char [] eq_refl eq_refl).
    discriminate.
  - assert (Hwf : wf (snd (@next_token sample_tables (QuarkScanner_new "+007" true))))
      by (split; [vm_compute; reflexivity | apply Nat.leb_le; vm_compute; reflexivity]).
    apply (proj1 (@leading_zero_then_other_digit_raises sample_tables
                    (snd (@next_token sample_tables (QuarkScanner_new "+007" true)))
                    [] 1 ["7"%char] Hwf eq_refl ltac:(constructor)
                    (λ Hne, False_ind _ (Hne eq_refl)))
             "7"%char [] eq_refl eq_refl).
    discriminate.
  - apply (proj2 (@leading_zero_then_other_digit_raises no_tables
                    (QuarkScanner_new "000 " false) [] 2 [" "%char]
                    (wf_new _ _) eq_refl ltac:(constructor)
                    (λ Hne, False_ind _ (Hne eq_refl)))).
    + reflexivity.
    + intros c [= <-]. reflexivity.
    + discriminate.
    + reflexivity.
Defined.
